(** * Region allocators of lab4: free-list and buddy (McKusick-Karels style)

    A shallow embedding of [lab4/alloc_free_list/free_list.c] and
    [lab4/alloc_mc_kusick/mc_kusick.c] over a byte-addressed memory, and the
    properties of the two allocators.

    Data layout is the LP64 one the code is built for: [size_t], [uintptr_t]
    and pointers are 8 bytes, [int] is 4 bytes, [uint16_t] is 2 bytes,
    [alignof(max_align_t)] is 16, integers are stored little-endian.
    Unsigned arithmetic wraps modulo 2^64 and is written out with [wrap];
    addresses are integers and [NULL] is 0. *)

From stdpp Require Import gmap list.
From Stdlib Require Import ZArith Lia.

Open Scope Z_scope.

(** ** Machine arithmetic *)

Definition wrap (x : Z) : Z := x mod 2 ^ 64.

(** [~x] on a 64-bit unsigned value. *)
Definition not64 (x : Z) : Z := wrap (Z.lnot x).

(** [static inline size_t align_up(size_t x, size_t a)
      { return (x + (a - 1)) & ~(a - 1); }] *)
Definition align_up (x a : Z) : Z :=
  Z.land (wrap (x + wrap (a - 1))) (not64 (wrap (a - 1))).

(** [static inline size_t pow2(int k){ return (size_t)1 << k; }] *)
Definition pow2 (k : Z) : Z := wrap (Z.shiftl 1 k).

(** ** Byte-addressed memory

    A memory maps an address to the byte stored there; a byte that was never
    written reads as 0.  Multi-byte values are little-endian. *)

Abbreviation mem := (gmap Z Z).

Fixpoint load (n : nat) (a : Z) (m : mem) : Z :=
  match n with
  | O => 0
  | S n' => default 0 (m !! a) mod 256 + 256 * load n' (a + 1) m
  end.

Fixpoint store (n : nat) (a v : Z) (m : mem) : mem :=
  match n with
  | O => m
  | S n' => <[a := v mod 256]> (store n' (a + 1) (v / 256) m)
  end.

(** ** Loops

    [while_pow n body s] runs [body] from [s] at most [2^n] times, and stops
    at the first [inr].  [while] gives a loop 2^64 iterations, more than any
    walk over distinct addresses of a 64-bit address space can take; [None]
    is a loop that did not leave within that bound. *)

Section While.
Context {St R : Type} (body : St → St + R).

Fixpoint while_pow (n : nat) (s : St) : St + R :=
  match n with
  | O => body s
  | S n' =>
      match while_pow n' s with
      | inl s' => while_pow n' s'
      | inr r => inr r
      end
  end.

Definition while (s : St) : option R :=
  match while_pow 64 s with
  | inl _ => None
  | inr r => Some r
  end.

(** The same loop with a unary iteration counter, for the proofs. *)
Fixpoint while_fuel (k : nat) (s : St) : option R :=
  match k with
  | O => None
  | S k' =>
      match body s with
      | inl s' => while_fuel k' s'
      | inr r => Some r
      end
  end.
End While.

(** ** The free-list allocator ([lab4/alloc_free_list])

    [struct Allocator { unsigned char *base; size_t size;
                        struct block_header *free_list; }]   (24 bytes)
    [struct block_header { size_t size; struct block_header *next;
                           int free; }]                      (24 bytes, align 8)

    The descriptor and the headers live in the arena itself; every field
    access of the source is a [load] or a [store] at the field's address. *)

Module FreeList.

Definition sizeof_Allocator : Z := 24.
Definition sizeof_block_header : Z := 24.
Definition alignof_block_header : Z := 8.
Definition alignof_max_align_t : Z := 16.

(** Field addresses. *)
Definition base_of (a : Z) : Z := a.
Definition size_of (a : Z) : Z := a + 8.
Definition free_list_of (a : Z) : Z := a + 16.
Definition bsize (b : Z) : Z := b.
Definition bnext (b : Z) : Z := b + 8.
Definition bfree (b : Z) : Z := b + 16.

(** [Allocator* allocator_create(void *memory, size_t size)] *)
Definition allocator_create (m : mem) (memory size : Z) : Z * mem :=
  let a := memory in
  let m := store 8 (base_of a) memory m in
  let m := store 8 (size_of a) size m in
  let off := align_up sizeof_Allocator alignof_block_header in
  let b := load 8 (base_of a) m + off in
  let usable := wrap (size - off) in
  let m := store 8 (bsize b) usable m in
  let m := store 8 (bnext b) 0 m in
  let m := store 4 (bfree b) 1 m in
  let m := store 8 (free_list_of a) b m in
  (a, m).

(** [void allocator_destroy(Allocator *a) { (void)a; }] *)
Definition allocator_destroy (m : mem) (a : Z) : mem := m.

(** [static void split_block(block_header *b, size_t need)] *)
Definition split_block (m : mem) (b need : Z) : mem :=
  if wrap (wrap (need + sizeof_block_header) + 16) <=? load 8 (bsize b) m then
    let nb := b + need in
    let m := store 8 (bsize nb) (wrap (load 8 (bsize b) m - need)) m in
    let m := store 8 (bnext nb) (load 8 (bnext b) m) m in
    let m := store 4 (bfree nb) 1 m in
    let m := store 8 (bsize b) need m in
    store 8 (bnext b) nb m
  else m.

(** The statements under [if (p->free && p->size >= need)]: the block [p],
    reached through the link at [pp], is taken. *)
Definition alloc_take (m : mem) (pp p need : Z) : Z * mem :=
  let m := split_block m p need in
  let m := store 4 (bfree p) 0 m in
  let m := store 8 pp (load 8 (bnext p) m) m in
  let m := store 8 (bnext p) 0 m in
  (p + sizeof_block_header, m).

(** One turn of [while (p)] in [allocator_alloc]; the state is [(pp, p)]. *)
Definition alloc_body (m : mem) (need : Z) (st : Z * Z) : Z * Z + Z * mem :=
  let '(pp, p) := st in
  if p =? 0 then inr (0, m)
  else if negb (load 4 (bfree p) m =? 0) && (need <=? load 8 (bsize p) m)
  then inr (alloc_take m pp p need)
  else inl (bnext p, load 8 (bnext p) m).

(** [void* allocator_alloc(Allocator *a, size_t size)] *)
Definition allocator_alloc (m : mem) (a size : Z) : option (Z * mem) :=
  if size =? 0 then Some (0, m)
  else
    let need := wrap (align_up size alignof_max_align_t + sizeof_block_header) in
    while (alloc_body m need) (free_list_of a, load 8 (free_list_of a) m).

(** [static block_header* ptr_to_block(void *ptr)] *)
Definition ptr_to_block (ptr : Z) : Z := ptr - sizeof_block_header.

(** One turn of [while (p && p < b)] in [allocator_free]. *)
Definition insert_body (m : mem) (b : Z) (st : Z * Z) : Z * Z + Z * Z :=
  let '(pp, p) := st in
  if negb (p =? 0) && (p <? b) then inl (bnext p, load 8 (bnext p) m)
  else inr (pp, p).

(** The block under [// Try to coalesce with next block]. *)
Definition coalesce_next (m : mem) (b : Z) : mem :=
  let nx := load 8 (bnext b) m in
  if negb (nx =? 0) && negb (load 4 (bfree nx) m =? 0) then
    let e := b + load 8 (bsize b) m in
    if e =? nx then
      let m := store 8 (bsize b) (wrap (load 8 (bsize b) m + load 8 (bsize nx) m)) m in
      store 8 (bnext b) (load 8 (bnext (load 8 (bnext b) m)) m) m
    else m
  else m.

(** One turn of [while (p && p != b)] under
    [// Try to coalesce with previous block]; the state is [p]. *)
Definition coalesce_prev_body (m : mem) (b : Z) (p : Z) : Z + mem :=
  if negb (p =? 0) && negb (p =? b) then
    if (load 8 (bnext p) m =? b) && (p + load 8 (bsize p) m =? b) then
      let m := store 8 (bsize p) (wrap (load 8 (bsize p) m + load 8 (bsize b) m)) m in
      inr (store 8 (bnext p) (load 8 (bnext b) m) m)
    else inl (load 8 (bnext p) m)
  else inr m.

(** [void allocator_free(Allocator *a, void *ptr)] *)
Definition allocator_free (m : mem) (a ptr : Z) : option mem :=
  if ptr =? 0 then Some m
  else
    let b := ptr_to_block ptr in
    let m := store 4 (bfree b) 1 m in
    match while (insert_body m b) (free_list_of a, load 8 (free_list_of a) m) with
    | None => None
    | Some (pp, p) =>
        let m := store 8 (bnext b) p m in
        let m := store 8 pp b m in
        let m := coalesce_next m b in
        while (coalesce_prev_body m b) (load 8 (free_list_of a) m)
    end.

(** Walk of the free list, from a link value: the (address, size) of every
    block on it, in list order.  The state is the reversed list read so far
    and the current pointer. *)
Definition walk_body (m : mem) (st : list (Z * Z) * Z)
  : list (Z * Z) * Z + list (Z * Z) :=
  let '(acc, p) := st in
  if p =? 0 then inr (reverse acc)
  else inl ((p, load 8 (bsize p) m) :: acc, load 8 (bnext p) m).

Definition free_blocks (m : mem) (a : Z) : option (list (Z * Z)) :=
  while (walk_body m) ([], load 8 (free_list_of a) m).

End FreeList.

(** ** The buddy allocator ([lab4/alloc_mc_kusick])

    [struct Allocator { unsigned char *base; size_t size;
                        int min_order; int max_order;
                        struct FreeNode *free_lists[64]; }]  (536 bytes)
    [struct FreeNode { struct FreeNode *next; }]

    A live block starts with its [uint16_t] order tag; a free block starts
    with the [next] pointer of its free-list node.  Both are accesses to the
    same bytes of the one memory. *)

(** A 4-byte value read as a C [int]. *)
Definition sint32 (x : Z) : Z := if x <? 2 ^ 31 then x else x - 2 ^ 32.

Module Buddy.

Definition sizeof_Allocator : Z := 536.
Definition sizeof_uint16_t : Z := 2.

(** Field addresses. *)
Definition base_of (A : Z) : Z := A.
Definition size_of (A : Z) : Z := A + 8.
Definition min_order_of (A : Z) : Z := A + 16.
Definition max_order_of (A : Z) : Z := A + 20.
Definition free_lists_of (A : Z) (i : Z) : Z := A + 24 + 8 * i.

Definition load_int (a : Z) (m : mem) : Z := sint32 (load 4 a m).

(** [static int ilog2_ceil(size_t x)]; the loop state is [(k, v)]. *)
Definition ilog2_ceil_body (x : Z) (st : Z * Z) : Z * Z + Z :=
  let '(k, v) := st in
  if v <? x then inl (k + 1, wrap (Z.shiftl v 1)) else inr k.

Definition ilog2_ceil (x : Z) : option Z := while (ilog2_ceil_body x) (0, 1).

(** One turn of
    [while (A->max_order < 20 && pow2(A->max_order+1) <= usable) A->max_order++;] *)
Definition max_order_body (A usable : Z) (m : mem) : mem + mem :=
  if (load_int (max_order_of A) m <? 20)
     && (pow2 (load_int (max_order_of A) m + 1) <=? usable)
  then inl (store 4 (max_order_of A) (load_int (max_order_of A) m + 1) m)
  else inr m.

(** [static void list_push(FreeNode **head, FreeNode *n)] *)
Definition list_push (m : mem) (head n : Z) : mem :=
  let m := store 8 n (load 8 head m) m in
  store 8 head n m.

(** [static FreeNode* list_pop(FreeNode **head)] *)
Definition list_pop (m : mem) (head : Z) : Z * mem :=
  let n := load 8 head m in
  if negb (n =? 0) then (n, store 8 head (load 8 n m) m) else (n, m).

(** One turn of the [while (p)] of [list_remove]; the state is [(pp, p)]. *)
Definition list_remove_body (m : mem) (n : Z) (st : Z * Z)
  : Z * Z + Z * mem :=
  let '(pp, p) := st in
  if p =? 0 then inr (0, m)
  else if p =? n then inr (1, store 8 pp (load 8 p m) m)
  else inl (p, load 8 p m).

(** [static int list_remove(FreeNode **head, FreeNode *n)] *)
Definition list_remove (m : mem) (head n : Z) : option (Z * mem) :=
  while (list_remove_body m n) (head, load 8 head m).

(** [Allocator* allocator_create(void *memory, size_t size)]; a result
    handle of 0 is the [NULL] of the source. *)
Definition allocator_create (m : mem) (memory size : Z) : option (Z * mem) :=
  let A := memory in
  let m := store 8 (base_of A) memory m in
  let m := store 8 (size_of A) size m in
  let off := align_up sizeof_Allocator 16 in
  let usable := wrap (size - off) in
  if usable <? 64 then Some (0, m)
  else
    let m := store 4 (min_order_of A) 4 m in
    m ← (if pow2 (load_int (min_order_of A) m) <? wrap (sizeof_uint16_t + 8)
         then k ← ilog2_ceil (wrap (sizeof_uint16_t + 8));
              Some (store 4 (min_order_of A) k m)
         else Some m);
    let m := store 4 (max_order_of A) 0 m in
    m ← while (max_order_body A usable) m;
    if load_int (max_order_of A) m <? load_int (min_order_of A) m
    then Some (0, m)
    else
      let m := foldl (λ m i, store 8 (free_lists_of A i) 0 m) m (seqZ 0 64) in
      let arena := load 8 (base_of A) m + off in
      let mask := wrap (pow2 (load_int (max_order_of A) m) - 1) in
      let aligned := Z.land (wrap (arena + mask)) (not64 mask) in
      let align_pad := wrap (aligned - arena) in
      if usable <=? align_pad then Some (0, m)
      else
        let arena := aligned in
        let usable := wrap (usable - align_pad) in
        let usable := Z.land usable (not64 mask) in
        let blocks := Z.shiftr usable (load_int (max_order_of A) m) in
        let m :=
          foldl (λ m i,
                   let b := arena + wrap (Z.shiftl i (load_int (max_order_of A) m)) in
                   list_push m (free_lists_of A (load_int (max_order_of A) m)) b)
                m (seqZ 0 blocks) in
        Some (A, m).

(** [void allocator_destroy(Allocator *a){ (void)a; }] *)
Definition allocator_destroy (m : mem) (A : Z) : mem := m.

(** [static int order_for(size_t size, int min_order)] *)
Definition order_for_body (need : Z) (k : Z) : Z + Z :=
  if pow2 k <? need then inl (k + 1) else inr k.

Definition order_for (size min_order : Z) : option Z :=
  let need := wrap (size + sizeof_uint16_t) in
  while (order_for_body need) min_order.

(** One turn of
    [while (cur <= A->max_order && A->free_lists[cur] == NULL) cur++;] *)
Definition find_body (m : mem) (A : Z) (cur : Z) : Z + Z :=
  if (cur <=? load_int (max_order_of A) m)
     && (load 8 (free_lists_of A cur) m =? 0)
  then inl (cur + 1) else inr cur.

(** One turn of the splitting loop [while (cur > k)]; the state is
    [(cur, m)], the working block does not change. *)
Definition split_body (A block k : Z) (st : Z * mem) : Z * mem + mem :=
  let '(cur, m) := st in
  if k <? cur then
    let cur := cur - 1 in
    let buddy := block + pow2 cur in
    inl (cur, list_push m (free_lists_of A cur) buddy)
  else inr m.

(** [void* allocator_alloc(Allocator *A, size_t size)] *)
Definition allocator_alloc (m : mem) (A size : Z) : option (Z * mem) :=
  if size =? 0 then Some (0, m)
  else
    k ← order_for size (load_int (min_order_of A) m);
    if load_int (max_order_of A) m <? k then Some (0, m)
    else
      cur ← while (find_body m A) k;
      if load_int (max_order_of A) m <? cur then Some (0, m)
      else
        let '(node, m) := list_pop m (free_lists_of A cur) in
        let block := node in
        m ← while (split_body A block k) (cur, m);
        let m := store 2 block k m in
        Some (block + sizeof_uint16_t, m).

(** One turn of the buddy search
    [while (it){ if ((unsigned char* )it == buddy){ found = 1; break; } it = it->next; }] *)
Definition scan_body (m : mem) (buddy : Z) (it : Z) : Z + Z :=
  if it =? 0 then inr 0
  else if it =? buddy then inr 1
  else inl (load 8 it m).

(** One turn of the [for(;;)] of [allocator_free]; the state is
    [(block, k, m)]. *)
Definition free_body (A : Z) (st : Z * Z * mem) : Z * Z * mem + option mem :=
  let '(block, k, m) := st in
  let rel := wrap (block - load 8 (base_of A) m) in
  let buddy_rel := Z.lxor rel (pow2 k) in
  let buddy := load 8 (base_of A) m + buddy_rel in
  match while (scan_body m buddy) (load 8 (free_lists_of A k) m) with
  | None => inr None
  | Some found =>
      if found =? 0 then
        inr (Some (list_push m (free_lists_of A k) block))
      else
        match list_remove m (free_lists_of A k) buddy with
        | None => inr None
        | Some (_, m) =>
            let block := if buddy <? block then buddy else block in
            let k := (k + 1) mod 2 ^ 16 in
            if load_int (max_order_of A) m <? k
            then inr (Some (list_push m (free_lists_of A (k - 1)) block))
            else inl (block, k, m)
        end
  end.

(** [void allocator_free(Allocator *A, void *ptr)] *)
Definition allocator_free (m : mem) (A ptr : Z) : option mem :=
  if ptr =? 0 then Some m
  else
    let p := ptr - sizeof_uint16_t in
    let k := load 2 p m in
    let block := p in
    r ← while (free_body A) (block, k, m);
    r.

(** Walk of the free list of one order: the addresses on it, in list
    order. *)
Definition walk_body (m : mem) (st : list Z * Z) : list Z * Z + list Z :=
  let '(acc, p) := st in
  if p =? 0 then inr (reverse acc) else inl (p :: acc, load 8 p m).

Definition free_list (m : mem) (A k : Z) : option (list Z) :=
  while (walk_body m) ([], load 8 (free_lists_of A k) m).

(** The free lists of orders 0 to 63. *)
Definition free_lists (m : mem) (A : Z) : option (list (list Z)) :=
  mapM (free_list m A) (seqZ 0 64).

End Buddy.


(** * Properties *)

(** ** Machine arithmetic *)

Lemma wrap_range x : 0 <= wrap x < 2 ^ 64.
Proof. unfold wrap. apply Z.mod_pos_bound. lia. Qed.

Lemma wrap_small x : 0 <= x < 2 ^ 64 → wrap x = x.
Proof. intros H. unfold wrap. by apply Z.mod_small. Qed.

Lemma wrap_land_ones x : wrap x = Z.land x (Z.ones 64).
Proof. unfold wrap. by rewrite Z.land_ones. Qed.

(** Clearing the low [j] bits rounds down to a multiple of [2^j]. *)
Lemma land_not64_ones y j :
  0 <= y < 2 ^ 64 → 0 <= j →
  Z.land y (not64 (Z.ones j)) = y - y mod 2 ^ j.
Proof.
  intros Hy Hj. unfold not64. rewrite wrap_land_ones.
  rewrite (Z.land_comm (Z.lnot _)), Z.land_assoc, <- wrap_land_ones.
  rewrite (wrap_small y) by done.
  rewrite <- Z.sub_land_same_l, Z.land_ones by done. done.
Qed.

Lemma align_up_16 x :
  0 <= x → x + 15 < 2 ^ 64 → align_up x 16 = x + 15 - (x + 15) mod 16.
Proof.
  intros H0 H1. unfold align_up.
  change (wrap (16 - 1)) with (Z.ones 4).
  rewrite (wrap_small (x + _)) by (change (Z.ones 4) with 15; lia).
  rewrite land_not64_ones by (change (Z.ones 4) with 15; lia).
  done.
Qed.

Lemma align_up_16_bounds x :
  0 <= x → x + 15 < 2 ^ 64 →
  x <= align_up x 16 < x + 16 ∧ align_up x 16 mod 16 = 0.
Proof.
  intros H0 H1. rewrite align_up_16 by done.
  pose proof (Z.mod_pos_bound (x + 15) 16 ltac:(lia)).
  split; [lia|].
  rewrite Zminus_mod, Zmod_mod, Z.sub_diag. done.
Qed.

Lemma pow2_small k : 0 <= k < 64 → pow2 k = 2 ^ k.
Proof.
  intros H. unfold pow2. rewrite Z.shiftl_1_l. apply wrap_small.
  split; [lia|]. apply Z.pow_lt_mono_r; lia.
Qed.

(** XOR with a power of two moves an offset by that power, up or down. *)
Lemma lxor_pow2 r k :
  0 <= r → 0 <= k →
  (Z.testbit r k = false ∧ Z.lxor r (2 ^ k) = r + 2 ^ k) ∨
  (Z.testbit r k = true ∧ Z.lxor r (2 ^ k) = r - 2 ^ k).
Proof.
  intros Hr Hk.
  assert (Hpow : ∀ x, 0 <= x → Z.testbit x k = false → Z.lxor x (2 ^ k) = x + 2 ^ k).
  { intros x Hx Hb. symmetry. apply Z.add_nocarry_lxor.
    apply Z.bits_inj'. intros n Hn. rewrite Z.land_spec, Z.bits_0.
    destruct (decide (n = k)) as [->|Hne].
    - by rewrite Hb.
    - rewrite Z.pow2_bits_false by lia. apply andb_false_r. }
  destruct (Z.testbit r k) eqn:Hb.
  - right. split; [done|].
    assert (Hb' : Z.testbit (Z.lxor r (2 ^ k)) k = false).
    { rewrite Z.lxor_spec, Hb, Z.pow2_bits_true by lia. done. }
    assert (0 <= Z.lxor r (2 ^ k)).
    { apply Z.lxor_nonneg. split; intros _; [apply Z.pow_nonneg; lia | done]. }
    pose proof (Hpow _ H Hb') as E.
    rewrite Z.lxor_assoc, Z.lxor_nilpotent, Z.lxor_0_r in E. lia.
  - left. split; [done|]. by apply Hpow.
Qed.

(** ** Memory *)

Lemma load_range n a m : 0 <= load n a m < 256 ^ Z.of_nat n.
Proof.
  revert a. induction n as [|n IH]; intros a.
  - simpl. lia.
  - rewrite Nat2Z.inj_succ, Z.pow_succ_r by lia. simpl load.
    pose proof (Z.mod_pos_bound (default 0 (m !! a)) 256 ltac:(lia)).
    specialize (IH (a + 1)). lia.
Qed.

Lemma load_insert_out n a x b (m : mem) :
  x < a ∨ a + Z.of_nat n <= x → load n a (<[x := b]> m) = load n a m.
Proof.
  revert a. induction n as [|n IH]; intros a H; [done|].
  simpl. rewrite lookup_insert_ne by lia. rewrite IH by lia. done.
Qed.

Lemma load_store_ne n a n' a' v m :
  a + Z.of_nat n <= a' ∨ a' + Z.of_nat n' <= a →
  load n a (store n' a' v m) = load n a m.
Proof.
  revert a' v. induction n' as [|n' IH]; intros a' v H; [done|].
  simpl store. destruct n as [|n]; [done|].
  rewrite load_insert_out by lia. apply IH. lia.
Qed.

Lemma load_store_eq n a v m : load n a (store n a v m) = v mod 256 ^ Z.of_nat n.
Proof.
  revert a v. induction n as [|n IH]; intros a v.
  - simpl. by rewrite Z.mod_1_r.
  - simpl load. simpl store. rewrite lookup_insert_eq. simpl.
    rewrite load_insert_out by lia. rewrite IH.
    rewrite Nat2Z.inj_succ, Z.pow_succ_r by lia.
    rewrite Zmod_mod.
    rewrite Z.rem_mul_r; [done | lia | apply Z.pow_pos_nonneg; lia].
Qed.

Lemma load8_store8_eq a v m : 0 <= v < 2 ^ 64 → load 8 a (store 8 a v m) = v.
Proof. intros H. rewrite load_store_eq. by apply Z.mod_small. Qed.

Lemma load4_store4_eq a v m : 0 <= v < 2 ^ 32 → load 4 a (store 4 a v m) = v.
Proof. intros H. rewrite load_store_eq. by apply Z.mod_small. Qed.

Lemma load2_store2_eq a v m : 0 <= v < 2 ^ 16 → load 2 a (store 2 a v m) = v.
Proof. intros H. rewrite load_store_eq. by apply Z.mod_small. Qed.

Lemma load8_range a m : 0 <= load 8 a m < 2 ^ 64.
Proof. apply (load_range 8). Qed.

Global Arguments load : simpl never.
Global Arguments store : simpl never.
Global Arguments wrap : simpl never.

(** ** Loops *)

Section WhileFacts.
Context {St R : Type} (body : St → St + R).

(** [run k s]: the state after [k] more turns, or the result if the loop
    left within them. *)
Fixpoint run (k : nat) (s : St) : St + R :=
  match k with
  | O => inl s
  | S k' => match body s with inl s' => run k' s' | inr r => inr r end
  end.

Lemma run_add j k s :
  run (j + k) s = match run j s with inl s' => run k s' | inr r => inr r end.
Proof.
  revert s. induction j as [|j IH]; intros s; [done|].
  simpl. destruct (body s); [apply IH | done].
Qed.

Lemma while_pow_run n s : while_pow body n s = run (2 ^ n) s.
Proof.
  revert s. induction n as [|n IH]; intros s.
  - simpl. by destruct (body s).
  - simpl while_pow. rewrite IH.
    replace (2 ^ S n)%nat with (2 ^ n + 2 ^ n)%nat by (simpl; lia).
    rewrite run_add. destruct (run (2 ^ n) s); [apply IH | done].
Qed.

Lemma while_fuel_run k s r :
  while_fuel body k s = Some r → ∀ j, (k <= j)%nat → run j s = inr r.
Proof.
  revert s. induction k as [|k IH]; intros s H j Hj; [done|].
  destruct j as [|j]; [lia|]. simpl in *.
  destruct (body s); [apply IH; [done | lia] | congruence].
Qed.

Lemma while_fuel_while k s r :
  while_fuel body k s = Some r → Z.of_nat k <= 2 ^ 64 → while body s = Some r.
Proof.
  intros H Hk. unfold while. rewrite while_pow_run.
  rewrite (while_fuel_run k s r H); [done|].
  apply Nat2Z.inj_le. rewrite Nat2Z.inj_pow. exact Hk.
Qed.

Lemma while_fuel_S k s :
  while_fuel body (S k) s
  = match body s with inl s' => while_fuel body k s' | inr r => Some r end.
Proof. done. Qed.

Lemma while_fuel_mono k k' s r :
  while_fuel body k s = Some r → (k <= k')%nat → while_fuel body k' s = Some r.
Proof.
  revert k' s. induction k as [|k IH]; intros k' s H Hk; [done|].
  destruct k' as [|k']; [lia|]. simpl in *.
  destruct (body s); [apply IH; [done | lia] | done].
Qed.

(** Invariant and variant: a loop whose every turn keeps [I] and lowers the
    measure leaves with the postcondition of its exit. *)
Lemma while_fuel_rule (I : St → Prop) (mu : St → nat) (Q : R → Prop) :
  (∀ s, I s → match body s with
              | inl s' => I s' ∧ (mu s' < mu s)%nat
              | inr r => Q r
              end) →
  ∀ s, I s → ∃ r, while_fuel body (S (mu s)) s = Some r ∧ Q r.
Proof.
  intros Hstep s. remember (mu s) as n eqn:Hn.
  assert (Hle : (mu s <= n)%nat) by lia. clear Hn.
  revert s Hle. induction n as [|n IH]; intros s Hle Hs.
  - specialize (Hstep s Hs). simpl. destruct (body s) as [s'|r].
    + lia.
    + eauto.
  - specialize (Hstep s Hs). simpl. simpl in IH. destruct (body s) as [s'|r].
    + destruct Hstep as [Hs' Hlt]. apply IH; [lia | done].
    + eauto.
Qed.

Lemma while_rule (I : St → Prop) (mu : St → nat) (Q : R → Prop) :
  (∀ s, I s → match body s with
              | inl s' => I s' ∧ (mu s' < mu s)%nat
              | inr r => Q r
              end) →
  ∀ s, I s → Z.of_nat (mu s) < 2 ^ 64 → ∃ r, while body s = Some r ∧ Q r.
Proof.
  intros Hstep s Hs Hmu.
  destruct (while_fuel_rule I mu Q Hstep s Hs) as (r & Hr & HQ).
  exists r. split; [|done]. eapply while_fuel_while; [exact Hr | lia].
Qed.
End WhileFacts.

(** Two steps of evaluation, as rewriting rules. *)
Lemma if_false_eq {X : Type} (a b : X) : (if false then a else b) = b.
Proof. done. Qed.

Lemma bind_Some_eq {X Y : Type} (x : X) (f : X → option Y) : (Some x ≫= f) = f x.
Proof. done. Qed.

(** ** The free-list allocator: what the memory holds

    The arena behind the descriptor is tiled by blocks, each with its header
    at its start; [(b, s, f)] is the block at address [b] of [s] bytes
    (header included), free when [f].  The free list threads the free blocks
    in address order. *)

Module FL.
Import FreeList.

Abbreviation blk := (Z * Z * bool)%type.

(** The blocks [bs] lie one after the other from [lo] to [hi]. *)
Fixpoint tiled (lo hi : Z) (bs : list blk) : Prop :=
  match bs with
  | [] => lo = hi
  | (b, s, _) :: bs' => b = lo ∧ 24 <= s ∧ tiled (lo + s) hi bs'
  end.

Definition total (bs : list blk) : Z := foldr (λ x acc, x.1.2 + acc) 0 bs.

(** Address of the first free block of [bs], [tl] when it has none. *)
Fixpoint ff (bs : list blk) (tl : Z) : Z :=
  match bs with
  | [] => tl
  | (b, _, true) :: _ => b
  | (_, _, false) :: bs' => ff bs' tl
  end.

(** Address of the link that follows the free blocks of [bs], when the link
    before them is at [pp]: the [next] field of the last free block. *)
Fixpoint linkloc (pp : Z) (bs : list blk) : Z :=
  match bs with
  | [] => pp
  | (b, _, true) :: bs' => linkloc (bnext b) bs'
  | (_, _, false) :: bs' => linkloc pp bs'
  end.

(** The header at [b]: size [s], flag [f], and for a free block the link
    [nx]. *)
Definition hdr_at (m : mem) (b s : Z) (f : bool) (nx : Z) : Prop :=
  load 8 (bsize b) m = s ∧
  load 4 (bfree b) m = (if f then 1 else 0) ∧
  (f = true → load 8 (bnext b) m = nx).

(** Every block of [bs] has its header in memory, the free ones linked to
    the next free one, the last of them to [tl]. *)
Fixpoint hdrs (m : mem) (bs : list blk) (tl : Z) : Prop :=
  match bs with
  | [] => True
  | (b, s, f) :: bs' => hdr_at m b s f (ff bs' tl) ∧ hdrs m bs' tl
  end.

(** The allocator at [a] over an arena of [size] bytes holds the blocks
    [bs]. *)
Record inv (m : mem) (a size : Z) (bs : list blk) : Prop := {
  inv_pos : 0 < a;
  inv_end : a + size <= 2 ^ 64;
  inv_base : load 8 (base_of a) m = a;
  inv_size : load 8 (size_of a) m = size;
  inv_tiled : tiled (a + 24) (a + size) bs;
  inv_head : load 8 (free_list_of a) m = ff bs 0;
  inv_hdrs : hdrs m bs 0
}.

(** The free blocks [(address, size)] of [bs], in order. *)
Definition frees (bs : list blk) : list (Z * Z) :=
  omap (λ x : blk, if x.2 then Some (x.1.1, x.1.2) else None) bs.

(** The live blocks [(address, size)] of [bs], in order. *)
Definition lives (bs : list blk) : list (Z * Z) :=
  omap (λ x : blk, if x.2 then None else Some (x.1.1, x.1.2)) bs.

Definition sum_sizes (l : list (Z * Z)) : Z := foldr (λ x acc, x.2 + acc) 0 l.

(** Basic facts on tilings. *)

Lemma tiled_app lo hi l1 l2 :
  tiled lo hi (l1 ++ l2) ↔ tiled lo (lo + total l1) l1 ∧ tiled (lo + total l1) hi l2.
Proof.
  revert lo. induction l1 as [|[[b s] f] l1 IH]; intros lo; simpl.
  - rewrite Z.add_0_r. naive_solver.
  - rewrite IH. rewrite Z.add_assoc. naive_solver.
Qed.

Lemma tiled_total lo hi bs : tiled lo hi bs → hi = lo + total bs.
Proof.
  revert lo. induction bs as [|[[b s] f] bs IH]; intros lo; simpl.
  - lia.
  - intros (_ & _ & H). apply IH in H. lia.
Qed.

Lemma total_nonneg lo hi bs : tiled lo hi bs → 24 * Z.of_nat (length bs) <= total bs.
Proof.
  revert lo. induction bs as [|[[b s] f] bs IH]; intros lo; simpl.
  - lia.
  - intros (_ & ? & H). apply IH in H. lia.
Qed.

Lemma tiled_le lo hi bs : tiled lo hi bs → lo <= hi.
Proof.
  intros H. pose proof (tiled_total _ _ _ H). pose proof (total_nonneg _ _ _ H). lia.
Qed.

Lemma tiled_Forall lo hi bs :
  tiled lo hi bs → Forall (λ x : blk, lo <= x.1.1 ∧ 24 <= x.1.2 ∧ x.1.1 + x.1.2 <= hi) bs.
Proof.
  revert lo. induction bs as [|[[b s] f] bs IH]; intros lo; simpl; [constructor|].
  intros (-> & Hs & H). constructor.
  - simpl. apply tiled_le in H as ?. lia.
  - eapply Forall_impl; [apply IH, H|]. simpl. intros x. lia.
Qed.

Lemma total_app l1 l2 : total (l1 ++ l2) = total l1 + total l2.
Proof. induction l1 as [|x l1 IH]; simpl; lia. Qed.

Lemma ff_app l1 l2 tl : ff (l1 ++ l2) tl = ff l1 (ff l2 tl).
Proof. induction l1 as [|[[b s] [|]] l1 IH]; simpl; auto. Qed.

Lemma linkloc_app pp l1 l2 : linkloc pp (l1 ++ l2) = linkloc (linkloc pp l1) l2.
Proof. revert pp. induction l1 as [|[[b s] [|]] l1 IH]; intros pp; simpl; auto. Qed.

Lemma hdrs_app m l1 l2 tl :
  hdrs m (l1 ++ l2) tl ↔ hdrs m l1 (ff l2 tl) ∧ hdrs m l2 tl.
Proof.
  induction l1 as [|[[b s] f] l1 IH]; simpl.
  - naive_solver.
  - rewrite IH, ff_app. naive_solver.
Qed.

(** The first free block of a tiling is inside it. *)
Lemma ff_bounds lo hi bs tl :
  tiled lo hi bs → ff bs tl = tl ∨ (lo <= ff bs tl ∧ ff bs tl + 24 <= hi).
Proof.
  revert lo. induction bs as [|[[b s] [|]] bs IH]; intros lo; simpl; auto.
  - intros (-> & Hs & H). apply tiled_le in H. right. lia.
  - intros (-> & Hs & H). destruct (IH _ H) as [?|?]; [auto|]. right. lia.
Qed.

(** With no free block in [bs], the link and the first free block are the
    ones before and after it. *)
Definition all_live (bs : list blk) : Prop := Forall (λ x : blk, x.2 = false) bs.

Global Instance all_live_dec bs : Decision (all_live bs).
Proof. unfold all_live. apply _. Defined.

Lemma ff_all_live bs tl : all_live bs → ff bs tl = tl.
Proof. induction 1 as [|[[b s] f] bs Hf _ IH]; simpl in *; subst; auto. Qed.

Lemma linkloc_all_live pp bs : all_live bs → linkloc pp bs = pp.
Proof. induction 1 as [|[[b s] f] bs Hf _ IH]; simpl in *; subst; auto. Qed.

Lemma hdrs_all_live m bs tl tl' : all_live bs → hdrs m bs tl → hdrs m bs tl'.
Proof.
  induction 1 as [|[[b s] f] bs Hf _ IH]; simpl in *; subst; auto.
  unfold hdr_at. naive_solver.
Qed.

(** Otherwise neither depends on them, and the link is in the tiling. *)
Lemma some_free lo hi bs :
  tiled lo hi bs → ¬ all_live bs →
  (∀ tl tl', ff bs tl = ff bs tl') ∧
  (∀ pp pp', linkloc pp bs = linkloc pp' bs) ∧
  (∀ pp, lo + 8 <= linkloc pp bs ∧ linkloc pp bs + 16 <= hi) ∧
  (∀ tl, lo <= ff bs tl ∧ ff bs tl + 24 <= hi).
Proof.
  revert lo. induction bs as [|[[b s] [|]] bs IH]; intros lo Ht Hn.
  - destruct Hn. constructor.
  - simpl in Ht. destruct Ht as (-> & Hs & Ht).
    pose proof (tiled_le _ _ _ Ht) as Hle.
    destruct (decide (all_live bs)) as [Hl|Hl].
    + simpl. split; [done|]. split.
      { intros. by rewrite !linkloc_all_live. }
      split; [|intros; lia].
      intros. rewrite linkloc_all_live by done. unfold bnext. lia.
    + destruct (IH _ Ht Hl) as (H1 & H2 & H3 & H4). simpl.
      split; [done|]. split; [intros; apply H2|]. split; [|intros; lia].
      intros pp. specialize (H3 (bnext lo)). lia.
  - simpl in Ht. destruct Ht as (-> & Hs & Ht).
    assert (Hl : ¬ all_live bs).
    { intros Hl. apply Hn. constructor; done. }
    destruct (IH _ Ht Hl) as (H1 & H2 & H3 & H4). simpl.
    split; [intros; apply H1|]. split; [intros; apply H2|]. split.
    + intros pp. specialize (H3 pp). lia.
    + intros tl. specialize (H4 tl). lia.
Qed.

(** Stores away from the headers of [bs] leave them as they are. *)

Lemma hdr_at_store m b s f nx w x v :
  x + Z.of_nat w <= b ∨ b + 24 <= x →
  hdr_at m b s f nx → hdr_at (store w x v m) b s f nx.
Proof.
  intros Hd (H1 & H2 & H3). unfold hdr_at, bsize, bfree, bnext in *.
  rewrite !load_store_ne by lia. done.
Qed.

Lemma hdrs_store m bs tl w x v :
  Forall (λ y : blk, x + Z.of_nat w <= y.1.1 ∨ y.1.1 + 24 <= x) bs →
  hdrs m bs tl → hdrs (store w x v m) bs tl.
Proof.
  induction 1 as [|[[b s] f] bs Hb _ IH]; simpl; [done|].
  intros [H1 H2]. split; [by apply hdr_at_store | by apply IH].
Qed.

Lemma hdrs_store_out lo hi m bs tl w x v :
  tiled lo hi bs → x + Z.of_nat w <= lo ∨ hi <= x →
  hdrs m bs tl → hdrs (store w x v m) bs tl.
Proof.
  intros Ht Hd. apply hdrs_store.
  eapply Forall_impl; [apply (tiled_Forall _ _ _ Ht)|]. simpl. intros x0. lia.
Qed.

Lemma linkloc_bounds lo hi bs pp0 :
  tiled lo hi bs →
  (all_live bs ∧ linkloc pp0 bs = pp0) ∨
  (¬ all_live bs ∧ lo + 8 <= linkloc pp0 bs ∧ linkloc pp0 bs + 16 <= hi).
Proof.
  intros Ht. destruct (decide (all_live bs)) as [Hl|Hl].
  - left. split; [done | by apply linkloc_all_live].
  - right. split; [done|]. apply (some_free _ _ _ Ht Hl).
Qed.

(** Writing the link that follows the free blocks of [bs] changes what the
    last of them points to, and nothing else. *)
Lemma hdrs_relink lo hi m bs tl pp0 v :
  tiled lo hi bs → pp0 + 8 <= lo → 0 <= v < 2 ^ 64 →
  hdrs m bs tl → hdrs (store 8 (linkloc pp0 bs) v m) bs v.
Proof.
  revert lo pp0. induction bs as [|[[b s] f] bs IH]; intros lo pp0 Ht Hpp Hv; [done|].
  simpl in Ht. destruct Ht as (-> & Hs & Ht). simpl hdrs. intros [Hb Hh].
  destruct f; simpl linkloc.
  - split; [|apply (IH (lo + s)); [done | unfold bnext; lia | done | done]].
    destruct Hb as (H1 & H2 & H3). specialize (H3 eq_refl).
    destruct (linkloc_bounds _ _ _ (bnext lo) Ht) as [[Hl Hk]|(Hl & Hk)].
    + rewrite Hk, (ff_all_live _ v) by done.
      rewrite (ff_all_live _ tl) in H3 by done.
      unfold hdr_at, bsize, bfree, bnext in *.
      rewrite !load_store_ne by lia. rewrite load8_store8_eq by done. done.
    + destruct (some_free _ _ _ Ht Hl) as (Hff & _).
      rewrite (Hff v tl).
      apply hdr_at_store; [lia | done].
  - split; [|apply (IH (lo + s)); [done | lia | done | done]].
    destruct (linkloc_bounds _ _ _ pp0 Ht) as [[Hl Hk]|(Hl & Hk)].
    + rewrite Hk. apply hdr_at_store; [lia|].
      destruct Hb as (H1 & H2 & H3). split; [done|]. split; [done|]. done.
    + apply hdr_at_store; [lia|].
      destruct Hb as (H1 & H2 & H3). split; [done|]. split; [done|]. done.
Qed.

(** *** [allocator_alloc]: the search *)

(** No free block of [bs] has [need] bytes. *)
Definition small (need : Z) (bs : list blk) : Prop :=
  Forall (λ x : blk, x.2 = true → x.1.2 < need) bs.

Lemma alloc_search m need lo hi pre b pp0 :
  tiled lo hi pre → 0 < lo → small need pre → hdrs m pre b → b ≠ 0 →
  load 4 (bfree b) m ≠ 0 → need <= load 8 (bsize b) m →
  while_fuel (alloc_body m need) (S (length pre)) (pp0, ff pre b)
  = Some (alloc_take m (linkloc pp0 pre) b need).
Proof.
  intros Ht Hlo Hsm Hh Hb Hf Hn.
  revert lo pp0 Ht Hlo Hsm Hh.
  induction pre as [|[[p s] f] pre IH]; intros lo pp0 Ht Hlo Hsm Hh.
  - simpl. rewrite (proj2 (Z.eqb_neq _ _) Hb).
    rewrite (proj2 (Z.eqb_neq _ _) Hf). simpl.
    rewrite (proj2 (Z.leb_le _ _) Hn). done.
  - simpl in Ht. destruct Ht as (-> & Hs & Ht).
    apply Forall_cons in Hsm as [Hp Hsm]. simpl in Hp.
    simpl in Hh. destruct Hh as [(H1 & H2 & H3) Hh].
    destruct f.
    + specialize (Hp eq_refl). specialize (H3 eq_refl).
      change (length ((lo, s, true) :: pre)) with (S (length pre)).
      simpl ff. simpl linkloc.
      rewrite <- (IH (lo + s) (bnext lo)) by (done || lia).
      change (while_fuel ?b (S (S ?n)) ?st) with
        (match b st with inl s' => while_fuel b (S n) s' | inr r => Some r end).
      unfold alloc_body at 1.
      rewrite (proj2 (Z.eqb_neq lo 0)) by lia.
      rewrite H1, H2. simpl.
      rewrite (proj2 (Z.leb_gt _ _)) by lia.
      rewrite H3. done.
    + simpl ff. simpl linkloc.
      apply (while_fuel_mono _ (S (length pre))); [|simpl; lia].
      apply (IH (lo + s) pp0); (done || lia).
Qed.

Lemma alloc_search_none m need lo hi bs pp0 :
  tiled lo hi bs → 0 < lo → small need bs → hdrs m bs 0 →
  while_fuel (alloc_body m need) (S (length bs)) (pp0, ff bs 0) = Some (0, m).
Proof.
  revert lo pp0.
  induction bs as [|[[p s] f] bs IH]; intros lo pp0 Ht Hlo Hsm Hh; [done|].
  simpl in Ht. destruct Ht as (-> & Hs & Ht).
  apply Forall_cons in Hsm as [Hp Hsm]. simpl in Hp.
  simpl in Hh. destruct Hh as [(H1 & H2 & H3) Hh].
  destruct f.
  - specialize (Hp eq_refl). specialize (H3 eq_refl).
    change (length ((lo, s, true) :: bs)) with (S (length bs)).
    simpl ff.
    rewrite <- (IH (lo + s) (bnext lo)) by (done || lia).
    change (while_fuel ?b (S (S ?n)) ?st) with
      (match b st with inl s' => while_fuel b (S n) s' | inr r => Some r end).
    unfold alloc_body at 1.
    rewrite (proj2 (Z.eqb_neq lo 0)) by lia.
    rewrite H1, H2. simpl.
    rewrite (proj2 (Z.leb_gt _ _)) by lia.
    rewrite H3. done.
  - simpl ff.
    apply (while_fuel_mono _ (S (length bs))); [|simpl; lia].
    apply (IH (lo + s) pp0); (done || lia).
Qed.

(** *** [allocator_alloc]: taking the block found *)

Ltac ldst1 :=
  match goal with
  | |- context [load ?n ?a (store ?n' ?a' ?v ?m)] =>
      first [ rewrite (load_store_ne n a n' a' v m) by lia
            | rewrite (load8_store8_eq a v m) by lia
            | rewrite (load4_store4_eq a v m) by lia
            | rewrite (load2_store2_eq a v m) by lia ]
  end.
Ltac ldst := repeat ldst1.

(** What becomes of the free block [(b, s)] when [need] bytes are taken. *)
Definition taken (b s need : Z) : list blk :=
  if need + 40 <=? s
  then [(b, need, false); (b + need, s - need, true)]
  else [(b, s, false)].

(** The parts of the invariant around one block. *)
Lemma inv_split m a size pre x post :
  inv m a size (pre ++ x :: post) →
  let b := a + 24 + total pre in
  x.1.1 = b ∧ 24 <= x.1.2 ∧ 0 < a ∧ b + x.1.2 <= a + size ∧ a + size <= 2 ^ 64 ∧
  tiled (a + 24) b pre ∧ tiled (b + x.1.2) (a + size) post ∧
  hdrs m pre (ff (x :: post) 0) ∧ hdr_at m x.1.1 x.1.2 x.2 (ff post 0) ∧
  hdrs m post 0 ∧ load 8 (free_list_of a) m = ff pre (ff (x :: post) 0).
Proof.
  intros [H1 H2 H3 H4 H5 H6 H7] b. destruct x as [[xb xs] xf].
  apply tiled_app in H5 as [Hp Hq]. simpl in Hq. destruct Hq as (-> & Hs & Hq).
  apply hdrs_app in H7 as [Hh1 Hh2]. simpl in Hh2. destruct Hh2 as [Hh2 Hh3].
  rewrite ff_app in H6. pose proof (tiled_le _ _ _ Hq). simpl.
  split_and!; (done || lia).
Qed.

Lemma inv_join m a size pre x post :
  0 < a → a + size <= 2 ^ 64 →
  load 8 (base_of a) m = a → load 8 (size_of a) m = size →
  let b := a + 24 + total pre in
  x.1.1 = b → 24 <= x.1.2 →
  tiled (a + 24) b pre → tiled (b + x.1.2) (a + size) post →
  hdrs m pre (ff (x :: post) 0) → hdr_at m x.1.1 x.1.2 x.2 (ff post 0) →
  hdrs m post 0 → load 8 (free_list_of a) m = ff pre (ff (x :: post) 0) →
  inv m a size (pre ++ x :: post).
Proof.
  intros ???? b ????????. destruct x as [[xb xs] xf]. simpl in *.
  split; try done.
  - apply tiled_app. split; [done|]. simpl. done.
  - by rewrite ff_app.
  - apply hdrs_app. split; [done|]. simpl. done.
Qed.

Ltac fl_unfold :=
  unfold hdr_at, bsize, bnext, bfree, base_of, size_of, free_list_of in *.

Lemma alloc_take_inv m a size pre b s post need :
  inv m a size (pre ++ (b, s, true) :: post) →
  40 <= need → need <= s → need + 40 < 2 ^ 64 →
  ∃ m', alloc_take m (linkloc (free_list_of a) pre) b need = (b + 24, m') ∧
        inv m' a size (pre ++ taken b s need ++ post).
Proof.
  intros Hinv Hn40 Hns Hov.
  pose proof (inv_base _ _ _ _ Hinv) as Hbase.
  pose proof (inv_size _ _ _ _ Hinv) as Hsize.
  apply inv_split in Hinv. simpl in Hinv.
  destruct Hinv as (Hb & Hs & Ha & Hbs & Hend & Htp & Htq & Hhp & Hhb & Hhq & Hhd).
  destruct Hhb as (Hb1 & Hb2 & Hb3). specialize (Hb3 eq_refl).
  rewrite <- Hb in Htp, Htq, Hbs.
  pose proof (tiled_le _ _ _ Htp) as Hleb.
  pose proof (ff_bounds _ _ _ 0 Htq) as Hffq.
  assert (Hffq' : 0 <= ff post 0 < 2 ^ 64) by lia.
  destruct (linkloc_bounds _ _ _ (free_list_of a) Htp) as [[Hl Hpp]|(Hl & Hpp)].
  - (* the link is the head of the list *)
    rewrite Hpp. pose proof (ff_all_live pre) as Hff.
    rewrite Hff in Hhd by done.
    unfold alloc_take, split_block, sizeof_block_header. fl_unfold.
    rewrite Hb1.
    rewrite (wrap_small (need + 24)) by lia. rewrite (wrap_small (need + 24 + 16)) by lia.
    unfold taken. replace (need + 24 + 16) with (need + 40) by lia.
    destruct (need + 40 <=? s) eqn:Hsp.
    + apply Z.leb_le in Hsp. rewrite (wrap_small (s - need)) by lia.
      eexists. split; [reflexivity|].
      change (pre ++ [(b, need, false); (b + need, s - need, true)] ++ post)
        with (pre ++ (b, need, false) :: ((b + need, s - need, true) :: post)).
      apply inv_join; simpl; rewrite <- ?Hb; fl_unfold; rewrite ?Hff by done.
      * done.
      * done.
      * ldst. done.
      * ldst. done.
      * lia.
      * lia.
      * done.
      * split; [lia|]. split; [lia|].
        replace (b + need + (s - need)) with (b + s) by lia. done.
      * apply (hdrs_all_live _ _ b); [done|].
        do 8 (apply (hdrs_store_out (a + 24) b); [done | lia |]). done.
      * split; [ldst; done|]. split; [ldst; done | done].
      * split.
        { split; [ldst; done|]. split; [ldst; done|]. intros _. ldst. done. }
        do 8 (apply (hdrs_store_out (b + s) (a + size)); [done | lia |]). done.
      * ldst. done.
    + apply Z.leb_gt in Hsp.
      eexists. split; [reflexivity|].
      change (pre ++ [(b, s, false)] ++ post) with (pre ++ (b, s, false) :: post).
      apply inv_join; simpl; rewrite <- ?Hb; fl_unfold; rewrite ?Hff by done.
      * done.
      * done.
      * ldst. done.
      * ldst. done.
      * lia.
      * lia.
      * done.
      * done.
      * apply (hdrs_all_live _ _ b); [done|].
        do 3 (apply (hdrs_store_out (a + 24) b); [done | lia |]). done.
      * split; [ldst; done|]. split; [ldst; done | done].
      * do 3 (apply (hdrs_store_out (b + s) (a + size)); [done | lia |]). done.
      * ldst. done.
  - (* the link is the [next] of a free block before [b] *)
    destruct (some_free _ _ _ Htp Hl) as (Hff & _).
    remember (linkloc (free_list_of a) pre) as pp eqn:Hppeq.
    unfold alloc_take, split_block, sizeof_block_header. fl_unfold.
    rewrite Hb1.
    rewrite (wrap_small (need + 24)) by lia. rewrite (wrap_small (need + 24 + 16)) by lia.
    unfold taken. replace (need + 24 + 16) with (need + 40) by lia.
    destruct (need + 40 <=? s) eqn:Hsp.
    + apply Z.leb_le in Hsp. rewrite (wrap_small (s - need)) by lia.
      eexists. split; [reflexivity|].
      change (pre ++ [(b, need, false); (b + need, s - need, true)] ++ post)
        with (pre ++ (b, need, false) :: ((b + need, s - need, true) :: post)).
      apply inv_join; simpl; rewrite <- ?Hb; fl_unfold.
      * done.
      * done.
      * ldst. done.
      * ldst. done.
      * lia.
      * lia.
      * done.
      * split; [lia|]. split; [lia|].
        replace (b + need + (s - need)) with (b + s) by lia. done.
      * apply (hdrs_store_out (a + 24) b); [done | lia |].
        replace (load 8 (b + 8) _) with (b + need) by (ldst; done).
        rewrite Hppeq.
        apply (hdrs_relink (a + 24) b) with (tl := b); [done | lia | lia |].
        do 6 (apply (hdrs_store_out (a + 24) b); [done | lia |]). done.
      * split; [ldst; done|]. split; [ldst; done | done].
      * split.
        { split; [ldst; done|]. split; [ldst; done|]. intros _. ldst. done. }
        do 8 (apply (hdrs_store_out (b + s) (a + size)); [done | lia |]). done.
      * rewrite (Hff _ b), <- Hhd. ldst. done.
    + apply Z.leb_gt in Hsp.
      eexists. split; [reflexivity|].
      change (pre ++ [(b, s, false)] ++ post) with (pre ++ (b, s, false) :: post).
      apply inv_join; simpl; rewrite <- ?Hb; fl_unfold.
      * done.
      * done.
      * ldst. done.
      * ldst. done.
      * lia.
      * lia.
      * done.
      * done.
      * apply (hdrs_store_out (a + 24) b); [done | lia |].
        replace (load 8 (b + 8) _) with (ff post 0) by (ldst; done).
        rewrite Hppeq.
        apply (hdrs_relink (a + 24) b) with (tl := b); [done | lia | lia |].
        apply (hdrs_store_out (a + 24) b); [done | lia |]. done.
      * split; [ldst; done|]. split; [ldst; done | done].
      * do 3 (apply (hdrs_store_out (b + s) (a + size)); [done | lia |]). done.
      * rewrite (Hff _ b), <- Hhd. ldst. done.
Qed.

(** *** [allocator_alloc] *)

(** The block size a request of [n] bytes asks for. *)
Definition need_of (n : Z) : Z :=
  wrap (align_up n alignof_max_align_t + sizeof_block_header).

(** The request size is such that no size computation of [allocator_alloc]
    and [split_block] wraps. *)
Definition size_ok (n : Z) : Prop := 0 <= n ∧ n + 79 < 2 ^ 64.

Lemma need_of_bounds n :
  0 < n → size_ok n →
  need_of n = align_up n 16 + 24 ∧ n + 24 <= need_of n < n + 40 ∧
  40 <= need_of n ∧ need_of n + 40 < 2 ^ 64 ∧ need_of n mod 8 = 0.
Proof.
  intros Hn [_ Hok]. unfold need_of, alignof_max_align_t, sizeof_block_header.
  destruct (align_up_16_bounds n) as [Hb Hm]; [lia | lia |].
  rewrite wrap_small by lia. split; [done|].
  assert (16 <= align_up n 16).
  { destruct (Z.eq_dec (align_up n 16) 0) as [E|E]; [lia|].
    pose proof (Z.mod_divide (align_up n 16) 16 ltac:(lia)) as [Hd _].
    destruct (Hd Hm) as [q Hq]. lia. }
  split; [lia|]. split; [lia|]. split; [lia|].
  pose proof (Z.mod_divide (align_up n 16) 16 ltac:(lia)) as [Hd _].
  destruct (Hd Hm) as [q Hq]. rewrite Hq.
  replace (q * 16 + 24) with ((2 * q + 3) * 8) by lia. apply Z.mod_mul. lia.
Qed.

(** First fit: either no free block is large enough, or there is a first
    one. *)
Lemma first_fit need (bs : list blk) :
  small need bs ∨
  ∃ pre b s post, bs = pre ++ (b, s, true) :: post ∧ small need pre ∧ need <= s.
Proof.
  induction bs as [|[[b s] f] bs IH].
  - left. constructor.
  - destruct f.
    + destruct (decide (need <= s)) as [Hs|Hs].
      * right. exists [], b, s, bs. split; [done|]. split; [constructor | done].
      * destruct IH as [IH|(pre & b' & s' & post & -> & Hp & Hs')].
        -- left. constructor; [simpl; lia | done].
        -- right. exists ((b, s, true) :: pre), b', s', post.
           split; [done|]. split; [|done]. constructor; [simpl; lia | done].
    + destruct IH as [IH|(pre & b' & s' & post & -> & Hp & Hs')].
      * left. constructor; [done | done].
      * right. exists ((b, s, false) :: pre), b', s', post.
        split; [done|]. split; [|done]. constructor; [done | done].
Qed.

Lemma inv_length m a size bs : inv m a size bs → Z.of_nat (S (length bs)) < 2 ^ 64.
Proof.
  intros H. pose proof (inv_tiled _ _ _ _ H) as Ht.
  pose proof (tiled_total _ _ _ Ht). pose proof (total_nonneg _ _ _ Ht).
  pose proof (inv_end _ _ _ _ H). pose proof (inv_pos _ _ _ _ H). lia.
Qed.

Lemma alloc_spec m a size bs n :
  inv m a size bs → 0 < n → size_ok n →
  (small (need_of n) bs ∧ allocator_alloc m a n = Some (0, m)) ∨
  (∃ pre b s post m',
      bs = pre ++ (b, s, true) :: post ∧ small (need_of n) pre ∧ need_of n <= s ∧
      allocator_alloc m a n = Some (b + 24, m') ∧
      inv m' a size (pre ++ taken b s (need_of n) ++ post)).
Proof.
  intros Hinv Hn Hok.
  destruct (need_of_bounds n Hn Hok) as (_ & _ & Hn40 & Hov & _).
  pose proof (inv_length _ _ _ _ Hinv) as Hlen.
  unfold allocator_alloc. rewrite (proj2 (Z.eqb_neq n 0)) by lia.
  fold (need_of n).
  destruct (first_fit (need_of n) bs) as [Hsm|(pre & b & s & post & -> & Hsm & Hs)].
  - left. split; [done|].
    rewrite (inv_head _ _ _ _ Hinv).
    eapply while_fuel_while; [|apply Z.lt_le_incl, Hlen].
    eapply (alloc_search_none _ _ (a + 24)); [apply Hinv | | done | apply Hinv].
    pose proof (inv_pos _ _ _ _ Hinv). lia.
  - right.
    destruct (alloc_take_inv _ _ _ _ _ _ _ _ Hinv Hn40 Hs Hov) as (m' & Htk & Hinv').
    exists pre, b, s, post, m'. split; [done|]. split; [done|]. split; [done|].
    split; [|done].
    pose proof (inv_pos _ _ _ _ Hinv) as Ha.
    apply inv_split in Hinv. simpl in Hinv.
    destruct Hinv as (Hb & _ & _ & Hbs & Hend & Htp & Htq & Hhp & Hhb & Hhq & Hhd).
    destruct Hhb as (Hb1 & Hb2 & Hb3).
    rewrite Hhd. simpl ff. rewrite <- Htk.
    pose proof (tiled_le _ _ _ Htp) as Hleb.
    eapply while_fuel_while.
    + eapply (alloc_search _ _ (a + 24)); [exact Htp | lia | done | done | lia | | ].
      * rewrite Hb2. done.
      * rewrite Hb1. done.
    + rewrite length_app, length_cons in Hlen. lia.
Qed.

(** *** The walk of the free list *)

Lemma walk_spec m lo hi bs acc :
  tiled lo hi bs → 0 < lo → hdrs m bs 0 →
  while_fuel (walk_body m) (S (length bs)) (acc, ff bs 0)
  = Some (reverse acc ++ frees bs).
Proof.
  revert lo acc.
  induction bs as [|[[p s] f] bs IH]; intros lo acc Ht Hlo Hh.
  - simpl. by rewrite app_nil_r.
  - simpl in Ht. destruct Ht as (-> & Hs & Ht).
    simpl in Hh. destruct Hh as [(H1 & H2 & H3) Hh].
    destruct f.
    + specialize (H3 eq_refl).
      change (length ((lo, s, true) :: bs)) with (S (length bs)).
      simpl ff.
      change (while_fuel ?b (S (S ?n)) ?st) with
        (match b st with inl s' => while_fuel b (S n) s' | inr r => Some r end).
      unfold walk_body at 1.
      rewrite (proj2 (Z.eqb_neq lo 0)) by lia.
      rewrite H1, H3.
      rewrite (IH (lo + s)) by (done || lia).
      rewrite reverse_cons, <- app_assoc. done.
    + simpl ff.
      replace (frees ((lo, s, false) :: bs)) with (frees bs) by done.
      apply (while_fuel_mono _ (S (length bs))); [|simpl; lia].
      apply (IH (lo + s)); (done || lia).
Qed.

Lemma free_blocks_spec m a size bs :
  inv m a size bs → free_blocks m a = Some (frees bs).
Proof.
  intros Hinv. unfold free_blocks. rewrite (inv_head _ _ _ _ Hinv).
  pose proof (inv_length _ _ _ _ Hinv) as Hlen.
  pose proof (inv_pos _ _ _ _ Hinv).
  eapply while_fuel_while; [|apply Z.lt_le_incl, Hlen].
  rewrite (walk_spec m (a + 24) (a + size) bs []); [done | apply Hinv | lia | apply Hinv].
Qed.

(** *** [allocator_free]: the place of the block in the list *)

Lemma insert_search m b lo pre tl pp0 :
  tiled lo b pre → 0 < lo → hdrs m pre tl → tl = 0 ∨ b <= tl →
  while_fuel (insert_body m b) (S (length pre)) (pp0, ff pre tl)
  = Some (linkloc pp0 pre, tl).
Proof.
  intros Ht Hlo Hh Htl. revert lo pp0 Ht Hlo Hh.
  induction pre as [|[[p s] f] pre IH]; intros lo pp0 Ht Hlo Hh.
  - simpl. destruct Htl as [->|Htl]; [done|].
    rewrite (proj2 (Z.ltb_ge tl b)) by lia. by rewrite andb_false_r.
  - simpl in Ht. destruct Ht as (-> & Hs & Ht).
    pose proof (tiled_le _ _ _ Ht) as Hle.
    simpl in Hh. destruct Hh as [(H1 & H2 & H3) Hh].
    destruct f.
    + specialize (H3 eq_refl).
      change (length ((lo, s, true) :: pre)) with (S (length pre)).
      simpl ff. simpl linkloc.
      rewrite <- (IH (lo + s) (bnext lo)) by (done || lia).
      change (while_fuel ?bd (S (S ?n)) ?st) with
        (match bd st with inl s' => while_fuel bd (S n) s' | inr r => Some r end).
      unfold insert_body at 1.
      rewrite (proj2 (Z.eqb_neq lo 0)) by lia.
      rewrite (proj2 (Z.ltb_lt lo b)) by lia. simpl.
      rewrite H3. done.
    + simpl ff. simpl linkloc.
      apply (while_fuel_mono _ (S (length pre))); [|simpl; lia].
      apply (IH (lo + s) pp0); (done || lia).
Qed.

(** The block [b] is linked in at its place. *)
Lemma free_insert_inv m a size pre b s post :
  inv m a size (pre ++ (b, s, false) :: post) →
  inv (store 8 (linkloc (free_list_of a) pre) b
         (store 8 (bnext b) (ff post 0) (store 4 (bfree b) 1 m)))
      a size (pre ++ (b, s, true) :: post).
Proof.
  intros Hinv.
  pose proof (inv_base _ _ _ _ Hinv) as Hbase.
  pose proof (inv_size _ _ _ _ Hinv) as Hsize.
  apply inv_split in Hinv. simpl in Hinv.
  destruct Hinv as (Hb & Hs & Ha & Hbs & Hend & Htp & Htq & Hhp & Hhb & Hhq & Hhd).
  destruct Hhb as (Hb1 & Hb2 & _).
  rewrite <- Hb in Htp, Htq, Hbs.
  pose proof (tiled_le _ _ _ Htp) as Hleb.
  pose proof (ff_bounds _ _ _ 0 Htq) as Hffq.
  assert (Hffq' : 0 <= ff post 0 < 2 ^ 64) by lia.
  destruct (linkloc_bounds _ _ _ (free_list_of a) Htp) as [[Hl Hpp]|(Hl & Hpp)].
  - rewrite Hpp. pose proof (ff_all_live pre) as Hff.
    rewrite Hff in Hhd by done.
    apply inv_join; simpl; rewrite <- ?Hb; fl_unfold; rewrite ?Hff by done.
    + done.
    + done.
    + ldst. done.
    + ldst. done.
    + lia.
    + lia.
    + done.
    + done.
    + apply (hdrs_all_live _ _ (ff post 0)); [done|].
      do 3 (apply (hdrs_store_out (a + 24) b); [done | lia |]). done.
    + split; [ldst; done|]. split; [ldst; done|]. intros _. ldst. done.
    + do 3 (apply (hdrs_store_out (b + s) (a + size)); [done | lia |]). done.
    + ldst. done.
  - destruct (some_free _ _ _ Htp Hl) as (Hff & _).
    remember (linkloc (free_list_of a) pre) as pp eqn:Hppeq.
    apply inv_join; simpl; rewrite <- ?Hb; fl_unfold.
    + done.
    + done.
    + ldst. done.
    + ldst. done.
    + lia.
    + lia.
    + done.
    + done.
    + rewrite Hppeq.
      apply (hdrs_relink (a + 24) b) with (tl := ff post 0); [done | lia | lia |].
      do 2 (apply (hdrs_store_out (a + 24) b); [done | lia |]). done.
    + split; [ldst; done|]. split; [ldst; done|]. intros _. ldst. done.
    + do 3 (apply (hdrs_store_out (b + s) (a + size)); [done | lia |]). done.
    + rewrite (Hff _ (ff post 0)), <- Hhd. ldst. done.
Qed.

(** *** [allocator_free]: merging with the block after *)

Definition merge_next (b s : Z) (post : list blk) : list blk :=
  match post with
  | (_, s2, true) :: post' => (b, s + s2, true) :: post'
  | _ => (b, s, true) :: post
  end.

Lemma coalesce_next_inv m a size pre b s post :
  inv m a size (pre ++ (b, s, true) :: post) →
  inv (coalesce_next m b) a size (pre ++ merge_next b s post).
Proof.
  intros Hinv0. pose proof Hinv0 as Hinv.
  pose proof (inv_base _ _ _ _ Hinv) as Hbase.
  pose proof (inv_size _ _ _ _ Hinv) as Hsize.
  apply inv_split in Hinv. simpl in Hinv.
  destruct Hinv as (Hb & Hs & Ha & Hbs & Hend & Htp & Htq & Hhp & Hhb & Hhq & Hhd).
  destruct Hhb as (Hb1 & Hb2 & Hb3). specialize (Hb3 eq_refl).
  rewrite <- Hb in Htp, Htq, Hbs.
  pose proof (tiled_le _ _ _ Htp) as Hleb.
  unfold coalesce_next. rewrite Hb3, Hb1.
  destruct post as [|[[b2 s2] f2] post'].
  - simpl. done.
  - simpl in Htq. destruct Htq as (-> & Hs2 & Htq).
    pose proof (tiled_le _ _ _ Htq) as Hle2.
    simpl in Hhq. destruct Hhq as [(Hc1 & Hc2 & Hc3) Hhq].
    destruct f2.
    + (* the next block is free: merged *)
      specialize (Hc3 eq_refl). simpl ff. simpl merge_next.
      rewrite (proj2 (Z.eqb_neq (b + s) 0)) by lia.
      rewrite Hc2, Hc1. simpl. rewrite Z.eqb_refl.
      rewrite (wrap_small (s + s2)) by lia.
      pose proof (ff_bounds _ _ _ 0 Htq) as Hffq.
      fl_unfold.
      replace (load 8 (b + 8) (store 8 b (s + s2) m)) with (b + s) by (ldst; done).
      replace (load 8 (b + s + 8) (store 8 b (s + s2) m)) with (ff post' 0)
        by (ldst; done).
      apply inv_join; simpl; rewrite <- ?Hb; fl_unfold.
      * done.
      * done.
      * ldst. done.
      * ldst. done.
      * lia.
      * lia.
      * done.
      * replace (b + (s + s2)) with (b + s + s2) by lia. done.
      * do 2 (apply (hdrs_store_out (a + 24) b); [done | lia |]). done.
      * split; [ldst; done|]. split; [ldst; done|]. intros _. ldst. done.
      * do 2 (apply (hdrs_store_out (b + s + s2) (a + size)); [done | lia |]). done.
      * ldst. done.
    + (* the next block is live: nothing to merge *)
      simpl ff. simpl merge_next.
      assert (Hsame : (if negb (ff post' 0 =? 0) && negb (load 4 (bfree (ff post' 0)) m =? 0)
                       then if b + s =? ff post' 0 then
                              store 8 (bnext b)
                                (load 8 (bnext (load 8 (bnext b)
                                   (store 8 (bsize b) (wrap (s + load 8 (bsize (ff post' 0)) m)) m)))
                                   (store 8 (bsize b) (wrap (s + load 8 (bsize (ff post' 0)) m)) m))
                                (store 8 (bsize b) (wrap (s + load 8 (bsize (ff post' 0)) m)) m)
                            else m
                       else m) = m).
      { destruct (negb (ff post' 0 =? 0) && _) eqn:E; [|done].
        apply andb_true_iff in E as [E _]. apply negb_true_iff, Z.eqb_neq in E.
        pose proof (ff_bounds _ _ _ 0 Htq) as Hffq.
        rewrite (proj2 (Z.eqb_neq (b + s) (ff post' 0))) by lia. done. }
      rewrite Hsame. done.
Qed.

(** *** [allocator_free]: merging with the block before *)

Definition merge_prev (pre : list blk) (b s : Z) : list blk :=
  match reverse pre with
  | (p, sp, true) :: rpre => reverse rpre ++ [(p, sp + s, true)]
  | _ => pre ++ [(b, s, true)]
  end.

(** The last block before [b] is free: the walk reaches it and merges. *)
Lemma prev_search_merge m b lo pre p sp :
  tiled lo p pre → 0 < lo → hdrs m (pre ++ [(p, sp, true)]) b →
  24 <= sp → p + sp = b →
  while_fuel (coalesce_prev_body m b) (S (length pre)) (ff pre p)
  = Some (store 8 (bnext p)
            (load 8 (bnext b) (store 8 (bsize p) (wrap (sp + load 8 (bsize b) m)) m))
            (store 8 (bsize p) (wrap (sp + load 8 (bsize b) m)) m)).
Proof.
  intros Ht Hlo Hh Hsp Hpb. revert lo Ht Hlo Hh.
  induction pre as [|[[q sq] f] pre IH]; intros lo Ht Hlo Hh.
  - simpl in Ht. subst lo. simpl in Hh. destruct Hh as [(H1 & H2 & H3) _].
    specialize (H3 eq_refl). simpl. unfold coalesce_prev_body.
    rewrite (proj2 (Z.eqb_neq p 0)) by lia.
    rewrite (proj2 (Z.eqb_neq p b)) by lia. simpl.
    rewrite H3, H1, Z.eqb_refl, (proj2 (Z.eqb_eq (p + sp) b)) by done. done.
  - simpl in Ht. destruct Ht as (-> & Hs & Ht).
    pose proof (tiled_le _ _ _ Ht) as Hle.
    simpl in Hh. destruct Hh as [(H1 & H2 & H3) Hh].
    destruct f.
    + specialize (H3 eq_refl).
      change (length ((lo, sq, true) :: pre)) with (S (length pre)).
      simpl ff.
      rewrite <- (IH (lo + sq)) by (done || lia).
      change (while_fuel ?bd (S (S ?n)) ?st) with
        (match bd st with inl s' => while_fuel bd (S n) s' | inr r => Some r end).
      unfold coalesce_prev_body at 1.
      rewrite (proj2 (Z.eqb_neq lo 0)) by lia.
      rewrite (proj2 (Z.eqb_neq lo b)) by lia. simpl.
      rewrite H3, ff_app. simpl ff.
      destruct (ff_bounds _ _ _ p Ht) as [E|E].
      * rewrite E. rewrite (proj2 (Z.eqb_neq p b)) by lia. done.
      * rewrite (proj2 (Z.eqb_neq (ff pre p) b)) by lia. done.
    + simpl ff.
      apply (while_fuel_mono _ (S (length pre))); [|simpl; lia].
      apply (IH (lo + sq)); (done || lia).
Qed.

(** No block before [b], or a live one: the walk changes nothing. *)
Definition ends_live (pre : list blk) : Prop :=
  match reverse pre with
  | (_, _, true) :: _ => False
  | _ => True
  end.

Lemma ends_live_cons x y pre : ends_live (x :: y :: pre) ↔ ends_live (y :: pre).
Proof.
  unfold ends_live. rewrite (reverse_cons _ x).
  destruct (reverse (y :: pre)) as [|[[? ?] ?] r] eqn:E; [|done].
  apply (f_equal length) in E. rewrite length_reverse in E. done.
Qed.

Lemma prev_search_none m b lo pre :
  tiled lo b pre → 0 < lo → hdrs m pre b → ends_live pre →
  while_fuel (coalesce_prev_body m b) (S (length pre)) (ff pre b) = Some m.
Proof.
  revert lo. induction pre as [|[[q sq] f] pre IH]; intros lo Ht Hlo Hh He.
  - simpl. unfold coalesce_prev_body. rewrite Z.eqb_refl. simpl. by rewrite andb_false_r.
  - simpl in Ht. destruct Ht as (-> & Hs & Ht).
    pose proof (tiled_le _ _ _ Ht) as Hle.
    simpl in Hh. destruct Hh as [(H1 & H2 & H3) Hh].
    destruct pre as [|y pre].
    + destruct f; [done|]. simpl. unfold coalesce_prev_body.
      rewrite Z.eqb_refl. simpl. by rewrite andb_false_r.
    + apply ends_live_cons in He.
      destruct f.
      * specialize (H3 eq_refl).
        change (length ((lo, sq, true) :: y :: pre)) with (S (length (y :: pre))).
        simpl ff.
        rewrite <- (IH (lo + sq)) by (done || lia).
        change (while_fuel ?bd (S (S ?n)) ?st) with
          (match bd st with inl s' => while_fuel bd (S n) s' | inr r => Some r end).
        unfold coalesce_prev_body at 1.
        rewrite (proj2 (Z.eqb_neq lo 0)) by lia.
        rewrite (proj2 (Z.eqb_neq lo b)) by lia. simpl.
        rewrite H3, H1.
        assert (lo + sq + 24 <= b).
        { destruct y as [[yb ys] yf]. simpl in Ht.
          destruct Ht as (_ & ? & Ht). apply tiled_le in Ht. lia. }
        rewrite (proj2 (Z.eqb_neq (lo + sq) b)) by lia.
        rewrite andb_false_r. done.
      * change (ff ((lo, sq, false) :: y :: pre) b) with (ff (y :: pre) b).
        apply (while_fuel_mono _ (S (length (y :: pre)))); [|simpl; lia].
        apply (IH (lo + sq)); (done || lia).
Qed.

Lemma ends_free_snoc (pre : list blk) :
  ¬ ends_live pre → ∃ pre' p sp, pre = pre' ++ [(p, sp, true)].
Proof.
  unfold ends_live. intros H.
  destruct (reverse pre) as [|[[p sp] [|]] r] eqn:E; try (destruct H; done).
  exists (reverse r), p, sp.
  rewrite <- (reverse_involutive pre), E, reverse_cons. done.
Qed.

Global Instance ends_live_dec pre : Decision (ends_live pre).
Proof. unfold ends_live. destruct (reverse pre) as [|[[? ?] [|]] ?]; apply _. Defined.

Lemma merge_prev_live pre b s : ends_live pre → merge_prev pre b s = pre ++ [(b, s, true)].
Proof.
  unfold ends_live, merge_prev.
  destruct (reverse pre) as [|[[? ?] [|]] ?]; done.
Qed.

Lemma merge_prev_free pre p sp b s :
  merge_prev (pre ++ [(p, sp, true)]) b s = pre ++ [(p, sp + s, true)].
Proof. unfold merge_prev. rewrite reverse_snoc, reverse_involutive. done. Qed.

Lemma coalesce_prev_inv m a size pre b s post :
  inv m a size (pre ++ (b, s, true) :: post) →
  ∃ m', while (coalesce_prev_body m b) (load 8 (free_list_of a) m) = Some m' ∧
        inv m' a size (merge_prev pre b s ++ post).
Proof.
  intros Hinv0. pose proof Hinv0 as Hinv.
  pose proof (inv_length _ _ _ _ Hinv) as Hlen.
  rewrite length_app, length_cons in Hlen.
  pose proof (inv_base _ _ _ _ Hinv) as Hbase.
  pose proof (inv_size _ _ _ _ Hinv) as Hsize.
  apply inv_split in Hinv. simpl in Hinv.
  destruct Hinv as (Hb & Hs & Ha & Hbs & Hend & Htp & Htq & Hhp & Hhb & Hhq & Hhd).
  rewrite <- Hb in Htp, Htq, Hbs.
  destruct (decide (ends_live pre)) as [He|He].
  - exists m. rewrite merge_prev_live by done. rewrite <- app_assoc. split; [|done].
    rewrite Hhd.
    eapply while_fuel_while; [|shelve].
    apply (prev_search_none _ _ (a + 24)); [done | lia | done | done].
    Unshelve. lia.
  - destruct (ends_free_snoc _ He) as (pre' & p & sp & ->).
    rewrite merge_prev_free, <- app_assoc. simpl.
    apply tiled_app in Htp as [Htp' Htl]. simpl in Htl.
    destruct Htl as (Hp & Hsp & Hpb).
    set (p0 := a + 24 + total pre') in *.
    destruct Hhb as (Hb1 & Hb2 & Hb3). specialize (Hb3 eq_refl).
    pose proof (tiled_le _ _ _ Htp') as Hlep.
    apply hdrs_app in Hhp as Hhp'. destruct Hhp' as [Hhp' Hhpp]. simpl in Hhpp.
    destruct Hhpp as [(Hp1 & Hp2 & Hp3) _]. specialize (Hp3 eq_refl).
    pose proof (ff_bounds _ _ _ 0 Htq) as Hffq.
    eexists. split.
    + rewrite Hhd, ff_app. simpl ff.
      eapply while_fuel_while; [|shelve].
      apply (prev_search_merge _ _ (a + 24) pre' p sp); [by rewrite Hp | lia | done | done | lia].
      Unshelve. rewrite length_app in Hlen. lia.
    + rewrite Hb1, (wrap_small (sp + s)) by lia. fl_unfold.
      replace (load 8 (b + 8) (store 8 p (sp + s) m)) with (ff post 0) by (ldst; done).
      rewrite ff_app in Hhd. simpl in Hhd. simpl in Hhp'.
      apply inv_join; simpl; fold p0; rewrite <- ?Hp; fl_unfold.
      * done.
      * done.
      * ldst. done.
      * ldst. done.
      * done.
      * lia.
      * by rewrite Hp.
      * replace (p + (sp + s)) with (b + s) by lia. done.
      * do 2 (apply (hdrs_store_out (a + 24) p); [by rewrite Hp | lia |]). done.
      * split; [ldst; done|]. split; [ldst; done|]. intros _. ldst. done.
      * do 2 (apply (hdrs_store_out (b + s) (a + size)); [done | lia |]). done.
      * ldst. done.
Qed.

(** *** [allocator_free] *)

Definition next_size (s : Z) (post : list blk) : Z :=
  match post with (_, s2, true) :: _ => s + s2 | _ => s end.

Definition next_rest (post : list blk) : list blk :=
  match post with (_, _, true) :: post' => post' | _ => post end.

(** The blocks after [(b, s)], between [pre] and [post], was freed: merged
    with the block after it if that one is free, then with the block before
    it if that one is free. *)
Definition freed (pre : list blk) (b s : Z) (post : list blk) : list blk :=
  merge_prev pre b (next_size s post) ++ next_rest post.

Lemma merge_next_eq b s post :
  merge_next b s post = (b, next_size s post, true) :: next_rest post.
Proof. by destruct post as [|[[? ?] [|]] ?]. Qed.

Lemma free_spec m a size pre b s post :
  inv m a size (pre ++ (b, s, false) :: post) →
  ∃ m', allocator_free m a (b + 24) = Some m' ∧ inv m' a size (freed pre b s post).
Proof.
  intros Hinv0. pose proof Hinv0 as Hinv.
  pose proof (inv_length _ _ _ _ Hinv) as Hlen.
  rewrite length_app, length_cons in Hlen.
  apply inv_split in Hinv. simpl in Hinv.
  destruct Hinv as (Hb & Hs & Ha & Hbs & Hend & Htp & Htq & Hhp & Hhb & Hhq & Hhd).
  rewrite <- Hb in Htp, Htq, Hbs.
  pose proof (tiled_le _ _ _ Htp) as Hleb.
  pose proof (ff_bounds _ _ _ 0 Htq) as Hffq.
  unfold allocator_free, ptr_to_block, sizeof_block_header.
  rewrite (proj2 (Z.eqb_neq (b + 24) 0)) by lia.
  replace (b + 24 - 24) with b by lia.
  assert (Hins : while (insert_body (store 4 (bfree b) 1 m) b)
                   (free_list_of a, load 8 (free_list_of a) (store 4 (bfree b) 1 m))
                 = Some (linkloc (free_list_of a) pre, ff post 0)).
  { fl_unfold. rewrite load_store_ne by lia. rewrite Hhd.
    eapply while_fuel_while; [|shelve].
    apply (insert_search _ _ (a + 24)); [done | lia | | lia].
    apply (hdrs_store_out (a + 24) b); [done | lia | done].
    Unshelve. lia. }
  rewrite Hins.
  pose proof (free_insert_inv _ _ _ _ _ _ _ Hinv0) as H1.
  apply coalesce_next_inv in H1. rewrite merge_next_eq in H1.
  apply coalesce_prev_inv in H1 as (m' & Hw & H2).
  exists m'. split; [|done].
  fl_unfold. exact Hw.
Qed.

Lemma free_null m a : allocator_free m a 0 = Some m.
Proof. done. Qed.

(** *** [allocator_create] *)

Lemma create_inv m0 a size :
  0 < a → a + size <= 2 ^ 64 → 48 <= size →
  ∃ m, allocator_create m0 a size = (a, m) ∧ inv m a size [(a + 24, size - 24, true)].
Proof.
  intros Ha Hend Hsz. unfold allocator_create.
  change (align_up sizeof_Allocator alignof_block_header) with 24.
  fl_unfold.
  replace (load 8 a (store 8 (a + 8) size (store 8 a a m0))) with a by (ldst; done).
  rewrite (wrap_small (size - 24)) by lia.
  eexists. split; [reflexivity|].
  split; simpl; fl_unfold.
  - done.
  - done.
  - ldst. done.
  - ldst. done.
  - split; [done|]. split; [lia|]. lia.
  - ldst. done.
  - split; [|done]. split; [ldst; done|]. split; [ldst; done|]. intros _. ldst. done.
Qed.

(** *** Consequences of the invariant *)

(** Conservation: free and live block sizes add up to the arena size less
    the descriptor. *)
Lemma total_frees_lives bs : total bs = sum_sizes (frees bs) + sum_sizes (lives bs).
Proof.
  induction bs as [|[[b s] [|]] bs IH]; simpl; [done| |].
  - change (frees ((b, s, true) :: bs)) with ((b, s) :: frees bs).
    change (lives ((b, s, true) :: bs)) with (lives bs). simpl. lia.
  - change (frees ((b, s, false) :: bs)) with (frees bs).
    change (lives ((b, s, false) :: bs)) with ((b, s) :: lives bs). simpl. lia.
Qed.

Lemma inv_conservation m a size bs :
  inv m a size bs →
  sum_sizes (frees bs) + sum_sizes (lives bs) + sizeof_Allocator = size.
Proof.
  intros H. pose proof (tiled_total _ _ _ (inv_tiled _ _ _ _ H)).
  rewrite <- total_frees_lives. unfold sizeof_Allocator. lia.
Qed.

End FL.

(** ** The buddy allocator: what the memory holds

    [(b, k, f)] is the block at address [b] of order [k] ([2^k] bytes), on
    the free list of its order when [f], handed out otherwise.  The list of
    blocks is kept in an order that gives each free list its list order. *)

Module BD.
Import Buddy.

Abbreviation blk := (Z * Z * bool)%type.

(** The block at [b] of order [k] and the block [x] do not overlap. *)
Definition apart (b k : Z) (x : blk) : Prop :=
  b + 2 ^ k <= x.1.1 ∨ x.1.1 + 2 ^ x.1.2 <= b.

Fixpoint pw (l : list blk) : Prop :=
  match l with
  | [] => True
  | x :: l' => Forall (apart x.1.1 x.1.2) l' ∧ pw l'
  end.

(** A block of a valid order, inside [lo, hi), at a multiple of 16 from
    [lo]. *)
Definition okb (lo hi mx : Z) (b k : Z) : Prop :=
  4 <= k <= mx ∧ lo <= b ∧ b + 2 ^ k <= hi ∧ (b - lo) mod 16 = 0.

(** The free list of order [k], in list order. *)
Definition fl_of (bl : list blk) (k : Z) : list Z :=
  omap (λ x : blk, if x.2 && (x.1.2 =? k) then Some x.1.1 else None) bl.

(** The live blocks [(address, order)]. *)
Definition lives (bl : list blk) : list (Z * Z) :=
  omap (λ x : blk, if x.2 then None else Some x.1) bl.

(** The list that starts at link value [p] is [l]. *)
Fixpoint chain (m : mem) (p : Z) (l : list Z) : Prop :=
  match l with
  | [] => p = 0
  | b :: l' => p = b ∧ chain m (load 8 b m) l'
  end.

(** The allocator at [A] manages the blocks [bl], all inside [lo, hi), with
    orders up to [mx]. *)
Record inv (m : mem) (A lo hi mx : Z) (bl : list blk) : Prop := {
  inv_pos : 0 < A;
  inv_lo : A + 536 <= lo;
  inv_hi : hi <= 2 ^ 64;
  inv_base : load 8 (base_of A) m = A;
  inv_min : load_int (min_order_of A) m = 4;
  inv_max : load_int (max_order_of A) m = mx;
  inv_mx : 4 <= mx <= 20;
  inv_blocks : Forall (λ x : blk, okb lo hi mx x.1.1 x.1.2) bl;
  inv_pw : pw bl;
  inv_chains : ∀ k, 0 <= k < 64 → chain m (load 8 (free_lists_of A k) m) (fl_of bl k);
  inv_tags : Forall (λ x : blk, x.2 = false → load 2 x.1.1 m = x.1.2) bl;
  inv_lh : lo <= hi
}.

(** Powers of two. *)

Lemma pow2_pos k : 0 <= k → 0 < 2 ^ k.
Proof. intros. apply Z.pow_pos_nonneg; lia. Qed.

Lemma pow2_succ k : 0 <= k → 2 ^ (k + 1) = 2 * 2 ^ k.
Proof. intros. rewrite Z.pow_add_r by lia. lia. Qed.

Lemma pow2_ge16 k : 4 <= k → 16 <= 2 ^ k.
Proof. intros. change 16 with (2 ^ 4). apply Z.pow_le_mono_r; lia. Qed.

Lemma pow2_mod16 k : 4 <= k → 2 ^ k mod 16 = 0.
Proof.
  intros. replace k with (k - 4 + 4) by lia. rewrite Z.pow_add_r by lia.
  change (2 ^ 4) with 16. apply Z.mod_mul. lia.
Qed.

Lemma pow2_le k j : 0 <= k <= j → 2 ^ k <= 2 ^ j.
Proof. intros. apply Z.pow_le_mono_r; lia. Qed.

(** Non-overlap does not depend on the order of the list. *)

Lemma apart_sym (x y : blk) : apart x.1.1 x.1.2 y → apart y.1.1 y.1.2 x.
Proof. unfold apart. lia. Qed.

Lemma pw_perm l l' : l ≡ₚ l' → pw l → pw l'.
Proof.
  induction 1 as [|x l l' Hp IH|x y l|l l' l'' _ IH1 _ IH2]; simpl.
  - done.
  - intros [H1 H2]. split; [by rewrite <- Hp | by apply IH].
  - intros [H1 [H2 H3]]. apply Forall_cons in H1 as [H0 H1].
    split; [|done]. constructor; [|done]. by apply apart_sym.
  - auto.
Qed.

Lemma pw_middle l1 x l2 :
  pw (l1 ++ x :: l2) ↔ Forall (apart x.1.1 x.1.2) (l1 ++ l2) ∧ pw (l1 ++ l2).
Proof.
  split.
  - intros H. apply (pw_perm _ (x :: l1 ++ l2)) in H; [done|].
    by rewrite Permutation_middle.
  - intros H. apply (pw_perm (x :: l1 ++ l2)); [|done].
    by rewrite Permutation_middle.
Qed.

(** Free lists and the list of blocks. *)

Lemma fl_of_app l1 l2 k : fl_of (l1 ++ l2) k = fl_of l1 k ++ fl_of l2 k.
Proof. unfold fl_of. apply omap_app. Qed.

Lemma fl_of_cons_free b k l : fl_of ((b, k, true) :: l) k = b :: fl_of l k.
Proof. unfold fl_of. simpl. by rewrite Z.eqb_refl. Qed.

Lemma fl_of_cons_other b k f l j : f = false ∨ k ≠ j → fl_of ((b, k, f) :: l) j = fl_of l j.
Proof.
  intros H. unfold fl_of. simpl. destruct f; simpl; [|done].
  destruct H as [?|H]; [done|]. by rewrite (proj2 (Z.eqb_neq k j)).
Qed.

Lemma elem_of_fl_of b k bl : b ∈ fl_of bl k ↔ (b, k, true) ∈ bl.
Proof.
  unfold fl_of. rewrite list_elem_of_omap. split.
  - intros ([[b' k'] f] & Hin & Heq). simpl in Heq.
    destruct f; simpl in Heq; [|done].
    destruct (k' =? k) eqn:E; [|done]. apply Z.eqb_eq in E. by simplify_eq.
  - intros Hin. exists (b, k, true). split; [done|]. simpl. by rewrite Z.eqb_refl.
Qed.

(** The first occurrence of an address on a free list. *)
Lemma fl_of_split bl k l1 b l2 :
  fl_of bl k = l1 ++ b :: l2 →
  ∃ bl1 bl2, bl = bl1 ++ (b, k, true) :: bl2 ∧ fl_of bl1 k = l1 ∧ fl_of bl2 k = l2.
Proof.
  revert l1. induction bl as [|[[b' k'] f] bl IH]; intros l1 H.
  - by destruct l1.
  - destruct (decide (f = true ∧ k' = k)) as [[-> ->]|Hn].
    + rewrite fl_of_cons_free in H. destruct l1 as [|b1 l1]; simpl in H.
      * injection H as -> H. exists [], bl. done.
      * injection H as -> H.
        destruct (IH _ H) as (bl1 & bl2 & -> & <- & <-).
        exists ((b1, k, true) :: bl1), bl2. by rewrite fl_of_cons_free.
    + rewrite fl_of_cons_other in H by (destruct f; [right|left]; naive_solver).
      destruct (IH _ H) as (bl1 & bl2 & -> & <- & <-).
      exists ((b', k', f) :: bl1), bl2. split; [done|]. split; [|done].
      rewrite fl_of_cons_other by (destruct f; [right|left]; naive_solver). done.
Qed.

(** *** Linked lists in memory *)

Ltac ldst1 :=
  match goal with
  | |- context [load ?n ?a (store ?n' ?a' ?v ?m)] =>
      first [ rewrite (load_store_ne n a n' a' v m) by lia
            | rewrite (load8_store8_eq a v m) by lia
            | rewrite (load4_store4_eq a v m) by lia
            | rewrite (load2_store2_eq a v m) by lia ]
  end.
Ltac ldst := repeat ldst1.

(** The store of [w] bytes at [x] misses the nodes of [l]. *)
Definition away (x w : Z) (l : list Z) : Prop :=
  Forall (λ b, x + w <= b ∨ b + 8 <= x) l.

(** The nodes of [l] are pairwise 8 bytes apart. *)
Fixpoint sepl (l : list Z) : Prop :=
  match l with
  | [] => True
  | b :: l' => away b 8 l' ∧ sepl l'
  end.

Lemma chain_store m p l w x v :
  away x (Z.of_nat w) l → chain m p l → chain (store w x v m) p l.
Proof.
  intros Ha. revert p. induction Ha as [|b l Hb _ IH]; intros p; simpl; [done|].
  intros [-> Hc]. split; [done|]. rewrite load_store_ne by lia. by apply IH.
Qed.

Lemma chain_inj m p l l' : chain m p l → chain m p l' → Forall (λ b, b ≠ 0) l →
  Forall (λ b, b ≠ 0) l' → l = l'.
Proof.
  revert p l'. induction l as [|b l IH]; intros p [|b' l']; simpl.
  - done.
  - intros -> [<- _] _ H. apply Forall_cons in H as [? _]. done.
  - intros [<- _] -> H. apply Forall_cons in H as [? _]. done.
  - intros [-> H1] [<- H2] Hl Hl'.
    apply Forall_cons in Hl as [_ Hl]. apply Forall_cons in Hl' as [_ Hl'].
    f_equal. by eapply IH.
Qed.

Lemma away_app x w l1 l2 : away x w (l1 ++ l2) ↔ away x w l1 ∧ away x w l2.
Proof. apply Forall_app. Qed.

Lemma sepl_app l1 l2 :
  sepl (l1 ++ l2) ↔ sepl l1 ∧ sepl l2 ∧ Forall (λ b, away b 8 l2) l1.
Proof.
  induction l1 as [|b l1 IH]; simpl.
  - split; [intros; split_and!; done | intros (_ & ? & _); done].
  - rewrite IH, away_app, Forall_cons. tauto.
Qed.

(** The walk of a list reads it. *)
Lemma bd_walk_spec m l p acc :
  chain m p l → Forall (λ b, b ≠ 0) l →
  while_fuel (walk_body m) (S (length l)) (acc, p) = Some (reverse acc ++ l).
Proof.
  revert p acc. induction l as [|b l IH]; intros p acc; cbn [chain length].
  - intros -> _. rewrite while_fuel_S. simpl. by rewrite app_nil_r.
  - intros [-> Hc] Hnz. apply Forall_cons in Hnz as [Hb Hnz].
    rewrite while_fuel_S. unfold walk_body at 1.
    rewrite (proj2 (Z.eqb_neq b 0)) by done.
    rewrite (IH _ (b :: acc) Hc Hnz).
    rewrite reverse_cons, <- app_assoc. done.
Qed.

(** The buddy search finds a node exactly when it is on the list. *)
Lemma scan_spec m l p buddy :
  chain m p l → Forall (λ b, b ≠ 0) l →
  while_fuel (scan_body m buddy) (S (length l)) p
  = Some (if decide (buddy ∈ l) then 1 else 0).
Proof.
  revert p. induction l as [|b l IH]; intros p; cbn [chain length].
  - intros -> _. rewrite decide_False by apply not_elem_of_nil. done.
  - intros [-> Hc] Hnz. apply Forall_cons in Hnz as [Hb Hnz].
    rewrite while_fuel_S. unfold scan_body at 1.
    rewrite (proj2 (Z.eqb_neq b 0)) by done.
    destruct (Z.eqb_spec b buddy) as [->|Hne].
    + rewrite decide_True by apply list_elem_of_here. done.
    + rewrite (IH _ Hc Hnz).
      destruct (decide (buddy ∈ l)) as [Hin|Hin].
      * rewrite decide_True by (by apply list_elem_of_further). done.
      * rewrite decide_False; [done|]. rewrite elem_of_cons. naive_solver.
Qed.

(** The link before the node that follows [l1]: the last node of [l1], or
    the link [pp0] before [l1]. *)
Definition lastloc (pp0 : Z) (l1 : list Z) : Z := default pp0 (last l1).

Lemma lastloc_cons pp0 b l : lastloc pp0 (b :: l) = lastloc b l.
Proof.
  unfold lastloc. destruct l as [|b' l]; [done|].
  rewrite last_cons. destruct (last (b' :: l)) eqn:E; [done|].
  by apply last_None in E.
Qed.

Lemma lastloc_elem pp0 l : lastloc pp0 l = pp0 ∨ lastloc pp0 l ∈ l.
Proof.
  unfold lastloc. destruct (last l) eqn:E; [|by left].
  right. apply last_Some in E as [l' ->]. simpl.
  apply elem_of_app. right. apply list_elem_of_here.
Qed.

Lemma remove_search m n l1 l2 pp0 p :
  chain m p (l1 ++ n :: l2) → n ∉ l1 → Forall (λ b, b ≠ 0) (l1 ++ n :: l2) →
  while_fuel (list_remove_body m n) (S (length l1)) (pp0, p)
  = Some (1, store 8 (lastloc pp0 l1) (load 8 n m) m).
Proof.
  revert pp0 p. induction l1 as [|b l1 IH]; intros pp0 p; cbn [chain length app].
  - intros [-> _] _ Hnz. apply Forall_cons in Hnz as [Hn _].
    rewrite while_fuel_S. unfold list_remove_body.
    rewrite (proj2 (Z.eqb_neq n 0)) by done. rewrite Z.eqb_refl. done.
  - intros [-> Hc] Hni Hnz. apply Forall_cons in Hnz as [Hb Hnz].
    apply not_elem_of_cons in Hni as [Hne Hni].
    rewrite while_fuel_S. unfold list_remove_body at 1.
    rewrite (proj2 (Z.eqb_neq b 0)) by done.
    rewrite (proj2 (Z.eqb_neq b n)) by done.
    rewrite (IH b _ Hc Hni Hnz).
    by rewrite lastloc_cons.
Qed.

(** Unlinking a node of a list with distinct nodes. *)
Lemma remove_chain m n l1 l2 pp0 :
  chain m (load 8 pp0 m) (l1 ++ n :: l2) → sepl (l1 ++ n :: l2) →
  away pp0 8 (l1 ++ n :: l2) →
  Forall (λ b, 0 <= b < 2 ^ 64) (l1 ++ n :: l2) →
  let m' := store 8 (lastloc pp0 l1) (load 8 n m) m in
  chain m' (load 8 pp0 m') (l1 ++ l2).
Proof.
  revert pp0. induction l1 as [|b l1 IH]; intros pp0; simpl.
  - intros [Hp Hc] [Hs1 Hs2] Haw Hr. unfold lastloc. simpl.
    apply Forall_cons in Haw as [_ Haw].
    rewrite load8_store8_eq by apply load8_range.
    apply chain_store; [done|]. done.
  - intros [Hp Hc] [Hs1 Hs2] Haw Hr.
    apply Forall_cons in Haw as [Hb Haw]. apply Forall_cons in Hr as [Hbr Hr].
    rewrite lastloc_cons.
    specialize (IH b Hc Hs2 Hs1 Hr). simpl in IH.
    assert (Hll : pp0 + 8 <= lastloc b l1 ∨ lastloc b l1 + 8 <= pp0).
    { destruct (lastloc_elem b l1) as [->|Hin]; [lia|].
      apply away_app in Haw as [Haw _].
      unfold away in Haw. rewrite Forall_forall in Haw.
      specialize (Haw _ Hin). lia. }
    rewrite load_store_ne by lia. split; [done|]. exact IH.
Qed.

(** *** Stores and the invariant *)

Definition tagged (m : mem) (x : blk) : Prop := x.2 = false → load 2 x.1.1 m = x.1.2.

Lemma okb_nodes lo hi mx bl k :
  Forall (λ x : blk, okb lo hi mx x.1.1 x.1.2) bl →
  Forall (λ b, lo <= b ∧ b + 16 <= hi) (fl_of bl k).
Proof.
  intros H. apply Forall_forall. intros b Hb. apply elem_of_fl_of in Hb.
  rewrite Forall_forall in H. specialize (H _ Hb). simpl in H.
  destruct H as (Hk & Hlo & Hhi & _). pose proof (pow2_ge16 k). lia.
Qed.

Lemma desc_away lo hi mx bl k x w :
  Forall (λ x : blk, okb lo hi mx x.1.1 x.1.2) bl → x + w <= lo →
  away x w (fl_of bl k).
Proof.
  intros H Hx. eapply Forall_impl; [apply (okb_nodes _ _ _ _ k H)|].
  simpl. intros b. lia.
Qed.

Lemma apart_away lo hi mx bl k hb hk x w :
  Forall (λ x : blk, okb lo hi mx x.1.1 x.1.2) bl →
  Forall (apart hb hk) bl → hb <= x → x + w <= hb + 2 ^ hk →
  away x w (fl_of bl k).
Proof.
  intros H Ha Hx Hw. apply Forall_forall. intros b Hb. apply elem_of_fl_of in Hb.
  rewrite Forall_forall in H, Ha. specialize (H _ Hb). specialize (Ha _ Hb).
  unfold apart in Ha. simpl in *. destruct H as (Hk & _).
  pose proof (pow2_ge16 k). lia.
Qed.

Lemma okb_sepl lo hi mx bl k :
  Forall (λ x : blk, okb lo hi mx x.1.1 x.1.2) bl → pw bl → sepl (fl_of bl k).
Proof.
  induction bl as [|[[b k'] f] bl IH]; [done|].
  intros Hok [Hap Hpw]. apply Forall_cons in Hok as [Hb Hok].
  destruct (decide (f = true ∧ k' = k)) as [[-> ->]|Hn].
  - rewrite fl_of_cons_free. split; [|by apply IH].
    simpl in *. eapply apart_away; [done | done | lia |].
    destruct Hb as (Hk & _). pose proof (pow2_ge16 k). lia.
  - rewrite fl_of_cons_other by (destruct f; [right|left]; naive_solver).
    by apply IH.
Qed.

Lemma tagged_store m bl w x v :
  Forall (λ y : blk, x + Z.of_nat w <= y.1.1 ∨ y.1.1 + 2 <= x) bl →
  Forall (tagged m) bl → Forall (tagged (store w x v m)) bl.
Proof.
  intros Ha Ht. rewrite Forall_forall in Ha, Ht. apply Forall_forall.
  intros y Hy Hf. rewrite load_store_ne by (specialize (Ha _ Hy); lia).
  by apply Ht.
Qed.

Lemma okb_tag_away lo hi mx bl x w :
  Forall (λ x : blk, okb lo hi mx x.1.1 x.1.2) bl → x + w <= lo →
  Forall (λ y : blk, x + w <= y.1.1 ∨ y.1.1 + 2 <= x) bl.
Proof.
  intros H Hx. eapply Forall_impl; [apply H|]. simpl.
  intros y (_ & ? & _). lia.
Qed.

Lemma apart_tag_away lo hi mx bl hb hk x w :
  Forall (λ x : blk, okb lo hi mx x.1.1 x.1.2) bl →
  Forall (apart hb hk) bl → hb <= x → x + w <= hb + 2 ^ hk →
  Forall (λ y : blk, x + w <= y.1.1 ∨ y.1.1 + 2 <= x) bl.
Proof.
  intros H Ha Hx Hw. apply Forall_forall. intros y Hy.
  rewrite Forall_forall in H, Ha. specialize (H _ Hy). specialize (Ha _ Hy).
  unfold apart in Ha. simpl in *. destruct H as (Hk & _).
  pose proof (pow2_ge16 y.1.2). lia.
Qed.

Ltac bd_unfold :=
  unfold load_int, base_of, size_of, min_order_of, max_order_of, free_lists_of in *.

(** A store inside a block that is apart from all the others. *)
Lemma inv_store_held m A lo hi mx bl hb hk w x v :
  inv m A lo hi mx bl → Forall (apart hb hk) bl →
  lo <= hb → hb <= x → x + Z.of_nat w <= hb + 2 ^ hk →
  inv (store w x v m) A lo hi mx bl.
Proof.
  intros [H1 H2 H3 H4 H5 H6 H7 H8 H9 H10 H11 H12] Ha Hlo Hx Hw.
  split; try done; bd_unfold.
  - ldst. done.
  - ldst. done.
  - ldst. done.
  - intros k Hk. rewrite load_store_ne by lia.
    apply chain_store; [|by apply H10].
    by eapply apart_away.
  - apply tagged_store; [|done]. by eapply apart_tag_away.
Qed.

(** A store to the head of the free list of order [k]. *)
Lemma inv_store_head m A lo hi mx bl bl' k v :
  inv m A lo hi mx bl → 0 <= k < 64 → 0 <= v < 2 ^ 64 →
  Forall (λ x : blk, okb lo hi mx x.1.1 x.1.2) bl' → pw bl' →
  (∀ j, j ≠ k → fl_of bl' j = fl_of bl j) →
  chain m v (fl_of bl' k) → Forall (tagged m) bl' →
  inv (store 8 (free_lists_of A k) v m) A lo hi mx bl'.
Proof.
  intros [H1 H2 H3 H4 H5 H6 H7 H8 H9 H10 H11 H12] Hk Hv Hok Hpw Hfl Hc Ht.
  split; try done; bd_unfold.
  - ldst. done.
  - ldst. done.
  - ldst. done.
  - intros j Hj. destruct (decide (j = k)) as [->|Hne].
    + rewrite load8_store8_eq by done.
      apply chain_store; [|done]. eapply desc_away; [done|lia].
    + rewrite load_store_ne by lia. rewrite Hfl by done.
      apply chain_store; [|by apply H10].
      eapply desc_away; [done|lia].
  - apply tagged_store; [|done]. eapply okb_tag_away; [done|lia].
Qed.

(** *** [list_push], [list_pop], [list_remove] on the free lists *)

Lemma push_inv m A lo hi mx bl b k :
  inv m A lo hi mx bl → okb lo hi mx b k → Forall (apart b k) bl →
  inv (list_push m (free_lists_of A k) b) A lo hi mx ((b, k, true) :: bl).
Proof.
  intros Hinv Hb Ha. unfold list_push.
  pose proof Hb as (Hk & Hlo & Hhi & Hal).
  pose proof (inv_mx _ _ _ _ _ _ Hinv) as Hmx.
  pose proof (inv_hi _ _ _ _ _ _ Hinv) as Hhi2.
  pose proof (inv_lo _ _ _ _ _ _ Hinv) as Hlo2.
  pose proof (inv_pos _ _ _ _ _ _ Hinv) as HA.
  pose proof (pow2_ge16 k ltac:(lia)) as Hp.
  pose proof (inv_chains _ _ _ _ _ _ Hinv k ltac:(lia)) as Hck.
  set (old := load 8 (free_lists_of A k) m) in *.
  assert (Hinv1 : inv (store 8 b old m) A lo hi mx bl).
  { apply (inv_store_held _ _ _ _ _ _ b k); [done | done | lia | lia | lia]. }
  apply (inv_store_head _ _ _ _ _ bl); [done | lia | lia | | | | | ].
  - constructor; [done | apply Hinv].
  - split; [done | apply Hinv].
  - intros j Hj. by rewrite fl_of_cons_other by (right; done).
  - rewrite fl_of_cons_free. split; [done|].
    rewrite load8_store8_eq by apply load8_range.
    apply chain_store; [|done].
    eapply (apart_away _ _ _ _ _ b k); [apply Hinv | done | lia | lia].
  - constructor; [done | apply Hinv1].
Qed.

Lemma fl_of_middle_other bl1 b k f bl2 j :
  f = false ∨ k ≠ j → fl_of (bl1 ++ (b, k, f) :: bl2) j = fl_of (bl1 ++ bl2) j.
Proof. intros H. by rewrite !fl_of_app, fl_of_cons_other. Qed.

Lemma fl_of_middle_free bl1 b k bl2 :
  fl_of (bl1 ++ (b, k, true) :: bl2) k = fl_of bl1 k ++ b :: fl_of bl2 k.
Proof. by rewrite fl_of_app, fl_of_cons_free. Qed.

(** Taking a block out of the list of blocks. *)
Lemma inv_middle m A lo hi mx bl1 x bl2 :
  inv m A lo hi mx (bl1 ++ x :: bl2) →
  okb lo hi mx x.1.1 x.1.2 ∧ Forall (apart x.1.1 x.1.2) (bl1 ++ bl2) ∧
  Forall (λ x : blk, okb lo hi mx x.1.1 x.1.2) (bl1 ++ bl2) ∧ pw (bl1 ++ bl2) ∧
  Forall (tagged m) (bl1 ++ bl2) ∧ tagged m x.
Proof.
  intros Hinv.
  pose proof (inv_blocks _ _ _ _ _ _ Hinv) as Hok.
  pose proof (inv_pw _ _ _ _ _ _ Hinv) as Hpw.
  pose proof (inv_tags _ _ _ _ _ _ Hinv) as Ht.
  apply pw_middle in Hpw as [Ha Hpw].
  rewrite Forall_app, Forall_cons in Hok. rewrite Forall_app, Forall_cons in Ht.
  rewrite Forall_app in Ha. rewrite !Forall_app. unfold tagged. tauto.
Qed.

Lemma pop_inv m A lo hi mx bl k :
  inv m A lo hi mx bl → 0 <= k < 64 → load 8 (free_lists_of A k) m ≠ 0 →
  ∃ b bl1 bl2 m',
    bl = bl1 ++ (b, k, true) :: bl2 ∧ list_pop m (free_lists_of A k) = (b, m') ∧
    inv m' A lo hi mx (bl1 ++ bl2) ∧
    okb lo hi mx b k ∧ Forall (apart b k) (bl1 ++ bl2).
Proof.
  intros Hinv Hk Hnz.
  pose proof (inv_chains _ _ _ _ _ _ Hinv k Hk) as Hc.
  destruct (fl_of bl k) as [|b l'] eqn:Hfl; [done|].
  simpl in Hc. destruct Hc as [Hhd Hc].
  destruct (fl_of_split bl k [] b l' Hfl) as (bl1 & bl2 & -> & Hf1 & Hf2).
  destruct (inv_middle _ _ _ _ _ _ _ _ Hinv) as (Hb & Ha & Hok & Hpw & Ht & _).
  simpl in Hb, Ha.
  exists b, bl1, bl2. eexists. split; [done|].
  unfold list_pop. rewrite (proj2 (Z.eqb_neq _ 0) Hnz). simpl. rewrite Hhd.
  split; [done|]. split; [|done].
  apply (inv_store_head _ _ _ _ _ _ _ _ _ Hinv); [done | apply load8_range | done | done | | | done].
  - intros j Hj. symmetry. by apply fl_of_middle_other; right.
  - rewrite fl_of_app, Hf1, Hf2. done.
Qed.

(** Two blocks of the list are the same one or do not overlap. *)
Lemma pw_elem bl (x y : blk) :
  pw bl → x ∈ bl → y ∈ bl → x = y ∨ apart x.1.1 x.1.2 y.
Proof.
  induction bl as [|z bl IH]; [by intros _ ?%elem_of_nil|].
  intros [Ha Hpw] Hx Hy. rewrite Forall_forall in Ha.
  apply elem_of_cons in Hx as [->|Hx]; apply elem_of_cons in Hy as [->|Hy].
  - by left.
  - right. by apply Ha.
  - right. apply apart_sym. by apply Ha.
  - by apply IH.
Qed.

Lemma sepl_NoDup l : sepl l → NoDup l.
Proof.
  induction l as [|b l IH]; [constructor|]. intros [Ha Hs].
  constructor; [|by apply IH]. intros Hin.
  unfold away in Ha. rewrite Forall_forall in Ha. specialize (Ha _ Hin). lia.
Qed.

Lemma range_length (l : list Z) lo hi :
  lo <= hi → NoDup l → Forall (λ b, lo <= b < hi) l → Z.of_nat (length l) <= hi - lo.
Proof.
  intros Hlh Hnd Hr.
  assert (Hsub : l ⊆+ seqZ lo (hi - lo)).
  { apply NoDup_submseteq; [done|]. intros b Hb.
    rewrite Forall_forall in Hr. apply elem_of_seqZ. specialize (Hr _ Hb). lia. }
  apply submseteq_length in Hsub. rewrite length_seqZ in Hsub. lia.
Qed.

Lemma inv_fl_length m A lo hi mx bl k :
  inv m A lo hi mx bl → Z.of_nat (S (length (fl_of bl k))) < 2 ^ 64.
Proof.
  intros Hinv.
  pose proof (okb_sepl _ _ _ _ k (inv_blocks _ _ _ _ _ _ Hinv) (inv_pw _ _ _ _ _ _ Hinv)) as Hs.
  pose proof (okb_nodes _ _ _ _ k (inv_blocks _ _ _ _ _ _ Hinv)) as Hn.
  pose proof (range_length (fl_of bl k) lo hi (inv_lh _ _ _ _ _ _ Hinv) (sepl_NoDup _ Hs)) as Hl.
  pose proof (inv_hi _ _ _ _ _ _ Hinv). pose proof (inv_lo _ _ _ _ _ _ Hinv).
  pose proof (inv_pos _ _ _ _ _ _ Hinv).
  assert (Z.of_nat (length (fl_of bl k)) <= hi - lo); [|lia].
  apply Hl. eapply Forall_impl; [apply Hn|]. simpl. intros b. lia.
Qed.

Lemma remove_inv m A lo hi mx bl k buddy :
  inv m A lo hi mx bl → 0 <= k < 64 → buddy ∈ fl_of bl k →
  ∃ bl1 bl2 m',
    bl = bl1 ++ (buddy, k, true) :: bl2 ∧
    list_remove m (free_lists_of A k) buddy = Some (1, m') ∧
    inv m' A lo hi mx (bl1 ++ bl2) ∧
    okb lo hi mx buddy k ∧ Forall (apart buddy k) (bl1 ++ bl2).
Proof.
  intros Hinv Hk Hin.
  pose proof (inv_chains _ _ _ _ _ _ Hinv k Hk) as Hc.
  pose proof (inv_blocks _ _ _ _ _ _ Hinv) as Hok.
  pose proof (inv_pw _ _ _ _ _ _ Hinv) as Hpw.
  pose proof (okb_sepl _ _ _ _ k Hok Hpw) as Hsep.
  pose proof (okb_nodes _ _ _ _ k Hok) as Hnodes.
  pose proof (inv_fl_length _ _ _ _ _ _ k Hinv) as Hlen.
  pose proof (inv_hi _ _ _ _ _ _ Hinv) as Hhi.
  pose proof (inv_lo _ _ _ _ _ _ Hinv) as Hlo.
  pose proof (inv_pos _ _ _ _ _ _ Hinv) as HA.
  destruct (list_elem_of_split _ _ Hin) as (l1 & l2 & Hl).
  assert (Hni : buddy ∉ l1).
  { pose proof (sepl_NoDup _ Hsep) as Hnd. rewrite Hl in Hnd.
    apply NoDup_app in Hnd as (_ & Hnd & _). intros Hb.
    apply (Hnd _ Hb). apply list_elem_of_here. }
  destruct (fl_of_split bl k l1 buddy l2 Hl) as (bl1 & bl2 & -> & Hf1 & Hf2).
  destruct (inv_middle _ _ _ _ _ _ _ _ Hinv) as (Hb & Ha & Hok' & Hpw' & Ht & _).
  simpl in Hb, Ha.
  exists bl1, bl2. eexists. split; [done|].
  rewrite Hl in Hc, Hsep, Hnodes, Hlen.
  assert (Hnz : Forall (λ b, b ≠ 0) (l1 ++ buddy :: l2)).
  { eapply Forall_impl; [apply Hnodes|]. simpl. intros b. lia. }
  split.
  { unfold list_remove. eapply while_fuel_while.
    - apply (remove_search _ _ l1 l2); done.
    - rewrite length_app, length_cons in Hlen. lia. }
  split; [|done].
  pose proof (inv_lh _ _ _ _ _ _ Hinv) as Hlh.
  (* where the link is: the head of the list, or a node of it *)
  pose proof (lastloc_elem (free_lists_of A k) l1) as Hpp0.
  remember (lastloc (free_lists_of A k) l1) as pp eqn:Hppe.
  assert (Hpp : pp = free_lists_of A k ∨ (pp, k, true) ∈ bl1 ++ bl2).
  { destruct Hpp0 as [?|Hpin]; [by left|].
    right. apply elem_of_app. left. apply elem_of_fl_of. rewrite Hf1. exact Hpin. }
  assert (Hppr : A + 24 <= pp ∧ pp + 8 <= 2 ^ 64 ∧
                 (pp = free_lists_of A k ∨ lo <= pp)).
  { destruct Hpp as [->|Hpin]; [unfold free_lists_of; lia|].
    rewrite Forall_forall in Hok'. specialize (Hok' _ Hpin). simpl in Hok'.
    destruct Hok' as (? & ? & ? & _). pose proof (pow2_ge16 k). lia. }
  assert (Haway : ∀ j, j ≠ k → away pp 8 (fl_of (bl1 ++ bl2) j)).
  { intros j Hj. destruct Hpp as [->|Hpin].
    - eapply desc_away; [done | unfold free_lists_of; lia].
    - apply Forall_forall. intros b Hbin. apply elem_of_fl_of in Hbin.
      destruct (pw_elem _ _ _ Hpw' Hpin Hbin) as [?|Hap]; [by simplify_eq|].
      unfold apart in Hap. simpl in Hap.
      rewrite Forall_forall in Hok'.
      pose proof (Hok' _ Hpin) as (? & _). pose proof (Hok' _ Hbin) as (? & _).
      simpl in *. pose proof (pow2_ge16 k). pose proof (pow2_ge16 j). lia. }
  assert (Htaw : Forall (λ y : blk, y.2 = false → pp + 8 <= y.1.1 ∨ y.1.1 + 2 <= pp)
                   (bl1 ++ bl2)).
  { apply Forall_forall. intros y Hy Hyf. destruct Hpp as [->|Hpin].
    - rewrite Forall_forall in Hok'. specialize (Hok' _ Hy).
      destruct Hok' as (_ & ? & _). unfold free_lists_of. lia.
    - destruct (pw_elem _ _ _ Hpw' Hpin Hy) as [<-|Hap]; [done|].
      unfold apart in Hap. simpl in Hap.
      rewrite Forall_forall in Hok'.
      pose proof (Hok' _ Hpin) as (? & _). pose proof (Hok' _ Hy) as (? & _).
      simpl in *. pose proof (pow2_ge16 k). pose proof (pow2_ge16 y.1.2). lia. }
  destruct Hinv as [H1 H2 H3 H4 H5 H6 H7 H8 H9 H10 H11 H12].
  split; try done; bd_unfold.
  - ldst. done.
  - ldst. done.
  - ldst. done.
  - intros j Hj. destruct (decide (j = k)) as [->|Hne].
    + rewrite fl_of_app, Hf1, Hf2, Hppe.
      apply (remove_chain m buddy l1 l2 (A + 24 + 8 * k)); [done | done | |].
      * eapply Forall_impl; [apply Hnodes|]. simpl. intros b. lia.
      * eapply Forall_impl; [apply Hnodes|]. simpl. intros b. lia.
    + assert (Hh : load 8 (A + 24 + 8 * j) (store 8 pp (load 8 buddy m) m)
                   = load 8 (A + 24 + 8 * j) m).
      { destruct Hppr as (_ & _ & [->|?]); rewrite load_store_ne by lia; done. }
      rewrite Hh. apply chain_store; [by apply Haway|].
      rewrite <- (fl_of_middle_other bl1 buddy k true bl2 j) by (right; done).
      by apply H10.
  - rewrite Forall_forall in Htaw, Ht. apply Forall_forall. intros y Hy Hyf.
    rewrite load_store_ne by (specialize (Htaw _ Hy Hyf); lia).
    by apply Ht.
Qed.

(** *** [allocator_alloc] *)

(** The request size is such that [size + sizeof(uint16_t)] does not wrap
    and has a power of two of 64 bits above it. *)
Definition size_ok (n : Z) : Prop := 0 <= n ∧ n + 2 <= 2 ^ 63.

Lemma order_for_spec n :
  0 < n → size_ok n →
  ∃ k, order_for n 4 = Some k ∧ 4 <= k <= 63 ∧ n + 2 <= 2 ^ k ∧
       (k = 4 ∨ 2 ^ (k - 1) < n + 2).
Proof.
  intros Hn [_ Hok]. unfold order_for, sizeof_uint16_t.
  assert (H63 : (2:Z) ^ 63 < 2 ^ 64) by done.
  rewrite (wrap_small (n + 2)) by lia.
  apply (while_rule _ (λ k, 4 <= k <= 63 ∧ (k = 4 ∨ 2 ^ (k - 1) < n + 2))
           (λ k, Z.to_nat (63 - k))).
  - intros k [Hk Hlow]. unfold order_for_body.
    rewrite pow2_small by lia.
    destruct (Z.ltb_spec (2 ^ k) (n + 2)) as [Hlt|Hge].
    + assert (k < 63).
      { destruct (decide (k = 63)) as [->|]; lia. }
      split; [|lia]. split; [lia|]. right.
      by replace (k + 1 - 1) with k by lia.
    + split; [done|]. split; [lia | done].
  - split; [lia | by left].
  - simpl. lia.
Qed.

Lemma chain_nil_iff m p l : chain m p l → Forall (λ b, b ≠ 0) l → (p = 0 ↔ l = []).
Proof.
  destruct l as [|b l]; simpl.
  - intros -> _. done.
  - intros [-> _] H. apply Forall_cons in H as [? _]. split; [done|]. done.
Qed.

Lemma inv_head_nil m A lo hi mx bl k :
  inv m A lo hi mx bl → 0 <= k < 64 →
  (load 8 (free_lists_of A k) m = 0 ↔ fl_of bl k = []).
Proof.
  intros Hinv Hk. apply (chain_nil_iff m); [by apply (inv_chains _ _ _ _ _ _ Hinv)|].
  pose proof (inv_pos _ _ _ _ _ _ Hinv). pose proof (inv_lo _ _ _ _ _ _ Hinv).
  eapply Forall_impl; [apply (okb_nodes _ _ _ _ k (inv_blocks _ _ _ _ _ _ Hinv))|].
  simpl. intros b. lia.
Qed.

(** The search for the smallest order with a free block. *)
Lemma find_spec m A lo hi mx bl k :
  inv m A lo hi mx bl → 4 <= k <= mx →
  ∃ cur, while (find_body m A) k = Some cur ∧ k <= cur <= mx + 1 ∧
         (∀ j, k <= j < cur → fl_of bl j = []) ∧
         (cur <= mx → fl_of bl cur ≠ []).
Proof.
  intros Hinv Hk.
  pose proof (inv_mx _ _ _ _ _ _ Hinv) as Hmx.
  apply (while_rule _ (λ cur, k <= cur <= mx + 1 ∧ ∀ j, k <= j < cur → fl_of bl j = [])
           (λ cur, Z.to_nat (mx + 1 - cur))).
  - intros cur [Hc Hnil]. unfold find_body.
    rewrite (inv_max _ _ _ _ _ _ Hinv).
    destruct (Z.leb_spec cur mx) as [Hle|Hgt]; simpl.
    + destruct (Z.eqb_spec (load 8 (free_lists_of A cur) m) 0) as [Hz|Hnz].
      * apply (inv_head_nil _ _ _ _ _ _ cur Hinv) in Hz; [|lia].
        split; [|lia]. split; [lia|]. intros j Hj.
        destruct (decide (j = cur)) as [->|]; [done|]. apply Hnil. lia.
      * split; [done|]. split; [done|]. intros _ Hz. apply Hnz.
        apply (inv_head_nil _ _ _ _ _ _ cur Hinv); [lia | done].
    + split; [lia|]. split; [done|]. lia.
  - split; [lia|]. intros j Hj. lia.
  - lia.
Qed.

(** The block [b] is split down from order [cur] to order [k]; the upper
    halves go on the free lists. *)
Lemma split_spec m A lo hi mx bl b cur k :
  inv m A lo hi mx bl → okb lo hi mx b cur → Forall (apart b cur) bl →
  4 <= k <= cur →
  ∃ m' bl', while (split_body A b k) (cur, m) = Some m' ∧
            inv m' A lo hi mx bl' ∧ okb lo hi mx b k ∧ Forall (apart b k) bl' ∧
            lives bl' = lives bl.
Proof.
  intros Hinv Hb Ha Hk.
  pose proof (inv_mx _ _ _ _ _ _ Hinv) as Hmx.
  assert (Hcur : cur <= mx) by (destruct Hb; lia).
  destruct (while_rule (split_body A b k)
           (λ st, ∃ bl', inv st.2 A lo hi mx bl' ∧ okb lo hi mx b st.1 ∧
                         Forall (apart b st.1) bl' ∧ k <= st.1 <= mx ∧
                         lives bl' = lives bl)
           (λ st, Z.to_nat (st.1 - k))
           (λ m', ∃ bl', inv m' A lo hi mx bl' ∧ okb lo hi mx b k ∧
                         Forall (apart b k) bl' ∧ lives bl' = lives bl))
    with (s := (cur, m)) as (m' & Hw & bl' & H1 & H2 & H3 & H4).
  - intros [c m0] (bl' & Hi & Hbc & Hac & Hc & Hl). simpl in *.
    destruct (Z.ltb_spec k c) as [Hlt|Hge].
    + rewrite pow2_small by lia.
      destruct Hbc as (Hck & Hblo & Hbhi & Hbal).
      pose proof (pow2_succ (c - 1) ltac:(lia)) as Hp.
      replace (c - 1 + 1) with c in Hp by lia.
      pose proof (pow2_pos (c - 1) ltac:(lia)) as Hpp.
      assert (Hnew : okb lo hi mx (b + 2 ^ (c - 1)) (c - 1)).
      { split; [lia|]. split; [lia|]. split; [lia|].
        replace (b + 2 ^ (c - 1) - lo) with ((b - lo) + 2 ^ (c - 1)) by lia.
        rewrite Z.add_mod, Hbal, pow2_mod16 by lia. done. }
      assert (Hnewa : Forall (apart (b + 2 ^ (c - 1)) (c - 1)) bl').
      { eapply Forall_impl; [apply Hac|]. unfold apart. intros x. lia. }
      cbn [fst snd]. split; [|lia].
      exists ((b + 2 ^ (c - 1), c - 1, true) :: bl').
      split; [by apply push_inv|].
      split. { split; [lia|]. split; [lia|]. split; [lia | done]. }
      split. { constructor; [unfold apart; simpl; lia|].
               eapply Forall_impl; [apply Hac|]. unfold apart. intros x. lia. }
      split; [lia | done].
    + assert (c = k) as -> by lia. exists bl'. done.
  - exists bl. simpl. split_and!; (done || lia).
  - simpl. lia.
  - exists m', bl'. done.
Qed.

Lemma lives_cons_live b k bl : lives ((b, k, false) :: bl) = (b, k) :: lives bl.
Proof. done. Qed.

Lemma lives_cons_free b k bl : lives ((b, k, true) :: bl) = lives bl.
Proof. done. Qed.

Lemma lives_app l1 l2 : lives (l1 ++ l2) = lives l1 ++ lives l2.
Proof. apply omap_app. Qed.

(** The order tag is written: the block is live. *)
Lemma tag_inv m A lo hi mx bl b k :
  inv m A lo hi mx bl → okb lo hi mx b k → Forall (apart b k) bl →
  inv (store 2 b k m) A lo hi mx ((b, k, false) :: bl).
Proof.
  intros Hinv Hb Ha.
  pose proof Hb as (Hk & Hlo & Hhi & Hal).
  pose proof (inv_mx _ _ _ _ _ _ Hinv) as Hmx.
  pose proof (pow2_ge16 k ltac:(lia)) as Hp.
  assert (Hinv1 : inv (store 2 b k m) A lo hi mx bl).
  { apply (inv_store_held _ _ _ _ _ _ b k); [done | done | lia | lia | lia]. }
  destruct Hinv1 as [H1 H2 H3 H4 H5 H6 H7 H8 H9 H10 H11 H12].
  split; try done.
  - by constructor.
  - constructor; [|done]. simpl. intros _. rewrite load2_store2_eq; [done|].
    assert ((2:Z) ^ 16 = 65536) by done. lia.
Qed.

Lemma bd_alloc_spec m A lo hi mx bl n :
  inv m A lo hi mx bl → 0 < n → size_ok n →
  ∃ k, order_for n 4 = Some k ∧ 4 <= k <= 63 ∧ n + 2 <= 2 ^ k ∧
       (k = 4 ∨ 2 ^ (k - 1) < n + 2) ∧
    (((mx < k ∨ ∀ j, k <= j <= mx → fl_of bl j = []) ∧
      allocator_alloc m A n = Some (0, m)) ∨
     (k <= mx ∧ (∃ j, k <= j <= mx ∧ fl_of bl j ≠ []) ∧
      ∃ b m' bl', allocator_alloc m A n = Some (b + 2, m') ∧
                  inv m' A lo hi mx ((b, k, false) :: bl') ∧
                  lives bl' = lives bl)).
Proof.
  intros Hinv Hn Hok.
  destruct (order_for_spec n Hn Hok) as (k & Hof & Hk & Hnk & Hmin).
  exists k. split; [done|]. split; [done|]. split; [done|]. split; [done|].
  pose proof (inv_mx _ _ _ _ _ _ Hinv) as Hmx.
  unfold allocator_alloc. rewrite (proj2 (Z.eqb_neq n 0)) by lia.
  rewrite (inv_min _ _ _ _ _ _ Hinv), Hof. simpl.
  rewrite (inv_max _ _ _ _ _ _ Hinv).
  destruct (Z.ltb_spec mx k) as [Hgt|Hle].
  { left. split; [by left | done]. }
  destruct (find_spec _ _ _ _ _ _ k Hinv ltac:(lia)) as (cur & Hfind & Hcur & Hnil & Hne).
  rewrite Hfind. simpl.
  destruct (Z.ltb_spec mx cur) as [Hgt|Hle2].
  { left. split; [|done]. right. intros j Hj. apply Hnil. lia. }
  right. split; [done|]. split; [exists cur; split; [lia | by apply Hne]|].
  assert (Hnz : load 8 (free_lists_of A cur) m ≠ 0).
  { intros Hz. apply (inv_head_nil _ _ _ _ _ _ cur Hinv) in Hz; [|lia]. by apply Hne. }
  destruct (pop_inv _ _ _ _ _ _ cur Hinv ltac:(lia) Hnz)
    as (b & bl1 & bl2 & m1 & Hbl & Hpop & Hinv1 & Hb & Ha).
  rewrite Hpop.
  destruct (split_spec _ _ _ _ _ _ b cur k Hinv1 Hb Ha ltac:(lia))
    as (m2 & bl' & Hsplit & Hinv2 & Hbk & Hak & Hl).
  rewrite Hsplit. simpl.
  exists b, (store 2 b k m2), bl'. split; [done|].
  split; [by apply tag_inv|].
  rewrite Hl, Hbl, !lives_app. done.
Qed.

(** *** [allocator_free] *)

Lemma inv_drop_live m A lo hi mx bl1 b k bl2 :
  inv m A lo hi mx (bl1 ++ (b, k, false) :: bl2) →
  inv m A lo hi mx (bl1 ++ bl2) ∧ okb lo hi mx b k ∧
  Forall (apart b k) (bl1 ++ bl2) ∧ load 2 b m = k.
Proof.
  intros Hinv.
  destruct (inv_middle _ _ _ _ _ _ _ _ Hinv) as (Hb & Ha & Hok & Hpw & Ht & Htb).
  simpl in Hb, Ha. split; [|split; [done|]; split; [done|]; by apply Htb].
  destruct Hinv as [H1 H2 H3 H4 H5 H6 H7 H8 H9 H10 H11 H12].
  split; try done.
  intros j Hj. rewrite <- (fl_of_middle_other bl1 b k false bl2 j) by (by left).
  by apply H10.
Qed.

Lemma scan_inv m A lo hi mx bl k buddy :
  inv m A lo hi mx bl → 0 <= k < 64 →
  while (scan_body m buddy) (load 8 (free_lists_of A k) m)
  = Some (if decide (buddy ∈ fl_of bl k) then 1 else 0).
Proof.
  intros Hinv Hk.
  pose proof (inv_fl_length _ _ _ _ _ _ k Hinv) as Hlen.
  pose proof (inv_pos _ _ _ _ _ _ Hinv). pose proof (inv_lo _ _ _ _ _ _ Hinv).
  eapply while_fuel_while; [|apply Z.lt_le_incl, Hlen].
  apply scan_spec; [by apply (inv_chains _ _ _ _ _ _ Hinv)|].
  eapply Forall_impl; [apply (okb_nodes _ _ _ _ k (inv_blocks _ _ _ _ _ _ Hinv))|].
  simpl. intros b. lia.
Qed.

(** One turn of the merging loop, from a block that is apart from all the
    blocks of the list. *)
Lemma free_body_spec m A lo hi mx bl block k :
  inv m A lo hi mx bl → okb lo hi mx block k → Forall (apart block k) bl →
  match free_body A (block, k, m) with
  | inl (block', k', m') =>
      ∃ bl', inv m' A lo hi mx bl' ∧ okb lo hi mx block' k' ∧
             Forall (apart block' k') bl' ∧ lives bl' = lives bl ∧ k' = k + 1
  | inr r =>
      ∃ m' bl', r = Some m' ∧ inv m' A lo hi mx bl' ∧ lives bl' = lives bl
  end.
Proof.
  intros Hinv Hb Ha.
  pose proof Hb as (Hk & Hlo & Hhi & Hal).
  pose proof (inv_mx _ _ _ _ _ _ Hinv) as Hmx.
  pose proof (inv_pos _ _ _ _ _ _ Hinv) as HA.
  pose proof (inv_lo _ _ _ _ _ _ Hinv) as HloA.
  pose proof (inv_hi _ _ _ _ _ _ Hinv) as Hhi2.
  pose proof (pow2_pos k ltac:(lia)) as Hpk.
  unfold free_body. rewrite (inv_base _ _ _ _ _ _ Hinv).
  rewrite (wrap_small (block - A)) by lia. rewrite pow2_small by lia.
  set (buddy := A + Z.lxor (block - A) (2 ^ k)).
  assert (Hbud : buddy = block + 2 ^ k ∨ buddy = block - 2 ^ k).
  { destruct (lxor_pow2 (block - A) k) as [[_ E]|[_ E]]; [lia | lia | |];
      unfold buddy; rewrite E; lia. }
  clearbody buddy.
  rewrite (scan_inv _ _ _ _ _ _ k buddy Hinv) by lia.
  destruct (decide (buddy ∈ fl_of bl k)) as [Hin|Hin]; simpl.
  - (* the buddy is free: unlink it and merge *)
    destruct (remove_inv _ _ _ _ _ _ k buddy Hinv ltac:(lia) Hin)
      as (bl1 & bl2 & m2 & Hbl & Hrm & Hinv2 & Hbb & Hba).
    rewrite Hrm. rewrite (inv_max _ _ _ _ _ _ Hinv2).
    assert (Hk16 : (k + 1) mod 2 ^ 16 = k + 1).
    { apply Z.mod_small. assert ((2:Z) ^ 16 = 65536) by done. lia. }
    rewrite Hk16.
    rewrite Hbl in Ha. rewrite Forall_app, Forall_cons in Ha.
    destruct Ha as (Ha1 & Hab & Ha2). unfold apart in Hab. simpl in Hab.
    destruct Hbb as (_ & Hblo & Hbhi & Hbal).
    set (block' := if buddy <? block then buddy else block).
    assert (Hmin : (block' = block ∧ buddy = block + 2 ^ k) ∨
                   (block' = buddy ∧ block = buddy + 2 ^ k)).
    { unfold block'. destruct (Z.ltb_spec buddy block); lia. }
    clearbody block'.
    assert (Hlv : lives (bl1 ++ bl2) = lives bl).
    { rewrite Hbl, !lives_app. done. }
    assert (Hok' : okb lo hi mx block' k).
    { destruct Hmin as [[-> _]|[-> _]]; split_and!; (done || lia). }
    assert (Ha' : Forall (apart block' k) (bl1 ++ bl2)).
    { destruct Hmin as [[-> _]|[-> _]]; [|done]. rewrite Forall_app. done. }
    destruct (Z.ltb_spec mx (k + 1)) as [Hgt|Hle].
    + replace (k + 1 - 1) with k by lia.
      eexists _, _. split; [done|]. split; [by apply push_inv|].
      rewrite lives_cons_free. done.
    + exists (bl1 ++ bl2). split; [done|].
      pose proof (pow2_succ k ltac:(lia)) as Hp2.
      split.
      { split; [lia|]. split; [lia|]. split; [lia|].
        destruct Hok' as (_ & _ & _ & ?). done. }
      split; [|done].
      pose proof (inv_blocks _ _ _ _ _ _ Hinv2) as Hoks.
      rewrite Forall_forall in Hoks.
      assert (Ha12 : Forall (apart block k) (bl1 ++ bl2)) by (by rewrite Forall_app).
      rewrite Forall_forall in Ha12, Hba. apply Forall_forall.
      intros y Hy. specialize (Hoks _ Hy). specialize (Ha12 _ Hy).
      specialize (Hba _ Hy). unfold apart in *.
      destruct Hoks as (Hyk & _). pose proof (pow2_pos y.1.2 ltac:(lia)).
      lia.
  - (* no free buddy: the block goes on the list of its order *)
    eexists _, _. split; [done|]. split; [by apply push_inv|].
    rewrite lives_cons_free. done.
Qed.

Lemma bd_free_spec m A lo hi mx bl1 b k bl2 :
  inv m A lo hi mx (bl1 ++ (b, k, false) :: bl2) →
  ∃ m' bl', allocator_free m A (b + 2) = Some m' ∧ inv m' A lo hi mx bl' ∧
            lives bl' = lives (bl1 ++ bl2).
Proof.
  intros Hinv0.
  destruct (inv_drop_live _ _ _ _ _ _ _ _ _ Hinv0) as (Hinv & Hb & Ha & Htag).
  pose proof Hb as (Hk & Hlo & Hhi & Hal).
  pose proof (inv_mx _ _ _ _ _ _ Hinv) as Hmx.
  pose proof (inv_pos _ _ _ _ _ _ Hinv) as HA.
  pose proof (inv_lo _ _ _ _ _ _ Hinv) as HloA.
  unfold allocator_free, sizeof_uint16_t.
  rewrite (proj2 (Z.eqb_neq (b + 2) 0)) by lia.
  replace (b + 2 - 2) with b by lia. rewrite Htag.
  destruct (while_rule (free_body A)
           (λ st, ∃ bl', inv st.2 A lo hi mx bl' ∧ okb lo hi mx st.1.1 st.1.2 ∧
                         Forall (apart st.1.1 st.1.2) bl' ∧
                         lives bl' = lives (bl1 ++ bl2))
           (λ st, Z.to_nat (mx - st.1.2))
           (λ r, ∃ m' bl', r = Some m' ∧ inv m' A lo hi mx bl' ∧
                           lives bl' = lives (bl1 ++ bl2)))
    with (s := (b, k, m)) as (r & Hw & m' & bl' & -> & H1 & H2).
  - intros [[block k0] m0] (bl' & Hi & Hbk & Hak & Hl). cbn [fst snd] in *.
    pose proof (free_body_spec _ _ _ _ _ _ _ _ Hi Hbk Hak) as Hstep.
    destruct (free_body A (block, k0, m0)) as [[[block' k'] m1]|r].
    + destruct Hstep as (bl'' & Hi' & Hb' & Ha' & Hl' & ->). cbn [fst snd].
      split; [|destruct Hb' as (? & _); destruct Hbk as (? & _); lia].
      exists bl''. split; [done|]. split; [done|]. split; [done|]. congruence.
    + destruct Hstep as (m1 & bl'' & -> & Hi' & Hl').
      exists m1, bl''. split; [done|]. split; [done|]. congruence.
  - exists (bl1 ++ bl2). done.
  - cbn [fst snd]. lia.
  - rewrite Hw. simpl. exists m', bl'. done.
Qed.

Lemma bd_free_null m A : allocator_free m A 0 = Some m.
Proof. done. Qed.

(** The walk of a free list reads the list of the invariant. *)
Lemma free_list_spec m A lo hi mx bl k :
  inv m A lo hi mx bl → 0 <= k < 64 → free_list m A k = Some (fl_of bl k).
Proof.
  intros Hinv Hk. unfold free_list.
  pose proof (inv_fl_length _ _ _ _ _ _ k Hinv) as Hlen.
  pose proof (inv_pos _ _ _ _ _ _ Hinv). pose proof (inv_lo _ _ _ _ _ _ Hinv).
  eapply while_fuel_while; [|apply Z.lt_le_incl, Hlen].
  rewrite (bd_walk_spec m (fl_of bl k) _ []); [done | by apply (inv_chains _ _ _ _ _ _ Hinv) |].
  eapply Forall_impl; [apply (okb_nodes _ _ _ _ k (inv_blocks _ _ _ _ _ _ Hinv))|].
  simpl. intros b. lia.
Qed.

(** *** [allocator_create] *)

(** [m'] differs from [m] inside [lo, hi) only. *)
Definition same_outside (lo hi : Z) (m m' : mem) : Prop :=
  ∀ n a, a + Z.of_nat n <= lo ∨ hi <= a → load n a m' = load n a m.

Lemma same_outside_refl lo hi m : same_outside lo hi m m.
Proof. by intros n a _. Qed.

Lemma same_outside_store lo hi m m' w x v :
  same_outside lo hi m m' → lo <= x → x + Z.of_nat w <= hi →
  same_outside lo hi m (store w x v m').
Proof.
  intros H Hx Hw n a Ha. rewrite load_store_ne by lia. by apply H.
Qed.

(** The loop that finds [max_order]. *)
Lemma max_order_spec A u m :
  64 <= u < 2 ^ 64 → load_int (max_order_of A) m = 0 →
  ∃ m' mx, while (max_order_body A u) m = Some m' ∧
           load_int (max_order_of A) m' = mx ∧
           6 <= mx <= 20 ∧ 2 ^ mx <= u ∧ (mx = 20 ∨ u < 2 ^ (mx + 1)) ∧
           same_outside (max_order_of A) (max_order_of A + 4) m m'.
Proof.
  intros Hu H0.
  destruct (while_rule (max_order_body A u)
              (λ m', ∃ c, load_int (max_order_of A) m' = c ∧ 0 <= c <= 20 ∧ 2 ^ c <= u ∧
                          same_outside (max_order_of A) (max_order_of A + 4) m m')
              (λ m', Z.to_nat (20 - load_int (max_order_of A) m'))
              (λ m', ∃ c, load_int (max_order_of A) m' = c ∧ 0 <= c <= 20 ∧ 2 ^ c <= u ∧
                          (c = 20 ∨ u < 2 ^ (c + 1)) ∧
                          same_outside (max_order_of A) (max_order_of A + 4) m m'))
    with (s := m) as (m' & Hw & c & Hc & Hr & Hp & Hmax & Hso).
  - intros m1 (c & Hc & Hr & Hp & Hso). unfold max_order_body. rewrite Hc.
    destruct (Z.ltb_spec c 20) as [Hlt|Hge]; simpl.
    + rewrite pow2_small by lia.
      destruct (Z.leb_spec (2 ^ (c + 1)) u) as [Hle|Hgt].
      * assert (Hst : load_int (max_order_of A) (store 4 (max_order_of A) (c + 1) m1) = c + 1).
        { unfold load_int. rewrite load4_store4_eq by (assert ((2:Z) ^ 32 = 4294967296) by done; lia).
          unfold sint32. assert ((2:Z) ^ 31 = 2147483648) by done.
          destruct (Z.ltb_spec (c + 1) (2 ^ 31)); lia. }
        rewrite Hst. split; [|lia].
        exists (c + 1). split; [done|]. split; [lia|]. split; [done|].
        apply same_outside_store; [done | lia | lia].
      * exists c. split_and!; (done || lia).
    + exists c. split_and!; (done || lia).
  - exists 0. split; [done|]. split; [lia|]. split; [|apply same_outside_refl].
    simpl. lia.
  - rewrite H0. simpl. lia.
  - exists m', c. split; [done|]. split; [done|]. split; [|done].
    split; [|lia].
    destruct (Z.le_gt_cases 6 c) as [?|Hlt]; [done|].
    destruct Hmax as [->|Hmax]; [lia|].
    assert (2 ^ (c + 1) <= 2 ^ 6) by (apply pow2_le; lia).
    assert ((2:Z) ^ 6 = 64) by done. lia.
Qed.

(** The loop that empties the 64 free lists. *)
Lemma heads_init A (l : list Z) m :
  Forall (λ i, 0 <= i < 64) l →
  let m' := foldl (λ m i, store 8 (free_lists_of A i) 0 m) m l in
  same_outside (A + 24) (A + 536) m m' ∧
  ∀ i, i ∈ l → load 8 (free_lists_of A i) m' = 0.
Proof.
  revert m. induction l as [|j l IH] using rev_ind; intros m Hl; simpl.
  - split; [apply same_outside_refl|]. by intros i ?%elem_of_nil.
  - apply Forall_app in Hl as [Hl Hj]. apply Forall_cons in Hj as [Hj _].
    rewrite foldl_app. simpl.
    destruct (IH m Hl) as [Hso Hz].
    split.
    + apply same_outside_store; [done | unfold free_lists_of; lia | unfold free_lists_of; lia].
    + intros i Hi. apply elem_of_app in Hi as [Hi|Hi].
      * destruct (decide (i = j)) as [->|Hne].
        { by rewrite load8_store8_eq. }
        rewrite Forall_forall in Hl. specialize (Hl _ Hi).
        rewrite load_store_ne by (unfold free_lists_of; lia). by apply Hz.
      * apply list_elem_of_singleton in Hi as ->. by rewrite load8_store8_eq.
Qed.

(** The blocks [create] seeds the top free list with, last pushed first. *)
Definition seed (aligned mx blocks : Z) : list blk :=
  reverse ((λ i, (aligned + i * 2 ^ mx, mx, true)) <$> seqZ 0 blocks).

Lemma seed_succ aligned mx n :
  0 <= n → seed aligned mx (n + 1) = (aligned + n * 2 ^ mx, mx, true) :: seed aligned mx n.
Proof.
  intros Hn. unfold seed.
  rewrite seqZ_app by lia. rewrite fmap_app, reverse_app. simpl.
  rewrite Z.add_0_l. done.
Qed.

Lemma seed_lives aligned mx n : lives (seed aligned mx n) = [].
Proof.
  unfold seed, lives. induction (seqZ 0 n) as [|i l IH]; [done|].
  rewrite fmap_cons, reverse_cons, omap_app, IH. done.
Qed.

Lemma seed_apart aligned mx n b :
  0 <= n → 0 <= mx → aligned + n * 2 ^ mx <= b →
  Forall (apart b mx) (seed aligned mx n).
Proof.
  intros Hn Hmx Hb. unfold seed. rewrite Forall_reverse, Forall_fmap.
  apply Forall_forall. intros i Hi. apply elem_of_seqZ in Hi.
  unfold apart. simpl. right.
  pose proof (pow2_pos mx Hmx).
  assert ((i + 1) * 2 ^ mx <= n * 2 ^ mx) by (apply Z.mul_le_mono_nonneg_r; lia).
  lia.
Qed.

Lemma seed_inv m A lo mx total (n : nat) :
  inv m A lo (lo + total * 2 ^ mx) mx [] → Z.of_nat n <= total →
  lo + total * 2 ^ mx <= 2 ^ 64 →
  inv (foldl (λ m i,
               let b := lo + wrap (Z.shiftl i (load_int (max_order_of A) m)) in
               list_push m (free_lists_of A (load_int (max_order_of A) m)) b)
         m (seqZ 0 (Z.of_nat n)))
      A lo (lo + total * 2 ^ mx) mx (seed lo mx (Z.of_nat n)).
Proof.
  intros Hinv Hn Hhi. induction n as [|n IH].
  - simpl. done.
  - rewrite Nat2Z.inj_succ. unfold Z.succ.
    rewrite seqZ_app by lia. rewrite foldl_app. simpl. rewrite Z.add_0_l.
    specialize (IH ltac:(lia)).
    set (m1 := foldl _ m (seqZ 0 (Z.of_nat n))) in *.
    rewrite (inv_max _ _ _ _ _ _ IH).
    pose proof (inv_mx _ _ _ _ _ _ IH) as Hmx.
    pose proof (inv_pos _ _ _ _ _ _ IH) as HA.
    pose proof (inv_lo _ _ _ _ _ _ IH) as HloA.
    pose proof (pow2_pos mx ltac:(lia)) as Hp.
    assert (Hle : (Z.of_nat n + 1) * 2 ^ mx <= total * 2 ^ mx)
      by (apply Z.mul_le_mono_nonneg_r; lia).
    rewrite Z.shiftl_mul_pow2 by lia.
    rewrite wrap_small by nia.
    rewrite seed_succ by lia.
    apply push_inv; [done | |].
    + split; [lia|]. split; [nia|]. split; [nia|].
      replace (lo + Z.of_nat n * 2 ^ mx - lo) with (Z.of_nat n * 2 ^ mx) by lia.
      rewrite Z.mul_mod, pow2_mod16 by lia. rewrite Z.mul_0_r. done.
    + apply seed_apart; lia.
Qed.

(** The aligned start of the working arena and its trimmed length, for an
    arena at [A] of [size] bytes and blocks of order [mx]. *)
Definition aligned_of (A mx : Z) : Z :=
  A + 544 + (2 ^ mx - 1) - (A + 544 + (2 ^ mx - 1)) mod 2 ^ mx.

Definition usable_of (A size mx : Z) : Z :=
  let u := size - 544 - (aligned_of A mx - (A + 544)) in
  u - u mod 2 ^ mx.

Lemma create_fail m0 A size :
  0 <= size < 2 ^ 64 → wrap (size - 544) < 64 →
  ∃ m, allocator_create m0 A size = Some (0, m).
Proof.
  intros Hs Hu. unfold allocator_create.
  change (align_up sizeof_Allocator 16) with 544.
  rewrite (proj2 (Z.ltb_lt _ _) Hu). eauto.
Qed.

Lemma create_spec m0 A size :
  0 < A → A + size <= 2 ^ 64 → 608 <= size →
  ∃ m mx, allocator_create m0 A size = Some (A, m) ∧
          6 <= mx <= 20 ∧ 2 ^ mx <= size - 544 ∧
          (mx = 20 ∨ size - 544 < 2 ^ (mx + 1)) ∧
          inv m A (aligned_of A mx) (aligned_of A mx + usable_of A size mx) mx
              (seed (aligned_of A mx) mx (usable_of A size mx / 2 ^ mx)).
Proof.
  intros HA Hend Hsz. unfold allocator_create.
  change (align_up sizeof_Allocator 16) with 544.
  rewrite (wrap_small (size - 544)) by lia.
  rewrite (proj2 (Z.ltb_ge _ _)) by lia.
  unfold sizeof_uint16_t.
  set (m2 := store 8 (size_of A) size (store 8 (base_of A) A m0)).
  set (m3 := store 4 (min_order_of A) 4 m2).
  assert (Hmin3 : load_int (min_order_of A) m3 = 4).
  { unfold m3, load_int. rewrite load4_store4_eq by done. done. }
  assert (Hb3 : load 8 (base_of A) m3 = A).
  { unfold m3, m2. bd_unfold. ldst. done. }
  rewrite Hmin3. change (pow2 4 <? wrap (2 + 8)) with false.
  rewrite (if_false_eq (ilog2_ceil (wrap (2 + 8))
                         ≫= λ k : Z, Some (store 4 (min_order_of A) k m3))
                      (Some m3)).
  rewrite (bind_Some_eq m3).
  set (m4 := store 4 (max_order_of A) 0 m3).
  assert (Hmx4 : load_int (max_order_of A) m4 = 0).
  { unfold m4, load_int. rewrite load4_store4_eq by done. done. }
  destruct (max_order_spec A (size - 544) m4 ltac:(lia) Hmx4)
    as (m5 & mx & Hw & Hmx5 & Hmxr & Hp & Hmaxi & Hso5).
  rewrite Hw, (bind_Some_eq m5).
  assert (Hmin5 : load_int (min_order_of A) m5 = 4).
  { unfold load_int. rewrite (Hso5 4%nat) by (bd_unfold; lia).
    unfold m4. rewrite load_store_ne by (bd_unfold; lia). exact Hmin3. }
  assert (Hb5 : load 8 (base_of A) m5 = A).
  { rewrite (Hso5 8%nat) by (bd_unfold; lia).
    unfold m4. rewrite load_store_ne by (bd_unfold; lia). exact Hb3. }
  rewrite Hmx5, Hmin5. rewrite (proj2 (Z.ltb_ge mx 4)) by lia.
  destruct (heads_init A (seqZ 0 64) m5) as [Hso6 Hz6].
  { apply Forall_forall. intros i Hi. apply elem_of_seqZ in Hi. lia. }
  set (m6 := foldl (λ m i, store 8 (free_lists_of A i) 0 m) m5 (seqZ 0 64)) in *.
  assert (Hmin6 : load_int (min_order_of A) m6 = 4).
  { unfold load_int. rewrite (Hso6 4%nat) by (bd_unfold; lia). exact Hmin5. }
  assert (Hb6 : load 8 (base_of A) m6 = A).
  { rewrite (Hso6 8%nat) by (bd_unfold; lia). exact Hb5. }
  assert (Hmx6 : load_int (max_order_of A) m6 = mx).
  { unfold load_int. rewrite (Hso6 4%nat) by (bd_unfold; lia). exact Hmx5. }
  rewrite Hb6, Hmx6.
  pose proof (pow2_pos mx ltac:(lia)) as Hpm.
  assert (Hp20 : 2 ^ mx <= 2 ^ 20) by (apply pow2_le; lia).
  assert (H20 : (2:Z) ^ 20 = 1048576) by done.
  assert (H64 : (2:Z) ^ 64 = 18446744073709551616) by done.
  rewrite pow2_small by lia.
  rewrite (wrap_small (2 ^ mx - 1)) by lia.
  replace (2 ^ mx - 1) with (Z.ones mx) by (rewrite Z.ones_equiv; lia).
  rewrite (wrap_small (A + 544 + Z.ones mx)) by (rewrite Z.ones_equiv; lia).
  pose proof (Z.mod_pos_bound (A + 544 + (2 ^ mx - 1)) (2 ^ mx) Hpm) as Hmod.
  assert (Hal : A + 544 <= aligned_of A mx < A + 544 + 2 ^ mx).
  { unfold aligned_of. lia. }
  assert (Haligned : Z.land (A + 544 + Z.ones mx) (not64 (Z.ones mx)) = aligned_of A mx).
  { rewrite land_not64_ones by (rewrite ?Z.ones_equiv; lia).
    rewrite Z.ones_equiv. unfold aligned_of.
    replace (Z.pred (2 ^ mx)) with (2 ^ mx - 1) by lia. done. }
  rewrite !Haligned.
  rewrite (wrap_small (aligned_of A mx - (A + 544))) by lia.
  rewrite (proj2 (Z.leb_gt _ _)) by lia.
  rewrite (wrap_small (size - 544 - _)) by lia.
  rewrite land_not64_ones by lia.
  fold (usable_of A size mx).
  rewrite Z.shiftr_div_pow2 by lia.
  set (u := size - 544 - (aligned_of A mx - (A + 544))).
  assert (Hu : 0 <= u) by (unfold u; lia).
  assert (Huse : usable_of A size mx = u - u mod 2 ^ mx) by done.
  pose proof (Z.mod_pos_bound u (2 ^ mx) Hpm) as Hum.
  pose proof (Z.div_mod u (2 ^ mx) ltac:(lia)) as Hdm.
  set (total := usable_of A size mx / 2 ^ mx).
  assert (Htot : usable_of A size mx = total * 2 ^ mx ∧ 0 <= total).
  { unfold total. rewrite Huse.
    replace (u - u mod 2 ^ mx) with (u / 2 ^ mx * 2 ^ mx) by lia.
    rewrite Z.div_mul by lia. split; [done|]. apply Z.div_pos; lia. }
  destruct Htot as [Htot Htot0]. clearbody total.
  eexists _, mx. split; [reflexivity|].
  split; [done|]. split; [done|]. split; [done|].
  rewrite Htot.
  replace (seqZ 0 total) with (seqZ 0 (Z.of_nat (Z.to_nat total)))
    by (by rewrite Z2Nat.id).
  rewrite Z.div_mul by lia.
  replace (seed (aligned_of A mx) mx total)
    with (seed (aligned_of A mx) mx (Z.of_nat (Z.to_nat total)))
    by (by rewrite Z2Nat.id).
  apply (seed_inv m6 A (aligned_of A mx) mx total (Z.to_nat total));
    [|lia|rewrite <- Htot; unfold u in *; lia].
  split; try done.
  - lia.
  - rewrite <- Htot. unfold u in *. lia.
  - lia.
  - intros k Hk. simpl. apply Hz6. apply elem_of_seqZ. lia.
  - rewrite <- Htot. lia.
Qed.

End BD.

(** ** Clients of the allocator interface

    A client makes a sequence of calls through the four-operation interface
    and keeps the pointers it got, each with the size it asked for, most
    recent first.  [Free i] frees the [i]-th pointer it holds, so every
    pointer freed was returned by [alloc] on the same handle and is freed
    once. *)

Inductive call : Type :=
  | Alloc (n : Z)
  | Free (i : nat).

Section Client.
Context (alloc : mem → Z → Z → option (Z * mem)).
Context (free : mem → Z → Z → option mem).

Definition step (h : Z) (st : mem * list (Z * Z)) (c : call)
  : option (mem * list (Z * Z)) :=
  let '(m, ps) := st in
  match c with
  | Alloc n =>
      '(p, m') ← alloc m h n;
      Some (m', if p =? 0 then ps else (p, n) :: ps)
  | Free i =>
      match ps !! i with
      | Some (p, _) => m' ← free m h p; Some (m', delete i ps)
      | None => Some (m, ps)
      end
  end.

Fixpoint run_calls (h : Z) (st : mem * list (Z * Z)) (cs : list call)
  : option (mem * list (Z * Z)) :=
  match cs with
  | [] => Some st
  | c :: cs' => st' ← step h st c; run_calls h st' cs'
  end.
End Client.

(** Byte ranges [(start, length)]. *)
Definition rdisj (x y : Z * Z) : Prop := x.1 + x.2 <= y.1 ∨ y.1 + y.2 <= x.1.

Fixpoint pwr (l : list (Z * Z)) : Prop :=
  match l with
  | [] => True
  | x :: l' => Forall (rdisj x) l' ∧ pwr l'
  end.

Lemma rdisj_sym x y : rdisj x y → rdisj y x.
Proof. unfold rdisj. lia. Qed.

Lemma pwr_perm l l' : l ≡ₚ l' → pwr l → pwr l'.
Proof.
  induction 1 as [|x l l' Hp IH|x y l|l l' l'' _ IH1 _ IH2]; simpl.
  - done.
  - intros [H1 H2]. split; [by rewrite <- Hp | by apply IH].
  - intros [H1 [H2 H3]]. apply Forall_cons in H1 as [H0 H1].
    split; [|done]. constructor; [|done]. by apply rdisj_sym.
  - auto.
Qed.

Lemma pwr_lookup l i j x y :
  pwr l → i ≠ j → l !! i = Some x → l !! j = Some y → rdisj x y.
Proof.
  revert i j. induction l as [|z l IH]; intros i j Hpw Hij Hi Hj; [done|].
  destruct Hpw as [Ha Hpw]. rewrite Forall_forall in Ha.
  destruct i as [|i], j as [|j]; simpl in *; simplify_eq.
  - apply Ha. by eapply list_elem_of_lookup_2.
  - apply rdisj_sym, Ha. by eapply list_elem_of_lookup_2.
  - eapply (IH i j); eauto.
Qed.

Lemma pwr_delete l i : pwr l → pwr (delete i l).
Proof.
  revert i. induction l as [|z l IH]; intros i Hpw; [by destruct i|].
  destruct Hpw as [Ha Hpw]. destruct i as [|i]; simpl; [done|].
  split; [|by apply IH]. eapply Forall_delete. done.
Qed.

(** ** Clients of the free-list allocator *)

(** A request whose size computations do not wrap. *)
Definition fl_call_ok (c : call) : Prop :=
  match c with Alloc n => FL.size_ok n | Free _ => True end.

(** The allocator's own metadata: the descriptor, and the header of every
    block, free (on the free list) or live (before its pointer). *)
Definition fl_metadata (m : mem) (a : Z) (ps : list (Z * Z)) : list (Z * Z) :=
  (a, FreeList.sizeof_Allocator)
  :: ((λ x : Z * Z, (x.1, FreeList.sizeof_block_header))
        <$> default [] (FreeList.free_blocks m a))
  ++ ((λ pn : Z * Z, (FreeList.ptr_to_block pn.1, FreeList.sizeof_block_header)) <$> ps).

(** The regions [ps] the client holds are pairwise disjoint, inside the
    arena [a, a + size), and disjoint from the metadata. *)
Definition safe (metadata : list (Z * Z)) (a size : Z) (ps : list (Z * Z)) : Prop :=
  (∀ i j x y, i ≠ j → ps !! i = Some x → ps !! j = Some y → rdisj x y) ∧
  Forall (λ x, a <= x.1 ∧ x.1 + x.2 <= a + size) ps ∧
  Forall (λ x, Forall (rdisj x) metadata) ps.

(** The pointers the client holds are the live blocks of the allocator. *)
Definition fl_owns (pn bs : Z * Z) : Prop :=
  pn.1 = bs.1 + 24 ∧ 0 < pn.2 ∧ pn.2 + 24 <= bs.2.

Definition fl_cinv (a size : Z) (m : mem) (ps : list (Z * Z)) : Prop :=
  ∃ bs L, FL.inv m a size bs ∧ L ≡ₚ FL.lives bs ∧ Forall2 fl_owns ps L.

Lemma fl_lives_app l1 l2 : FL.lives (l1 ++ l2) = FL.lives l1 ++ FL.lives l2.
Proof. apply omap_app. Qed.

Lemma fl_frees_app l1 l2 : FL.frees (l1 ++ l2) = FL.frees l1 ++ FL.frees l2.
Proof. apply omap_app. Qed.

Lemma fl_lives_taken b s need : 
  FL.lives (FL.taken b s need) = [(b, if need + 40 <=? s then need else s)].
Proof. unfold FL.taken. by destruct (need + 40 <=? s). Qed.

Lemma fl_lives_merge_prev pre b s : FL.lives (FL.merge_prev pre b s) = FL.lives pre.
Proof.
  destruct (decide (FL.ends_live pre)) as [He|He].
  - rewrite FL.merge_prev_live by done. rewrite fl_lives_app. simpl.
    by rewrite app_nil_r.
  - destruct (FL.ends_free_snoc _ He) as (pre' & p & sp & ->).
    rewrite FL.merge_prev_free, !fl_lives_app. done.
Qed.

Lemma fl_lives_freed pre b s post :
  FL.lives (FL.freed pre b s post) = FL.lives pre ++ FL.lives post.
Proof.
  unfold FL.freed. rewrite fl_lives_app, fl_lives_merge_prev. f_equal.
  by destruct post as [|[[? ?] [|]] ?].
Qed.

Lemma fl_elem_of_lives b s bs : (b, s) ∈ FL.lives bs ↔ (b, s, false) ∈ bs.
Proof.
  unfold FL.lives. rewrite list_elem_of_omap. split.
  - intros ([[b' s'] f] & Hin & Heq). destruct f; simpl in Heq; by simplify_eq.
  - intros Hin. exists (b, s, false). done.
Qed.

Lemma fl_elem_of_frees b s bs : (b, s) ∈ FL.frees bs ↔ (b, s, true) ∈ bs.
Proof.
  unfold FL.frees. rewrite list_elem_of_omap. split.
  - intros ([[b' s'] f] & Hin & Heq). destruct f; simpl in Heq; by simplify_eq.
  - intros Hin. exists (b, s, true). done.
Qed.

(** In a tiling, blocks are inside it and do not overlap. *)
Lemma fl_tiled_lives lo hi bs :
  FL.tiled lo hi bs →
  pwr (FL.lives bs) ∧
  Forall (λ x, lo <= x.1 ∧ 24 <= x.2 ∧ x.1 + x.2 <= hi) (FL.lives bs) ∧
  Forall (λ x, lo <= x.1 ∧ 24 <= x.2 ∧ x.1 + x.2 <= hi) (FL.frees bs) ∧
  Forall (λ x, Forall (rdisj x) (FL.lives bs)) (FL.frees bs).
Proof.
  revert lo. induction bs as [|[[b s] f] bs IH]; intros lo Ht.
  - simpl. split_and!; constructor.
  - simpl in Ht. destruct Ht as (-> & Hs & Ht).
    destruct (IH _ Ht) as (H1 & H2 & H3 & H4).
    pose proof (FL.tiled_le _ _ _ Ht) as Hle.
    assert (H2' : Forall (λ x, lo <= x.1 ∧ 24 <= x.2 ∧ x.1 + x.2 <= hi) (FL.lives bs)).
    { eapply Forall_impl; [apply H2|]. simpl. intros x. lia. }
    assert (H3' : Forall (λ x, lo <= x.1 ∧ 24 <= x.2 ∧ x.1 + x.2 <= hi) (FL.frees bs)).
    { eapply Forall_impl; [apply H3|]. simpl. intros x. lia. }
    destruct f.
    + change (FL.lives ((lo, s, true) :: bs)) with (FL.lives bs).
      change (FL.frees ((lo, s, true) :: bs)) with ((lo, s) :: FL.frees bs).
      split; [done|]. split; [done|]. split; [constructor; [simpl; lia | done]|].
      constructor; [|done].
      eapply Forall_impl; [apply H2|]. unfold rdisj. simpl. intros x. lia.
    + change (FL.lives ((lo, s, false) :: bs)) with ((lo, s) :: FL.lives bs).
      change (FL.frees ((lo, s, false) :: bs)) with (FL.frees bs).
      split.
      { split; [|done]. eapply Forall_impl; [apply H2|].
        unfold rdisj. simpl. intros x. lia. }
      split; [constructor; [simpl; lia | done]|]. split; [done|].
      rewrite Forall_forall in H3, H4. apply Forall_forall. intros x Hx.
      constructor; [|by apply H4].
      specialize (H3 _ Hx). unfold rdisj. simpl in *. lia.
Qed.

Lemma fl_cinv_step a size m ps c :
  fl_cinv a size m ps → fl_call_ok c →
  ∃ m' ps', step FreeList.allocator_alloc FreeList.allocator_free a (m, ps) c
            = Some (m', ps') ∧ fl_cinv a size m' ps'.
Proof.
  intros (bs & L & Hinv & HL & Hps) Hc. destruct c as [n|i]; simpl in *.
  - destruct (decide (n = 0)) as [->|Hn0].
    { exists m, ps. split; [done|]. by exists bs, L. }
    destruct Hc as [Hn Hok]. assert (0 < n) by lia.
    destruct (FL.alloc_spec _ _ _ _ n Hinv ltac:(lia) ltac:(done))
      as [[_ ->]|(pre & b & s & post & m' & -> & Hsm & Hs & -> & Hinv')].
    { exists m, ps. split; [done|]. by exists bs, L. }
    simpl. pose proof (FL.inv_pos _ _ _ _ Hinv) as Ha.
    pose proof (FL.inv_split _ _ _ _ _ _ Hinv) as (Hb & _).
    simpl in Hb. pose proof (FL.total_nonneg (a + 24) (a + 24 + FL.total pre) pre) as Htn.
    assert (0 <= FL.total pre).
    { apply FL.inv_tiled, FL.tiled_app in Hinv as [Htp _].
      pose proof (FL.tiled_le _ _ _ Htp). lia. }
    rewrite (proj2 (Z.eqb_neq (b + 24) 0)) by lia.
    exists m', ((b + 24, n) :: ps). split; [done|].
    exists (pre ++ FL.taken b s (FL.need_of n) ++ post),
           ((b, if FL.need_of n + 40 <=? s then FL.need_of n else s) :: L).
    split; [done|]. split.
    + rewrite !fl_lives_app, fl_lives_taken. simpl.
      rewrite <- Permutation_middle. constructor.
      rewrite HL, fl_lives_app. done.
    + constructor; [|done]. unfold fl_owns. simpl.
      destruct (FL.need_of_bounds n ltac:(lia) ltac:(done)) as (_ & Hnb & _).
      destruct (FL.need_of n + 40 <=? s); lia.
  - destruct (ps !! i) as [[p n]|] eqn:Hi.
    + destruct (Forall2_lookup_l _ _ _ _ _ Hps Hi) as ([b s] & HLi & Hown).
      destruct Hown as (Hp & Hn & Hns). simpl in Hp, Hn, Hns. subst p.
      assert (Hin : (b, s, false) ∈ bs).
      { apply fl_elem_of_lives. rewrite <- HL. by eapply list_elem_of_lookup_2. }
      destruct (list_elem_of_split _ _ Hin) as (pre & post & ->).
      destruct (FL.free_spec _ _ _ _ _ _ _ Hinv) as (m' & Hfree & Hinv').
      rewrite Hfree. simpl. exists m', (delete i ps). split; [done|].
      exists (FL.freed pre b s post), (delete i L). split; [done|]. split.
      * rewrite fl_lives_freed. rewrite fl_lives_app in HL.
        change (FL.lives ((b, s, false) :: post)) with ((b, s) :: FL.lives post) in HL.
        rewrite <- (take_drop_middle L i (b, s)) in HL by done.
        apply Permutation_app_inv in HL.
        rewrite delete_take_drop. done.
      * by apply Forall2_delete.
    + exists m, ps. split; [done|]. by exists bs, L.
Qed.

Lemma fl_cinv_run a size m ps cs :
  fl_cinv a size m ps → Forall fl_call_ok cs →
  ∃ m' ps', run_calls FreeList.allocator_alloc FreeList.allocator_free a (m, ps) cs
            = Some (m', ps') ∧ fl_cinv a size m' ps'.
Proof.
  intros Hinv Hcs. revert m ps Hinv.
  induction Hcs as [|c cs Hc _ IH]; intros m ps Hinv; cbn [run_calls].
  - by exists m, ps.
  - destruct (fl_cinv_step _ _ _ _ c Hinv Hc) as (m1 & ps1 & -> & Hinv1).
    rewrite bind_Some_eq. by apply IH.
Qed.

Lemma fl_cinv_safe a size m ps :
  fl_cinv a size m ps → safe (fl_metadata m a ps) a size ps.
Proof.
  intros (bs & L & Hinv & HL & Hps).
  pose proof (FL.inv_pos _ _ _ _ Hinv) as Ha.
  destruct (fl_tiled_lives _ _ _ (FL.inv_tiled _ _ _ _ Hinv)) as (Hpw & Hlv & Hfr & Hcross).
  assert (HpwL : pwr L) by (by eapply pwr_perm).
  assert (HlvL : Forall (λ x, a + 24 <= x.1 ∧ 24 <= x.2 ∧ x.1 + x.2 <= a + size) L)
    by (by rewrite HL).
  split; [|split].
  - intros i j [p n] [q n'] Hij Hi Hj.
    destruct (Forall2_lookup_l _ _ _ _ _ Hps Hi) as ([b s] & HLi & (Hp & Hn & Hns)).
    destruct (Forall2_lookup_l _ _ _ _ _ Hps Hj) as ([b' s'] & HLj & (Hq & Hn' & Hns')).
    pose proof (pwr_lookup _ _ _ _ _ HpwL Hij HLi HLj) as Hd.
    unfold rdisj in *. simpl in *. lia.
  - apply Forall_forall. intros [p n] Hin.
    apply list_elem_of_lookup in Hin as [i Hi].
    destruct (Forall2_lookup_l _ _ _ _ _ Hps Hi) as ([b s] & HLi & (Hp & Hn & Hns)).
    rewrite Forall_forall in HlvL.
    specialize (HlvL _ (list_elem_of_lookup_2 _ _ _ HLi)). simpl in *. lia.
  - apply Forall_forall. intros [p n] Hin.
    apply list_elem_of_lookup in Hin as [i Hi].
    destruct (Forall2_lookup_l _ _ _ _ _ Hps Hi) as ([b s] & HLi & (Hp & Hn & Hns)).
    simpl in Hp, Hn, Hns.
    pose proof (list_elem_of_lookup_2 _ _ _ HLi) as HLin.
    rewrite Forall_forall in HlvL. pose proof (HlvL _ HLin) as Hbr. simpl in Hbr.
    unfold fl_metadata. rewrite (FL.free_blocks_spec _ _ _ _ Hinv). simpl.
    constructor; [unfold rdisj, FreeList.sizeof_Allocator; simpl; lia|].
    apply Forall_app. split.
    + rewrite Forall_fmap. apply Forall_forall. intros [b' s'] Hf.
      rewrite Forall_forall in Hcross, Hfr.
      pose proof (Hcross _ Hf) as Hc. rewrite Forall_forall in Hc.
      rewrite HL in HLin. specialize (Hc _ HLin). specialize (Hfr _ Hf).
      unfold rdisj, FreeList.sizeof_block_header in *. simpl in *. lia.
    + rewrite Forall_fmap. apply Forall_forall. intros [q n'] Hq.
      apply list_elem_of_lookup in Hq as [j Hj].
      destruct (Forall2_lookup_l _ _ _ _ _ Hps Hj) as ([b' s'] & HLj & (Hq & Hn' & Hns')).
      simpl in Hq, Hn', Hns'.
      unfold rdisj, FreeList.ptr_to_block, FreeList.sizeof_block_header. simpl.
      destruct (decide (i = j)) as [->|Hij].
      * simplify_eq. lia.
      * pose proof (pwr_lookup _ _ _ _ _ HpwL Hij HLi HLj) as Hd.
        pose proof (HlvL _ (list_elem_of_lookup_2 _ _ _ HLj)) as Hbr'.
        unfold rdisj in Hd. simpl in *. lia.
Qed.

(** ** Clients of the buddy allocator *)

Definition bd_call_ok (c : call) : Prop :=
  match c with Alloc n => BD.size_ok n | Free _ => True end.

(** The allocator's own metadata: the descriptor, the [next] pointer at the
    start of every free block, and the order tag before every pointer the
    client holds. *)
Definition bd_metadata (m : mem) (A : Z) (ps : list (Z * Z)) : list (Z * Z) :=
  (A, Buddy.sizeof_Allocator)
  :: ((λ b : Z, (b, 8)) <$> concat (default [] (Buddy.free_lists m A)))
  ++ ((λ pn : Z * Z, (pn.1 - Buddy.sizeof_uint16_t, Buddy.sizeof_uint16_t)) <$> ps).

Definition bd_owns (pn bk : Z * Z) : Prop :=
  pn.1 = bk.1 + 2 ∧ 0 < pn.2 ∧ pn.2 + 2 <= 2 ^ bk.2.

Definition bd_cinv (A size : Z) (m : mem) (ps : list (Z * Z)) : Prop :=
  ∃ lo hi mx bl, BD.inv m A lo hi mx bl ∧ A + 544 <= lo ∧ hi <= A + size ∧
                 Forall2 bd_owns ps (BD.lives bl).

Lemma bd_elem_of_lives b k bl : (b, k) ∈ BD.lives bl ↔ (b, k, false) ∈ bl.
Proof.
  unfold BD.lives. rewrite list_elem_of_omap. split.
  - intros ([[b' k'] f] & Hin & Heq). destruct f; simpl in Heq; by simplify_eq.
  - intros Hin. exists (b, k, false). done.
Qed.

Lemma bd_lives_lookup_split bl i b k :
  BD.lives bl !! i = Some (b, k) →
  ∃ bl1 bl2, bl = bl1 ++ (b, k, false) :: bl2 ∧ length (BD.lives bl1) = i.
Proof.
  revert i. induction bl as [|[[b' k'] f] bl IH]; intros i Hi; [done|].
  destruct f.
  - rewrite BD.lives_cons_free in Hi.
    destruct (IH _ Hi) as (bl1 & bl2 & -> & Hlen).
    exists ((b', k', true) :: bl1), bl2. split; [done|].
    by rewrite BD.lives_cons_free.
  - rewrite BD.lives_cons_live in Hi. destruct i as [|i]; simpl in Hi.
    + simplify_eq. exists [], bl. done.
    + destruct (IH _ Hi) as (bl1 & bl2 & -> & Hlen).
      exists ((b', k', false) :: bl1), bl2. split; [done|].
      rewrite BD.lives_cons_live. simpl. by rewrite Hlen.
Qed.

Lemma bd_cinv_step A size m ps c :
  bd_cinv A size m ps → bd_call_ok c →
  ∃ m' ps', step Buddy.allocator_alloc Buddy.allocator_free A (m, ps) c
            = Some (m', ps') ∧ bd_cinv A size m' ps'.
Proof.
  intros (lo & hi & mx & bl & Hinv & Hlo & Hhi & Hps) Hc.
  destruct c as [n|i]; simpl in *.
  - destruct (decide (n = 0)) as [->|Hn0].
    { exists m, ps. split; [done|]. by exists lo, hi, mx, bl. }
    destruct Hc as [Hn Hok]. assert (0 < n) by lia.
    destruct (BD.bd_alloc_spec _ _ _ _ _ _ n Hinv ltac:(lia) ltac:(done))
      as (k & _ & Hk & Hnk & _ & [[_ ->]|(_ & _ & b & m' & bl' & -> & Hinv' & Hl)]).
    { exists m, ps. split; [done|]. by exists lo, hi, mx, bl. }
    simpl.
    assert (Hb : A + 544 <= b).
    { pose proof (BD.inv_blocks _ _ _ _ _ _ Hinv') as Hok'.
      apply Forall_cons in Hok' as [(_ & ? & _) _]. simpl in *. lia. }
    pose proof (BD.inv_pos _ _ _ _ _ _ Hinv) as HA.
    rewrite (proj2 (Z.eqb_neq (b + 2) 0)) by lia.
    exists m', ((b + 2, n) :: ps). split; [done|].
    exists lo, hi, mx, ((b, k, false) :: bl'). split; [done|]. split; [done|].
    split; [done|]. rewrite BD.lives_cons_live, Hl.
    constructor; [|done]. unfold bd_owns. simpl. lia.
  - destruct (ps !! i) as [[p n]|] eqn:Hi.
    + destruct (Forall2_lookup_l _ _ _ _ _ Hps Hi) as ([b k] & HLi & Hown).
      destruct Hown as (Hp & Hn & Hns). simpl in Hp, Hn, Hns. subst p.
      destruct (bd_lives_lookup_split _ _ _ _ HLi) as (bl1 & bl2 & -> & Hlen).
      destruct (BD.bd_free_spec _ _ _ _ _ _ _ _ _ Hinv) as (m' & bl' & Hfree & Hinv' & Hl).
      rewrite Hfree. simpl. exists m', (delete i ps). split; [done|].
      exists lo, hi, mx, bl'. split; [done|]. split; [done|]. split; [done|].
      rewrite Hl. rewrite BD.lives_app in Hps |- *.
      rewrite BD.lives_cons_live in Hps.
      replace (BD.lives bl1 ++ BD.lives bl2)
        with (delete i (BD.lives bl1 ++ (b, k) :: BD.lives bl2)).
      * by apply Forall2_delete.
      * rewrite <- Hlen. rewrite delete_middle. done.
    + exists m, ps. split; [done|]. by exists lo, hi, mx, bl.
Qed.

Lemma bd_cinv_run A size m ps cs :
  bd_cinv A size m ps → Forall bd_call_ok cs →
  ∃ m' ps', run_calls Buddy.allocator_alloc Buddy.allocator_free A (m, ps) cs
            = Some (m', ps') ∧ bd_cinv A size m' ps'.
Proof.
  intros Hinv Hcs. revert m ps Hinv.
  induction Hcs as [|c cs Hc _ IH]; intros m ps Hinv; cbn [run_calls].
  - by exists m, ps.
  - destruct (bd_cinv_step _ _ _ _ c Hinv Hc) as (m1 & ps1 & -> & Hinv1).
    rewrite bind_Some_eq. by apply IH.
Qed.

(** The ranges of the live blocks do not overlap. *)
Lemma bd_pw_lives bl :
  BD.pw bl → pwr ((λ bk : Z * Z, (bk.1, 2 ^ bk.2)) <$> BD.lives bl).
Proof.
  induction bl as [|[[b k] f] bl IH]; [done|].
  intros [Ha Hpw]. specialize (IH Hpw). destruct f.
  - by rewrite BD.lives_cons_free.
  - rewrite BD.lives_cons_live. simpl. split; [|done].
    rewrite Forall_fmap. apply Forall_forall. intros [b' k'] Hin.
    apply bd_elem_of_lives in Hin. rewrite Forall_forall in Ha.
    specialize (Ha _ Hin). unfold BD.apart, rdisj in *. simpl in *. lia.
Qed.

Lemma bd_free_lists_spec m A lo hi mx bl :
  BD.inv m A lo hi mx bl →
  Buddy.free_lists m A = Some (BD.fl_of bl <$> seqZ 0 64).
Proof.
  intros Hinv. unfold Buddy.free_lists. apply mapM_Some.
  apply Forall2_fmap_r, Forall_Forall2_diag, Forall_forall.
  intros k Hk. apply elem_of_seqZ in Hk.
  apply (BD.free_list_spec _ _ _ _ _ _ _ Hinv). lia.
Qed.

Lemma bd_cinv_safe A size m ps :
  bd_cinv A size m ps → safe (bd_metadata m A ps) A size ps.
Proof.
  intros (lo & hi & mx & bl & Hinv & Hlo & Hhi & Hps).
  pose proof (BD.inv_pos _ _ _ _ _ _ Hinv) as HA.
  pose proof (BD.inv_blocks _ _ _ _ _ _ Hinv) as Hok.
  pose proof (BD.inv_pw _ _ _ _ _ _ Hinv) as Hpw.
  pose proof (bd_pw_lives _ Hpw) as Hpwl.
  rewrite Forall_forall in Hok.
  assert (Hlive : ∀ i p n, ps !! i = Some (p, n) →
            ∃ b k, BD.lives bl !! i = Some (b, k) ∧ (b, k, false) ∈ bl ∧
                   p = b + 2 ∧ 0 < n ∧ n + 2 <= 2 ^ k ∧
                   4 <= k ∧ lo <= b ∧ b + 2 ^ k <= hi).
  { intros i p n Hi.
    destruct (Forall2_lookup_l _ _ _ _ _ Hps Hi) as ([b k] & HLi & (Hp & Hn & Hns)).
    exists b, k. split; [done|].
    assert (Hin : (b, k, false) ∈ bl).
    { apply bd_elem_of_lives. by eapply list_elem_of_lookup_2. }
    split; [done|]. destruct (Hok _ Hin) as (? & ? & ? & _). simpl in *.
    split_and!; (done || lia). }
  assert (Hpair : ∀ i j p n q n', i ≠ j → ps !! i = Some (p, n) → ps !! j = Some (q, n') →
            ∃ b k b' k', p = b + 2 ∧ q = b' + 2 ∧ n + 2 <= 2 ^ k ∧ n' + 2 <= 2 ^ k' ∧
                         (b + 2 ^ k <= b' ∨ b' + 2 ^ k' <= b)).
  { intros i j p n q n' Hij Hi Hj.
    destruct (Hlive _ _ _ Hi) as (b & k & HLi & _ & -> & _ & ? & _).
    destruct (Hlive _ _ _ Hj) as (b' & k' & HLj & _ & -> & _ & ? & _).
    exists b, k, b', k'. split_and!; try done.
    apply (pwr_lookup _ i j (b, 2 ^ k) (b', 2 ^ k') Hpwl Hij);
      rewrite list_lookup_fmap; [by rewrite HLi | by rewrite HLj]. }
  split; [|split].
  - intros i j [p n] [q n'] Hij Hi Hj.
    destruct (Hpair _ _ _ _ _ _ Hij Hi Hj) as (b & k & b' & k' & -> & -> & ? & ? & ?).
    unfold rdisj. simpl. lia.
  - apply Forall_forall. intros [p n] Hin.
    apply list_elem_of_lookup in Hin as [i Hi].
    destruct (Hlive _ _ _ Hi) as (b & k & _ & _ & -> & ? & ? & ? & ? & ?).
    simpl. lia.
  - apply Forall_forall. intros [p n] Hin.
    apply list_elem_of_lookup in Hin as [i Hi].
    destruct (Hlive _ _ _ Hi) as (b & k & HLi & Hbin & -> & ? & ? & ? & ? & ?).
    unfold bd_metadata. rewrite (bd_free_lists_spec _ _ _ _ _ _ Hinv).
    cbn [default].
    constructor; [unfold rdisj, Buddy.sizeof_Allocator; simpl; lia|].
    apply Forall_app. split.
    + rewrite Forall_fmap. apply Forall_forall. intros b' Hb'.
      apply list_elem_of_In, in_concat in Hb' as (l & Hl & Hb').
      apply list_elem_of_In in Hl, Hb'.
      apply list_elem_of_fmap in Hl as (k' & -> & _).
      apply BD.elem_of_fl_of in Hb'.
      destruct (BD.pw_elem _ _ _ Hpw Hbin Hb') as [?|Hap]; [done|].
      destruct (Hok _ Hb') as (? & _). simpl in *.
      pose proof (BD.pow2_ge16 k' ltac:(lia)).
      unfold BD.apart, rdisj in *. simpl in *. lia.
    + rewrite Forall_fmap. apply Forall_forall. intros [q n'] Hq.
      apply list_elem_of_lookup in Hq as [j Hj].
      unfold rdisj, Buddy.sizeof_uint16_t. simpl.
      destruct (decide (i = j)) as [->|Hij].
      * simplify_eq. lia.
      * destruct (Hpair _ _ _ _ _ _ Hij Hi Hj)
          as (b0 & k0 & b' & k' & Hb0 & -> & ? & ? & ?).
        assert (b0 = b) as -> by lia.
        destruct (Hlive _ _ _ Hj) as (b1 & k1 & _ & _ & Hb1 & ? & ? & ? & _).
        lia.
Qed.

(** ** A failed [alloc] changes nothing *)

Section WhileResult.
Context {St R : Type} (body : St → St + R).

(** The result of a loop is the exit of a turn from a state that the turns
    before it reached. *)
Lemma run_result (I : St → Prop) k s r :
  (∀ s s', I s → body s = inl s' → I s') → I s →
  run body k s = inr r → ∃ s', I s' ∧ body s' = inr r.
Proof.
  intros Hstep. revert s. induction k as [|k IH]; intros s Hs; simpl; [done|].
  destruct (body s) as [s'|r'] eqn:E.
  - intros H. apply (IH s'); [by eapply Hstep | done].
  - intros [= <-]. eauto.
Qed.

Lemma while_result (I : St → Prop) s r :
  (∀ s s', I s → body s = inl s' → I s') → I s →
  while body s = Some r → ∃ s', I s' ∧ body s' = inr r.
Proof.
  intros Hstep Hs. unfold while. rewrite while_pow_run.
  destruct (run body (2 ^ 64) s) as [s'|r'] eqn:E; [done|].
  intros [= <-]. by eapply run_result.
Qed.
End WhileResult.

Lemma fl_alloc_null_unchanged m a n m' :
  FreeList.allocator_alloc m a n = Some (0, m') → m' = m.
Proof.
  unfold FreeList.allocator_alloc.
  destruct (n =? 0); [by intros [= <-]|].
  intros H.
  apply (while_result _ (λ st, 0 <= st.2)) in H as ([pp p] & Hp & Hb).
  - simpl in Hp. unfold FreeList.alloc_body in Hb.
    destruct (p =? 0); [by simplify_eq|].
    destruct (_ && _); [|done].
    unfold FreeList.alloc_take, FreeList.sizeof_block_header in Hb.
    injection Hb as Hb _. lia.
  - intros [pp p] [pp' p'] _. unfold FreeList.alloc_body.
    destruct (p =? 0); [done|]. destruct (_ && _); [done|].
    intros [= <- <-]. simpl. apply load8_range.
  - simpl. apply load8_range.
Qed.

Lemma bd_alloc_null_unchanged m A n m' :
  Buddy.allocator_alloc m A n = Some (0, m') → m' = m.
Proof.
  unfold Buddy.allocator_alloc.
  destruct (n =? 0); [by intros [= <-]|].
  destruct (Buddy.order_for _ _) as [k|]; [|done]. simpl.
  destruct (_ <? k); [by intros [= <-]|].
  destruct (while (Buddy.find_body m A) k) as [cur|]; [|done]. simpl.
  destruct (_ <? cur); [by intros [= <-]|].
  unfold Buddy.list_pop.
  pose proof (load8_range (Buddy.free_lists_of A cur) m) as Hr.
  destruct (negb _); simpl;
    (destruct (while _ _); [|done]); simpl; intros [= Hz _];
    unfold Buddy.sizeof_uint16_t in Hz; lia.
Qed.

(** ** States a client can reach *)

(** [create] over [size] bytes at [a] that hold at least the descriptor and
    one header, then the calls [cs], none with a size whose arithmetic
    wraps, lead to the memory [m] with the client holding [ps]. *)
Definition fl_reach (m0 : mem) (a size : Z) (cs : list call)
    (m : mem) (ps : list (Z * Z)) : Prop :=
  0 < a ∧ a + size <= 2 ^ 64 ∧ 48 <= size ∧ Forall fl_call_ok cs ∧
  run_calls FreeList.allocator_alloc FreeList.allocator_free a
      ((FreeList.allocator_create m0 a size).2, []) cs = Some (m, ps).

(** The same for the buddy allocator, over an arena that holds at least the
    descriptor and on which [create] succeeds. *)
Definition bd_reach (m0 : mem) (A size : Z) (cs : list call)
    (m : mem) (ps : list (Z * Z)) : Prop :=
  0 < A ∧ A + size <= 2 ^ 64 ∧ 544 <= size ∧ Forall bd_call_ok cs ∧
  ∃ m1, Buddy.allocator_create m0 A size = Some (A, m1) ∧
        run_calls Buddy.allocator_alloc Buddy.allocator_free A (m1, []) cs = Some (m, ps).

Lemma fl_reach_cinv m0 a size cs m ps :
  fl_reach m0 a size cs m ps → fl_cinv a size m ps.
Proof.
  intros (Ha & Hend & Hsz & Hcs & Hrun).
  destruct (FL.create_inv m0 a size Ha Hend Hsz) as (m1 & Hc & Hinv).
  rewrite Hc in Hrun. simpl in Hrun.
  destruct (fl_cinv_run a size m1 [] cs) as (m' & ps' & Hrun' & Hci); [|done|].
  - exists [(a + 24, size - 24, true)], []. split; [done|]. split; [done|]. constructor.
  - rewrite Hrun in Hrun'. by simplify_eq.
Qed.

Lemma bd_reach_cinv m0 A size cs m ps :
  bd_reach m0 A size cs m ps → bd_cinv A size m ps.
Proof.
  intros (HA & Hend & Hsz & Hcs & m1 & Hc & Hrun).
  assert (H64 : (2:Z) ^ 64 = 18446744073709551616) by done.
  assert (Hbig : 608 <= size).
  { destruct (decide (608 <= size)) as [?|Hn]; [done|].
    destruct (BD.create_fail m0 A size) as (mf & Hf); [lia | |].
    - rewrite wrap_small; lia.
    - rewrite Hf in Hc. simplify_eq. lia. }
  destruct (BD.create_spec m0 A size HA Hend Hbig)
    as (m1' & mx & Hc' & Hmx & Hp & _ & Hinv).
  rewrite Hc' in Hc. simplify_eq.
  destruct (bd_cinv_run A size m1 [] cs) as (m' & ps' & Hrun' & Hci); [|done|].
  - eexists _, _, mx, _. split; [exact Hinv|].
    pose proof (BD.pow2_pos mx ltac:(lia)) as Hpm.
    pose proof (Z.mod_pos_bound (A + 544 + (2 ^ mx - 1)) (2 ^ mx) Hpm) as Hmod.
    pose proof (Z.mod_pos_bound
                  (size - 544 - (BD.aligned_of A mx - (A + 544))) (2 ^ mx) Hpm) as Hmod2.
    rewrite BD.seed_lives.
    unfold BD.usable_of, BD.aligned_of in *.
    split; [lia|]. split; [lia|]. constructor.
  - rewrite Hrun in Hrun'. by simplify_eq.
Qed.

(** ** The properties of the allocators *)

Lemma fl_hdrs_elem m bs tl b s (f : bool) :
  FL.hdrs m bs tl → (b, s, f) ∈ bs →
  load 8 (FreeList.bsize b) m = s ∧ load 4 (FreeList.bfree b) m = (if f then 1 else 0).
Proof.
  induction bs as [|[[b' s'] f'] bs IH]; [by intros _ ?%elem_of_nil|].
  simpl. intros [(H1 & H2 & _) Hh] Hin.
  apply elem_of_cons in Hin as [?|Hin]; [by simplify_eq | by apply IH].
Qed.

Lemma fl_small_frees need bs :
  FL.small need bs ↔ Forall (λ x : Z * Z, x.2 < need) (FL.frees bs).
Proof.
  unfold FL.small. induction bs as [|[[b s] f] bs IH].
  - split; constructor.
  - destruct f.
    + change (FL.frees ((b, s, true) :: bs)) with ((b, s) :: FL.frees bs).
      rewrite !Forall_cons, IH. simpl. tauto.
    + change (FL.frees ((b, s, false) :: bs)) with (FL.frees bs).
      rewrite Forall_cons, IH. simpl. split; [tauto|]. intros H. split; [done|tauto].
Qed.

(** C1: for both allocators, after [create] and any sequence of [alloc]
    and [free] calls that keeps the preconditions (every pointer freed is one
    the client holds from [alloc] on this handle, freed once; no request size
    whose arithmetic wraps), the calls all return, and the regions the client
    holds are pairwise disjoint, lie inside the arena, and are disjoint from
    the allocator's metadata (descriptor, block headers or order tags, free
    list links). *)
Theorem live_regions_never_overlap (m0 : mem) (a size : Z) (cs : list call) :
  0 < a → a + size <= 2 ^ 64 →
  (48 <= size → Forall fl_call_ok cs →
   ∃ m ps,
     run_calls FreeList.allocator_alloc FreeList.allocator_free a
         ((FreeList.allocator_create m0 a size).2, []) cs = Some (m, ps) ∧
     safe (fl_metadata m a ps) a size ps) ∧
  (608 <= size → Forall bd_call_ok cs →
   ∃ m1 m ps,
     Buddy.allocator_create m0 a size = Some (a, m1) ∧
     run_calls Buddy.allocator_alloc Buddy.allocator_free a (m1, []) cs = Some (m, ps) ∧
     safe (bd_metadata m a ps) a size ps).
Proof.
  intros Ha Hend. split.
  - intros Hsz Hcs.
    destruct (FL.create_inv m0 a size Ha Hend Hsz) as (m1 & Hc & Hinv).
    rewrite Hc. simpl.
    destruct (fl_cinv_run a size m1 [] cs) as (m & ps & Hrun & Hci); [|done|].
    + exists [(a + 24, size - 24, true)], []. split; [done|]. split; [done|]. constructor.
    + exists m, ps. split; [done|]. by apply fl_cinv_safe.
  - intros Hsz Hcs.
    destruct (BD.create_spec m0 a size Ha Hend Hsz) as (m1 & mx & Hc & _).
    assert (Hr : ∃ m ps, run_calls Buddy.allocator_alloc Buddy.allocator_free a (m1, []) cs
                         = Some (m, ps) ∧ bd_cinv a size m ps).
    { apply bd_cinv_run; [|done].
      apply (bd_reach_cinv m0 a size []). split; [done|]. split; [done|].
      split; [lia|]. split; [constructor|]. exists m1. done. }
    destruct Hr as (m & ps & Hrun & Hci).
    exists m1, m, ps. split; [done|]. split; [done|]. by apply bd_cinv_safe.
Qed.

Lemma live_regions_never_overlap_witness :
  (∃ m ps,
     run_calls FreeList.allocator_alloc FreeList.allocator_free 65536
         ((FreeList.allocator_create ∅ 65536 4096).2, [])
         [Alloc 100; Alloc 40; Free 1; Alloc 8; Free 0] = Some (m, ps) ∧
     safe (fl_metadata m 65536 ps) 65536 4096 ps) ∧
  (∃ m1 m ps,
     Buddy.allocator_create ∅ 65536 4096 = Some (65536, m1) ∧
     run_calls Buddy.allocator_alloc Buddy.allocator_free 65536 (m1, [])
         [Alloc 100; Alloc 40; Free 1; Alloc 8; Free 0] = Some (m, ps) ∧
     safe (bd_metadata m 65536 ps) 65536 4096 ps).
Proof.
  assert (H64 : (2:Z) ^ 64 = 18446744073709551616) by done.
  assert (H63 : (2:Z) ^ 63 = 9223372036854775808) by done.
  destruct (live_regions_never_overlap ∅ 65536 4096
              [Alloc 100; Alloc 40; Free 1; Alloc 8; Free 0]) as [H1 H2];
    [lia | lia |].
  split.
  - apply H1; [lia|]. repeat constructor; unfold FL.size_ok; simpl; lia.
  - apply H2; [lia|]. repeat constructor; unfold BD.size_ok; simpl; lia.
Defined.

(** C8: for both allocators, an [alloc] that returns the failure value
    [NULL] leaves the whole memory, descriptor, headers and free lists
    included, as it was: a failed request splits nothing. *)
Theorem alloc_failure_leaves_state (m : mem) (h n : Z) (m' : mem) :
  (FreeList.allocator_alloc m h n = Some (0, m') → m' = m) ∧
  (Buddy.allocator_alloc m h n = Some (0, m') → m' = m).
Proof.
  split; [apply fl_alloc_null_unchanged | apply bd_alloc_null_unchanged].
Qed.

Lemma alloc_failure_leaves_state_witness :
  let mf := (FreeList.allocator_create ∅ 65536 4096).2 in
  let mb := default ∅ (snd <$> Buddy.allocator_create ∅ 65536 4096) in
  (fst <$> FreeList.allocator_alloc mf 65536 5000 = Some 0 ∧
   snd <$> FreeList.allocator_alloc mf 65536 5000 = Some mf) ∧
  (fst <$> Buddy.allocator_alloc mb 65536 5000 = Some 0 ∧
   snd <$> Buddy.allocator_alloc mb 65536 5000 = Some mb).
Proof.
  intros mf mb. split.
  - assert (E0 : fst <$> FreeList.allocator_alloc mf 65536 5000 = Some 0)
      by (vm_compute; reflexivity).
    split; [exact E0|].
    destruct (FreeList.allocator_alloc mf 65536 5000) as [[p m']|] eqn:E;
      [|discriminate E0].
    injection E0 as ->. cbn [fmap option_fmap option_map snd]. f_equal.
    exact (proj1 (alloc_failure_leaves_state mf 65536 5000 m') E).
  - assert (E0 : fst <$> Buddy.allocator_alloc mb 65536 5000 = Some 0)
      by (vm_compute; reflexivity).
    split; [exact E0|].
    destruct (Buddy.allocator_alloc mb 65536 5000) as [[p m']|] eqn:E;
      [|discriminate E0].
    injection E0 as ->. cbn [fmap option_fmap option_map snd]. f_equal.
    exact (proj2 (alloc_failure_leaves_state mb 65536 5000 m') E).
Defined.

(** C9: for both allocators, in every state a client can reach, [alloc]
    with a size whose arithmetic does not wrap returns; it returns [NULL]
    exactly when the size is 0 or no free block is large enough (free-list:
    no block on the free list has the required size; buddy: the required
    order is above [max_order] or the free lists of all orders from it up to
    [max_order] are empty); otherwise it returns a pointer to a usable region,
    inside the arena, of at least the requested size (free-list: the block
    size in the header less the header; buddy: [2^k] less the tag, for the
    tagged order [k]). *)
Theorem alloc_returns_region_or_null
    (m0 m : mem) (h size n : Z) (cs : list call) (ps : list (Z * Z)) :
  (fl_reach m0 h size cs m ps → FL.size_ok n →
   ∃ p m' fr,
     FreeList.allocator_alloc m h n = Some (p, m') ∧
     FreeList.free_blocks m h = Some fr ∧
     (p = 0 ↔ n = 0 ∨ Forall (λ x : Z * Z, x.2 < FL.need_of n) fr) ∧
     (p ≠ 0 →
      let usable := load 8 (FreeList.bsize (FreeList.ptr_to_block p)) m'
                    - FreeList.sizeof_block_header in
      n <= usable ∧ h <= p ∧ p + usable <= h + size)) ∧
  (bd_reach m0 h size cs m ps → BD.size_ok n →
   ∃ p m' k,
     Buddy.allocator_alloc m h n = Some (p, m') ∧
     Buddy.order_for n (Buddy.load_int (Buddy.min_order_of h) m) = Some k ∧
     (p = 0 ↔ n = 0 ∨ Buddy.load_int (Buddy.max_order_of h) m < k ∨
              ∀ j, k <= j <= Buddy.load_int (Buddy.max_order_of h) m →
                   Buddy.free_list m h j = Some []) ∧
     (p ≠ 0 →
      let usable := 2 ^ load 2 (p - Buddy.sizeof_uint16_t) m' - Buddy.sizeof_uint16_t in
      load 2 (p - Buddy.sizeof_uint16_t) m' = k ∧
      n <= usable ∧ h <= p ∧ p + usable <= h + size)).
Proof.
  split.
  - intros Hr Hok. apply fl_reach_cinv in Hr as (bs & L & Hinv & _ & _).
    pose proof (FL.free_blocks_spec _ _ _ _ Hinv) as Hfr.
    pose proof (FL.inv_pos _ _ _ _ Hinv) as Ha.
    destruct (decide (n = 0)) as [->|Hn0].
    { exists 0, m, (FL.frees bs). split; [done|]. split; [done|].
      split; [split; [by left | done] | done]. }
    assert (Hn : 0 < n) by (destruct Hok; lia).
    destruct (FL.need_of_bounds n Hn Hok) as (_ & Hnb & _).
    destruct (FL.alloc_spec _ _ _ _ n Hinv Hn Hok)
      as [[Hsm Ha0]|(pre & b & s & post & m' & -> & Hsm & Hs & Hal & Hinv')].
    + exists 0, m, (FL.frees bs). split; [done|]. split; [done|].
      split; [|done]. split; [|done]. intros _. right. by apply fl_small_frees.
    + exists (b + 24), m', (FL.frees (pre ++ (b, s, true) :: post)).
      split; [done|]. split; [done|].
      pose proof (FL.inv_split _ _ _ _ _ _ Hinv) as (Hb & _ & _ & Hbs & _ & Htp & _).
      simpl in Hb, Hbs. pose proof (FL.tiled_le _ _ _ Htp) as Hle.
      split.
      * split; [lia|]. intros [?|Hall]; [done|].
        rewrite fl_frees_app, Forall_app in Hall. destruct Hall as [_ Hall].
        change (FL.frees ((b, s, true) :: post)) with ((b, s) :: FL.frees post) in Hall.
        apply Forall_cons in Hall as [Hall _]. simpl in Hall. lia.
      * intros _. unfold FreeList.ptr_to_block, FreeList.sizeof_block_header.
        replace (b + 24 - 24) with b by lia.
        set (sz := if FL.need_of n + 40 <=? s then FL.need_of n else s).
        assert (Hin : (b, sz, false) ∈ pre ++ FL.taken b s (FL.need_of n) ++ post).
        { rewrite !elem_of_app. right. left. unfold FL.taken, sz.
          destruct (FL.need_of n + 40 <=? s); apply list_elem_of_here. }
        destruct (fl_hdrs_elem _ _ _ _ _ _ (FL.inv_hdrs _ _ _ _ Hinv') Hin) as [Hsz _].
        rewrite Hsz. unfold sz. destruct (Z.leb_spec (FL.need_of n + 40) s); lia.
  - intros Hr Hok.
    apply bd_reach_cinv in Hr as (lo & hi & mx & bl & Hinv & Hlo & Hhi & _).
    rewrite (BD.inv_min _ _ _ _ _ _ Hinv), (BD.inv_max _ _ _ _ _ _ Hinv).
    pose proof (BD.inv_mx _ _ _ _ _ _ Hinv) as Hmx.
    pose proof (BD.inv_pos _ _ _ _ _ _ Hinv) as HA.
    destruct (decide (n = 0)) as [->|Hn0].
    { destruct (BD.order_for_spec 1) as (k1 & _); [lia | split; [lia | done] |].
      exists 0, m. 
      assert (Ho : ∃ k, Buddy.order_for 0 4 = Some k).
      { exists 4. vm_compute. reflexivity. }
      destruct Ho as (k & Ho). exists k. split; [done|]. split; [done|].
      split; [split; [by left | done] | done]. }
    assert (Hn : 0 < n) by (destruct Hok; lia).
    destruct (BD.bd_alloc_spec _ _ _ _ _ _ n Hinv Hn Hok)
      as (k & Hof & Hk & Hnk & _ & [[Hno Ha0]|(Hkm & (j & Hj & Hne) & b & m' & bl' & Hal & Hinv' & _)]).
    + exists 0, m, k. split; [done|]. split; [done|]. split; [|done].
      split; [|done]. intros _. right. destruct Hno as [?|Hno]; [by left|].
      right. intros j Hj. rewrite (BD.free_list_spec _ _ _ _ _ _ j Hinv) by lia.
      by rewrite Hno.
    + exists (b + 2), m', k. split; [done|]. split; [done|].
      pose proof (BD.inv_blocks _ _ _ _ _ _ Hinv') as Hok'.
      apply Forall_cons in Hok' as [(_ & Hb1 & Hb2 & _) _]. simpl in Hb1, Hb2.
      pose proof (BD.inv_tags _ _ _ _ _ _ Hinv') as Ht.
      apply Forall_cons in Ht as [Ht _]. specialize (Ht eq_refl). simpl in Ht.
      split.
      * split; [lia|]. intros [?|[?|Hall]]; [done | lia |].
        specialize (Hall j Hj).
        rewrite (BD.free_list_spec _ _ _ _ _ _ j Hinv) in Hall by lia.
        by simplify_eq.
      * intros _. unfold Buddy.sizeof_uint16_t.
        replace (b + 2 - 2) with b by lia. rewrite Ht. lia.
Qed.

(** ** What a client observes

    [bd_after m0 A size cs]: [allocator_create] on the [size] bytes at [A] of
    the memory [m0], then the calls [cs]; nothing when [create] returns
    [NULL].  [bd_observe] reads the outcome: the pointers the client holds,
    each with the order tag stored before it, and the free lists that are not
    empty, each with its order. *)
Definition bd_after (m0 : mem) (A size : Z) (cs : list call)
  : option (mem * list (Z * Z)) :=
  '(h, m1) ← Buddy.allocator_create m0 A size;
  if h =? 0 then None
  else run_calls Buddy.allocator_alloc Buddy.allocator_free h (m1, []) cs.

Definition bd_observe (m0 : mem) (A size : Z) (cs : list call)
  : option (list (Z * Z) * list (Z * list Z)) :=
  match bd_after m0 A size cs with
  | Some (m, ps) =>
      fls ← Buddy.free_lists m A;
      Some ((λ pn : Z * Z, (pn.1, load 2 (pn.1 - Buddy.sizeof_uint16_t) m)) <$> ps,
            filter (λ x : Z * list Z, x.2 ≠ []) (zip (seqZ 0 64) fls))
  | None => None
  end.

(** The same for the free-list allocator: the pointers the client holds,
    each with the block size in the header before it, and the free blocks
    [(address, size)] in list order. *)
Definition fl_after (m0 : mem) (a size : Z) (cs : list call)
  : option (mem * list (Z * Z)) :=
  let '(h, m1) := FreeList.allocator_create m0 a size in
  run_calls FreeList.allocator_alloc FreeList.allocator_free h (m1, []) cs.

Definition fl_observe (m0 : mem) (a size : Z) (cs : list call)
  : option (list (Z * Z) * list (Z * Z)) :=
  match fl_after m0 a size cs with
  | Some (m, ps) =>
      fr ← FreeList.free_blocks m a;
      Some ((λ pn : Z * Z,
               (pn.1, load 8 (FreeList.bsize (FreeList.ptr_to_block pn.1)) m)) <$> ps,
            fr)
  | None => None
  end.

(** C2: conservation fails for the buddy allocator.  Over the 4 MiB at
    address 1048576, [create] seeds three free blocks of order 20 (3 MiB).
    After [alloc(1)] and the [free] of its pointer nothing is live and the
    free lists hold two blocks of order 20 (2 MiB): the merge at [max_order]
    took the buddy 3145728 off its list and pushed back one block only, so
    the block at 4194304 is on no list. *)
Theorem buddy_free_at_max_order_loses_block :
  bd_observe ∅ 1048576 4194304 []
  = Some ([], [(20, [4194304; 3145728; 2097152])]) ∧
  bd_observe ∅ 1048576 4194304 [Alloc 1]
  = Some ([(4194306, 4)],
          [(4, [4194320]); (5, [4194336]); (6, [4194368]); (7, [4194432]);
           (8, [4194560]); (9, [4194816]); (10, [4195328]); (11, [4196352]);
           (12, [4198400]); (13, [4202496]); (14, [4210688]); (15, [4227072]);
           (16, [4259840]); (17, [4325376]); (18, [4456448]); (19, [4718592]);
           (20, [3145728; 2097152])]) ∧
  bd_observe ∅ 1048576 4194304 [Alloc 1; Free 0]
  = Some ([], [(20, [3145728; 2097152])]).
Proof. split_and!; vm_compute; reflexivity. Qed.

(** C3: the scenario fails when [memory] is not a multiple of the largest
    block size.  Over the 8192 bytes at address 65552, [max_order] is 12 and
    the one block of order 12 is at 69632.  [alloc(20)] returns 69634, tagged
    order 5; its buddy 69664 is free at order 5.  [free] computes the buddy
    from the offset to [A->base], 4080, as 65552 + (4080 xor 32) = 69600,
    finds no such block and pushes 69632 at order 5: no block is merged and
    order 12 stays empty. *)
Theorem buddy_free_misses_its_buddy :
  bd_observe ∅ 65552 8192 [] = Some ([], [(12, [69632])]) ∧
  bd_observe ∅ 65552 8192 [Alloc 20]
  = Some ([(69634, 5)],
          [(5, [69664]); (6, [69696]); (7, [69760]); (8, [69888]);
           (9, [70144]); (10, [70656]); (11, [71680])]) ∧
  bd_observe ∅ 65552 8192 [Alloc 20; Free 0]
  = Some ([],
          [(5, [69632; 69664]); (6, [69696]); (7, [69760]); (8, [69888]);
           (9, [70144]); (10, [70656]); (11, [71680])]) ∧
  65552 + Z.lxor (69632 - 65552) (2 ^ 5) = 69600.
Proof. split_and!; vm_compute; reflexivity. Qed.

(** C4: a free block of order 5 at an offset of 16 from the aligned base.
    Over the 656 bytes at address 65584 the aligned base is 66176, where the
    one block, of order 6, is.  Four [alloc(1)] return order-4 blocks at
    offsets 0, 16, 32 and 48.  Freeing the second and then the third merges
    them, as [free] computes buddies from the offset to [A->base] (608 and
    624), into a block of order 5 at 66192, on the free list of order 5. *)
Theorem buddy_free_block_off_alignment :
  BD.aligned_of 65584 6 = 66176 ∧
  bd_observe ∅ 65584 656 [] = Some ([], [(6, [66176])]) ∧
  bd_observe ∅ 65584 656 [Alloc 1; Alloc 1; Alloc 1; Alloc 1]
  = Some ([(66226, 4); (66210, 4); (66194, 4); (66178, 4)], []) ∧
  bd_observe ∅ 65584 656 [Alloc 1; Alloc 1; Alloc 1; Alloc 1; Free 2; Free 1]
  = Some ([(66226, 4); (66178, 4)], [(5, [66192])]) ∧
  (66192 - BD.aligned_of 65584 6) mod 2 ^ 5 = 16.
Proof. split_and!; vm_compute; reflexivity. Qed.

(** C10: a pointer 2 bytes past a block start that is not aligned to the
    block's size.  In the arena of 656 bytes at 65584 (aligned base 66176),
    after four [alloc(1)] and the [free] of the second and third pointers,
    [alloc(20)] returns 66194, tagged order 5: its block starts at offset 16,
    not a multiple of 32.  The pointer is still at 2 modulo 16 from the
    aligned base. *)
Theorem buddy_alloc_block_start_off_alignment :
  bd_observe ∅ 65584 656
    [Alloc 1; Alloc 1; Alloc 1; Alloc 1; Free 2; Free 1; Alloc 20]
  = Some ([(66194, 5); (66226, 4); (66178, 4)], []) ∧
  (66194 - Buddy.sizeof_uint16_t - BD.aligned_of 65584 6) mod 2 ^ 5 = 16 ∧
  (66194 - BD.aligned_of 65584 6) mod 16 = 2.
Proof. split_and!; vm_compute; reflexivity. Qed.

(** ** [allocator_create] of the buddy allocator *)


Lemma round_down_mod x p : 0 < p → (x - x mod p) mod p = 0.
Proof.
  intros Hp. pose proof (Z.div_mod x p ltac:(lia)) as E.
  replace (x - x mod p) with (x / p * p) by lia. apply Z.mod_mul. lia.
Qed.

(** Modelled from the spec: [create] fails exactly when the usable space
    after alignment padding is smaller than one minimum block, or
    [max_order < min_order]; [min_order] is 4, [max_order] the largest order
    up to 20 whose block fits the usable size, and the padding what aligns
    the arena start up to a multiple of the largest block size. *)
Definition spec_create_fails (A size : Z) : bool :=
  let usable := size - 544 in
  let min_order := 4 in
  let max_order := Z.min 20 (Z.log2 usable) in
  let arena := A + 544 in
  let aligned := arena + (- arena) mod 2 ^ max_order in
  let after_padding := usable - (aligned - arena) in
  (after_padding <? 2 ^ min_order) || (max_order <? min_order).


(** Where the code departs from the spec.  Over the 4640 bytes at 69096 the
    usable 4096 bytes give [max_order] 12 and lose 4088 bytes to padding; 8
    bytes are left, fewer than a minimum block, and the spec requires
    failure.  [create] returns the allocator, with every free list empty:
    its test [align_pad >= usable] compares the padding, always below
    [2^max_order], with the usable size before padding, at least
    [2^max_order].  The amended statement below leaves this case out. *)
Lemma create_returns_allocator_without_block :
  spec_create_fails 69096 4640 = true ∧
  fst <$> Buddy.allocator_create ∅ 69096 4640 = Some 69096 ∧
  bd_observe ∅ 69096 4640 [] = Some ([], []).
Proof. split_and!; vm_compute; reflexivity. Qed.



(** ** First fit and coalescing in the free-list allocator *)

(** The first block that fits is determined by the list. *)
Lemma fl_first_fit_unique need (pre pre' post post' : list FL.blk) b s b' s' :
  pre ++ (b, s, true) :: post = pre' ++ (b', s', true) :: post' →
  FL.small need pre → need <= s → FL.small need pre' → need <= s' →
  pre = pre' ∧ b = b' ∧ s = s' ∧ post = post'.
Proof.
  revert pre'. induction pre as [|x pre IH]; intros pre' E Hs Hn Hs' Hn'.
  - destruct pre' as [|x' pre']; simpl in E.
    + by simplify_eq.
    + simplify_eq. apply Forall_cons in Hs' as [Hx _]. simpl in Hx.
      specialize (Hx eq_refl). lia.
  - destruct pre' as [|x' pre']; simpl in E.
    + simplify_eq. apply Forall_cons in Hs as [Hx _]. simpl in Hx.
      specialize (Hx eq_refl). lia.
    + injection E as -> E. apply Forall_cons in Hs as [_ Hs].
      apply Forall_cons in Hs' as [_ Hs'].
      destruct (IH pre' E Hs Hn Hs' Hn') as (-> & -> & -> & ->). done.
Qed.

(** [alloc] takes the first block that fits. *)
Lemma fl_alloc_at m a size pre b s post n :
  FL.inv m a size (pre ++ (b, s, true) :: post) →
  FL.small (FL.need_of n) pre → FL.need_of n <= s → 0 < n → FL.size_ok n →
  ∃ m', FreeList.allocator_alloc m a n = Some (b + 24, m') ∧
        FL.inv m' a size (pre ++ FL.taken b s (FL.need_of n) ++ post).
Proof.
  intros Hinv Hs Hn Hn0 Hok.
  destruct (FL.alloc_spec _ _ _ _ n Hinv Hn0 Hok)
    as [[Hsm _]|(pre' & b' & s' & post' & m' & E & Hs' & Hn' & Hal & Hinv')].
  - unfold FL.small in Hsm. rewrite Forall_app, Forall_cons in Hsm.
    destruct Hsm as (_ & Hx & _). simpl in Hx. specialize (Hx eq_refl). lia.
  - destruct (fl_first_fit_unique _ _ _ _ _ _ _ _ _ E Hs Hn Hs' Hn')
      as (-> & -> & -> & ->).
    by exists m'.
Qed.

Lemma fl_next_size_ge lo hi s post : FL.tiled lo hi post → s <= FL.next_size s post.
Proof. destruct post as [|[[b' s'] [|]] post]; simpl; lia. Qed.

Lemma fl_merge_prev_snoc_live pre b0 s0 b s :
  FL.merge_prev (pre ++ [(b0, s0, false)]) b s = pre ++ [(b0, s0, false); (b, s, true)].
Proof.
  rewrite FL.merge_prev_live; [by rewrite <- app_assoc|].
  unfold FL.ends_live. by rewrite reverse_snoc.
Qed.

(** Two adjacent live blocks freed, in either order: the blocks after. *)
Lemma fl_free_two m a size pre b1 s1 b2 s2 post :
  FL.inv m a size (pre ++ (b1, s1, false) :: (b2, s2, false) :: post) →
  let final := FL.merge_prev pre b1 (s1 + FL.next_size s2 post) ++ FL.next_rest post in
  (∃ m1 m2, FreeList.allocator_free m a (b1 + 24) = Some m1 ∧
            FreeList.allocator_free m1 a (b2 + 24) = Some m2 ∧
            FL.inv m2 a size final) ∧
  (∃ m1 m2, FreeList.allocator_free m a (b2 + 24) = Some m1 ∧
            FreeList.allocator_free m1 a (b1 + 24) = Some m2 ∧
            FL.inv m2 a size final).
Proof.
  intros Hinv final. split.
  - destruct (FL.free_spec _ _ _ _ _ _ _ Hinv) as (m1 & Hf1 & Hinv1).
    unfold FL.freed in Hinv1. cbn [FL.next_size FL.next_rest] in Hinv1.
    exists m1. destruct (decide (FL.ends_live pre)) as [He|He].
    + rewrite FL.merge_prev_live in Hinv1 by done.
      rewrite <- app_assoc in Hinv1. cbn [app] in Hinv1.
      assert (Hinv1' : FL.inv m1 a size
                ((pre ++ [(b1, s1, true)]) ++ (b2, s2, false) :: post))
        by (by rewrite <- app_assoc).
      destruct (FL.free_spec _ _ _ _ _ _ _ Hinv1') as (m2 & Hf2 & Hinv2).
      exists m2. split; [done|]. split; [done|].
      unfold FL.freed in Hinv2. rewrite FL.merge_prev_free in Hinv2.
      unfold final. by rewrite FL.merge_prev_live.
    + destruct (FL.ends_free_snoc _ He) as (pre' & p & sp & ->).
      rewrite FL.merge_prev_free in Hinv1.
      destruct (FL.free_spec _ _ _ _ _ _ _ Hinv1) as (m2 & Hf2 & Hinv2).
      exists m2. split; [done|]. split; [done|].
      unfold FL.freed in Hinv2. rewrite FL.merge_prev_free in Hinv2.
      unfold final. rewrite FL.merge_prev_free.
      by replace (sp + (s1 + FL.next_size s2 post))
        with (sp + s1 + FL.next_size s2 post) by lia.
  - assert (Hinv' : FL.inv m a size
              ((pre ++ [(b1, s1, false)]) ++ (b2, s2, false) :: post))
      by (by rewrite <- app_assoc).
    destruct (FL.free_spec _ _ _ _ _ _ _ Hinv') as (m1 & Hf1 & Hinv1).
    unfold FL.freed in Hinv1. rewrite fl_merge_prev_snoc_live in Hinv1.
    rewrite <- app_assoc in Hinv1. cbn [app] in Hinv1.
    destruct (FL.free_spec _ _ _ _ _ _ _ Hinv1) as (m2 & Hf2 & Hinv2).
    exists m1, m2. split; [done|]. split; [done|]. exact Hinv2.
Qed.

(** Two blocks of a tiling, the second where the first ends, are
    neighbours in it. *)
Lemma fl_tiled_adjacent lo hi (bs : list FL.blk) b1 s1 f1 b2 s2 f2 :
  FL.tiled lo hi bs → (b1, s1, f1) ∈ bs → (b2, s2, f2) ∈ bs → b2 = b1 + s1 →
  ∃ pre post, bs = pre ++ (b1, s1, f1) :: (b2, s2, f2) :: post.
Proof.
  revert lo. induction bs as [|[[b s] f] bs IH]; intros lo Ht H1 H2 Hadj.
  - by apply elem_of_nil in H1.
  - simpl in Ht. destruct Ht as (-> & Hs & Ht).
    pose proof (FL.tiled_Forall _ _ _ Ht) as Hall. rewrite Forall_forall in Hall.
    apply elem_of_cons in H1 as [E1|H1]; apply elem_of_cons in H2 as [E2|H2].
    + simplify_eq. lia.
    + simplify_eq. exists []. destruct bs as [|[[b' s'] f'] bs]; [by apply elem_of_nil in H2|].
      simpl in Ht. destruct Ht as (-> & Hs' & Ht').
      apply elem_of_cons in H2 as [E2|H2].
      * simplify_eq. by exists bs.
      * pose proof (FL.tiled_Forall _ _ _ Ht') as Hall'.
        rewrite Forall_forall in Hall'. specialize (Hall' _ H2). simpl in Hall'. lia.
    + simplify_eq. specialize (Hall _ H1). simpl in Hall. lia.
    + destruct (IH _ Ht H1 H2 Hadj) as (pre & post & ->).
      by exists ((lo, s, f) :: pre), post.
Qed.

Lemma fl_frees_Forall (P : Z → Z → Prop) (bs : list FL.blk) :
  Forall (λ x : FL.blk, P x.1.1 x.1.2) bs → Forall (λ x : Z * Z, P x.1 x.2) (FL.frees bs).
Proof.
  intros H. apply Forall_forall. intros [b s] Hin.
  apply fl_elem_of_frees in Hin. rewrite Forall_forall in H. apply (H _ Hin).
Qed.

(** The free blocks around a free block of a tiling. *)
Lemma fl_frees_around lo hi (P R : list FL.blk) q sq :
  FL.tiled lo hi (P ++ (q, sq, true) :: R) →
  FL.frees (P ++ (q, sq, true) :: R) = FL.frees P ++ (q, sq) :: FL.frees R ∧
  q = lo + FL.total P ∧
  Forall (λ x : Z * Z, x.1 + x.2 <= q) (FL.frees P) ∧
  Forall (λ x : Z * Z, q + sq <= x.1) (FL.frees R).
Proof.
  intros Ht. apply FL.tiled_app in Ht as [HtP HtR].
  simpl in HtR. destruct HtR as (Hq & Hsq & HtR).
  split; [by rewrite fl_frees_app|]. split; [done|]. split.
  - apply (fl_frees_Forall (λ b s, b + s <= q)).
    eapply Forall_impl; [apply (FL.tiled_Forall _ _ _ HtP)|]. simpl. intros x. lia.
  - apply (fl_frees_Forall (λ b s, q + sq <= b)).
    eapply Forall_impl; [apply (FL.tiled_Forall _ _ _ HtR)|]. simpl. intros x. lia.
Qed.

(** The blocks that the merge with the block before leaves. *)
Lemma fl_merge_prev_shape lo b (pre : list FL.blk) s :
  FL.tiled lo b pre →
  ∃ P q sq, FL.merge_prev pre b s = P ++ [(q, sq, true)] ∧
            q <= b ∧ q + sq = b + s.
Proof.
  intros Ht. destruct (decide (FL.ends_live pre)) as [He|He].
  - exists pre, b, s. by rewrite FL.merge_prev_live.
  - destruct (FL.ends_free_snoc _ He) as (pre' & p & sp & ->).
    exists pre', p, (sp + s). rewrite FL.merge_prev_free. split; [done|].
    apply FL.tiled_app in Ht as [_ Ht]. simpl in Ht. lia.
Qed.

(** One call of a client, as equations. *)
Section ClientSteps.
Context (alloc : mem → Z → Z → option (Z * mem)).
Context (free : mem → Z → Z → option mem).

Lemma run_calls_cons h st c cs :
  run_calls alloc free h st (c :: cs)
  = step alloc free h st c ≫= λ st', run_calls alloc free h st' cs.
Proof. done. Qed.

Lemma step_alloc_eq h m ps n p m' :
  alloc m h n = Some (p, m') →
  step alloc free h (m, ps) (Alloc n)
  = Some (m', if p =? 0 then ps else (p, n) :: ps).
Proof. intros H. unfold step. by rewrite H. Qed.

Lemma step_free_eq h m ps i p n m' ps' :
  ps !! i = Some (p, n) → free m h p = Some m' → ps' = delete i ps →
  step alloc free h (m, ps) (Free i) = Some (m', ps').
Proof. intros Hi H ->. unfold step. rewrite Hi. by rewrite H. Qed.
End ClientSteps.

Lemma fl_observe_inv m0 a size cs m ps bs :
  fl_after m0 a size cs = Some (m, ps) → FL.inv m a size bs →
  fl_observe m0 a size cs
  = Some ((λ pn : Z * Z,
             (pn.1, load 8 (FreeList.bsize (FreeList.ptr_to_block pn.1)) m)) <$> ps,
          FL.frees bs).
Proof.
  intros Ha Hinv. unfold fl_observe. rewrite Ha.
  by rewrite (FL.free_blocks_spec _ _ _ _ Hinv).
Qed.

(** The scenario: 4096 bytes at [a], two [alloc(100)], then the two
    pointers freed, the first one first. *)
Lemma fl_scenario m0 a :
  0 < a → a + 4096 <= 2 ^ 64 →
  ∃ m1 m2 m3 m4 m5,
    FreeList.allocator_create m0 a 4096 = (a, m1) ∧
    FL.inv m1 a 4096 [(a + 24, 4072, true)] ∧
    FreeList.allocator_alloc m1 a 100 = Some (a + 48, m2) ∧
    FL.inv m2 a 4096 [(a + 24, 136, false); (a + 160, 3936, true)] ∧
    FreeList.allocator_alloc m2 a 100 = Some (a + 184, m3) ∧
    FL.inv m3 a 4096
      [(a + 24, 136, false); (a + 160, 136, false); (a + 296, 3800, true)] ∧
    FreeList.allocator_free m3 a (a + 48) = Some m4 ∧
    FL.inv m4 a 4096
      [(a + 24, 136, true); (a + 160, 136, false); (a + 296, 3800, true)] ∧
    FreeList.allocator_free m4 a (a + 184) = Some m5 ∧
    FL.inv m5 a 4096 [(a + 24, 4072, true)].
Proof.
  intros Ha Hend.
  destruct (FL.create_inv m0 a 4096 Ha Hend ltac:(lia)) as (m1 & Hc & I1).
  change (4096 - 24) with 4072 in I1.
  assert (Hneed : FL.need_of 100 = 136) by (vm_compute; reflexivity).
  assert (Hok : FL.size_ok 100) by (split; [lia | vm_compute; reflexivity]).
  destruct (fl_alloc_at m1 a 4096 [] (a + 24) 4072 [] 100) as (m2 & Ha1 & I2);
    [exact I1 | constructor | rewrite Hneed; lia | lia | done |].
  rewrite Hneed in I2.
  change (FL.taken (a + 24) 4072 136)
    with [(a + 24, 136, false); (a + 24 + 136, 3936, true)] in I2.
  cbn [app] in I2.
  replace (a + 24 + 136) with (a + 160) in I2 by lia.
  replace (a + 24 + 24) with (a + 48) in Ha1 by lia.
  destruct (fl_alloc_at m2 a 4096 [(a + 24, 136, false)] (a + 160) 3936 [] 100)
    as (m3 & Ha2 & I3);
    [exact I2 | by repeat constructor | rewrite Hneed; lia | lia | done |].
  rewrite Hneed in I3.
  change (FL.taken (a + 160) 3936 136)
    with [(a + 160, 136, false); (a + 160 + 136, 3800, true)] in I3.
  cbn [app] in I3.
  replace (a + 160 + 136) with (a + 296) in I3 by lia.
  replace (a + 160 + 24) with (a + 184) in Ha2 by lia.
  destruct (FL.free_spec m3 a 4096 [] (a + 24) 136
              [(a + 160, 136, false); (a + 296, 3800, true)] I3) as (m4 & Hf1 & I4).
  change (FL.freed [] (a + 24) 136 [(a + 160, 136, false); (a + 296, 3800, true)])
    with [(a + 24, 136, true); (a + 160, 136, false); (a + 296, 3800, true)] in I4.
  replace (a + 24 + 24) with (a + 48) in Hf1 by lia.
  destruct (FL.free_spec m4 a 4096 [(a + 24, 136, true)] (a + 160) 136
              [(a + 296, 3800, true)] I4) as (m5 & Hf2 & I5).
  change (FL.freed [(a + 24, 136, true)] (a + 160) 136 [(a + 296, 3800, true)])
    with [(a + 24, 4072, true)] in I5.
  replace (a + 160 + 24) with (a + 184) in Hf2 by lia.
  by exists m1, m2, m3, m4, m5.
Qed.

(** C6: in every state a client of the free-list allocator can reach, let
    it hold two pointers whose blocks are adjacent (the header of the second
    starts where the block of the first ends, by the size in its header).
    Freeing the two, in either order, returns and leaves the same free list,
    on which one block [(q, sq)] spans both blocks, every other block lying
    before [q] or after [q + sq].  In an arena of 4096 bytes at any address,
    [create] leaves one free block of 4072 bytes; after [alloc(100)],
    [alloc(100)], [free] of the first and [free] of the second pointer the
    free list is that one block again. *)
Theorem adjacent_frees_coalesce :
  (∀ (m0 m : mem) (a size : Z) (cs : list call) (ps : list (Z * Z))
     (i j : nat) (p1 n1 p2 n2 : Z),
     fl_reach m0 a size cs m ps →
     ps !! i = Some (p1, n1) → ps !! j = Some (p2, n2) →
     FreeList.ptr_to_block p2
     = FreeList.ptr_to_block p1
       + load 8 (FreeList.bsize (FreeList.ptr_to_block p1)) m →
     ∃ m12 m21 l1 q sq l2,
       (FreeList.allocator_free m a p1 ≫= λ m1, FreeList.allocator_free m1 a p2)
       = Some m12 ∧
       (FreeList.allocator_free m a p2 ≫= λ m1, FreeList.allocator_free m1 a p1)
       = Some m21 ∧
       FreeList.free_blocks m12 a = Some (l1 ++ (q, sq) :: l2) ∧
       FreeList.free_blocks m21 a = Some (l1 ++ (q, sq) :: l2) ∧
       q <= FreeList.ptr_to_block p1 ∧
       FreeList.ptr_to_block p2
       + load 8 (FreeList.bsize (FreeList.ptr_to_block p2)) m <= q + sq ∧
       Forall (λ x : Z * Z, x.1 + x.2 <= q) l1 ∧
       Forall (λ x : Z * Z, q + sq <= x.1) l2) ∧
  (∀ (m0 : mem) (a : Z),
     0 < a → a + 4096 <= 2 ^ 64 →
     fl_observe m0 a 4096 [] = Some ([], [(a + 24, 4072)]) ∧
     fl_observe m0 a 4096 [Alloc 100; Alloc 100]
     = Some ([(a + 184, 136); (a + 48, 136)], [(a + 296, 3800)]) ∧
     fl_observe m0 a 4096 [Alloc 100; Alloc 100; Free 1; Free 0]
     = Some ([], [(a + 24, 4072)])).
Proof.
  split.
  - intros m0 m a size cs ps i j p1 n1 p2 n2 Hr Hi Hj Hadj.
    apply fl_reach_cinv in Hr as (bs & L & Hinv & HL & Hps).
    destruct (Forall2_lookup_l _ _ _ _ _ Hps Hi) as ([b1 s1] & HL1 & (Hp1 & _ & _)).
    destruct (Forall2_lookup_l _ _ _ _ _ Hps Hj) as ([b2 s2] & HL2 & (Hp2 & _ & _)).
    simpl in Hp1, Hp2.
    assert (Hin1 : (b1, s1, false) ∈ bs).
    { apply fl_elem_of_lives. rewrite <- HL. by eapply list_elem_of_lookup_2. }
    assert (Hin2 : (b2, s2, false) ∈ bs).
    { apply fl_elem_of_lives. rewrite <- HL. by eapply list_elem_of_lookup_2. }
    pose proof (FL.inv_hdrs _ _ _ _ Hinv) as Hh.
    destruct (fl_hdrs_elem _ _ _ _ _ _ Hh Hin1) as [Hs1 _].
    destruct (fl_hdrs_elem _ _ _ _ _ _ Hh Hin2) as [Hs2 _].
    assert (E1 : FreeList.ptr_to_block p1 = b1)
      by (unfold FreeList.ptr_to_block, FreeList.sizeof_block_header; lia).
    assert (E2 : FreeList.ptr_to_block p2 = b2)
      by (unfold FreeList.ptr_to_block, FreeList.sizeof_block_header; lia).
    rewrite E1, E2, Hs1 in Hadj. rewrite E1, E2, Hs2. subst p1 p2.
    destruct (fl_tiled_adjacent _ _ _ _ _ _ _ _ _ (FL.inv_tiled _ _ _ _ Hinv)
                Hin1 Hin2 Hadj) as (pre & post & ->).
    destruct (fl_free_two _ _ _ _ _ _ _ _ _ Hinv)
      as [(m1 & m12 & Hf1 & Hf2 & I12) (m1' & m21 & Hf1' & Hf2' & I21)].
    pose proof (FL.inv_tiled _ _ _ _ Hinv) as Ht.
    apply FL.tiled_app in Ht as [Htp Htr].
    cbn [FL.tiled] in Htr. destruct Htr as (Hb1 & _ & _ & _ & Htpost).
    rewrite <- Hb1 in Htp.
    destruct (fl_merge_prev_shape _ _ _ (s1 + FL.next_size s2 post) Htp)
      as (P & q & sq & Hshape & Hq & Hqs).
    rewrite Hshape in I12, I21. rewrite <- app_assoc in I12, I21.
    cbn [app] in I12, I21.
    destruct (fl_frees_around _ _ _ _ _ _ (FL.inv_tiled _ _ _ _ I12))
      as (Hfr & _ & Hl1 & Hl2).
    pose proof (fl_next_size_ge _ _ s2 _ Htpost) as Hns.
    exists m12, m21, (FL.frees P), q, sq, (FL.frees (FL.next_rest post)).
    split; [by rewrite Hf1, bind_Some_eq|].
    split; [by rewrite Hf1', bind_Some_eq|].
    rewrite (FL.free_blocks_spec _ _ _ _ I12), (FL.free_blocks_spec _ _ _ _ I21), Hfr.
    split; [done|]. split; [done|]. split; [done|]. split; [lia|]. done.
  - intros m0 a Ha Hend.
    destruct (fl_scenario m0 a Ha Hend)
      as (m1 & m2 & m3 & m4 & m5 & Hc & I1 & Ha1 & I2 & Ha2 & I3 & Hf1 & I4 & Hf2 & I5).
    assert (Hr0 : fl_after m0 a 4096 [] = Some (m1, [])).
    { unfold fl_after. by rewrite Hc. }
    assert (Hr2 : fl_after m0 a 4096 [Alloc 100; Alloc 100]
                  = Some (m3, [(a + 184, 100); (a + 48, 100)])).
    { unfold fl_after. rewrite Hc.
      rewrite run_calls_cons, (step_alloc_eq _ _ _ _ _ _ _ _ Ha1), bind_Some_eq.
      rewrite (proj2 (Z.eqb_neq (a + 48) 0)) by lia.
      rewrite run_calls_cons, (step_alloc_eq _ _ _ _ _ _ _ _ Ha2), bind_Some_eq.
      rewrite (proj2 (Z.eqb_neq (a + 184) 0)) by lia. done. }
    assert (Hr4 : fl_after m0 a 4096 [Alloc 100; Alloc 100; Free 1; Free 0]
                  = Some (m5, [])).
    { unfold fl_after. rewrite Hc.
      rewrite run_calls_cons, (step_alloc_eq _ _ _ _ _ _ _ _ Ha1), bind_Some_eq.
      rewrite (proj2 (Z.eqb_neq (a + 48) 0)) by lia.
      rewrite run_calls_cons, (step_alloc_eq _ _ _ _ _ _ _ _ Ha2), bind_Some_eq.
      rewrite (proj2 (Z.eqb_neq (a + 184) 0)) by lia.
      rewrite run_calls_cons,
        (step_free_eq _ _ _ _ [(a + 184, 100); (a + 48, 100)] 1%nat (a + 48) 100 m4
           [(a + 184, 100)]
           eq_refl Hf1 eq_refl), bind_Some_eq.
      rewrite run_calls_cons,
        (step_free_eq _ _ _ _ [(a + 184, 100)] 0%nat (a + 184) 100 m5 []
           eq_refl Hf2 eq_refl),
        bind_Some_eq.
      done. }
    rewrite (fl_observe_inv _ _ _ _ _ _ _ Hr0 I1).
    rewrite (fl_observe_inv _ _ _ _ _ _ _ Hr2 I3).
    rewrite (fl_observe_inv _ _ _ _ _ _ _ Hr4 I5).
    split; [done|]. split; [|done].
    pose proof (FL.inv_hdrs _ _ _ _ I3) as Hh. cbn [fmap list_fmap fst snd].
    replace (FreeList.ptr_to_block (a + 184)) with (a + 160)
      by (unfold FreeList.ptr_to_block, FreeList.sizeof_block_header; lia).
    replace (FreeList.ptr_to_block (a + 48)) with (a + 24)
      by (unfold FreeList.ptr_to_block, FreeList.sizeof_block_header; lia).
    destruct (fl_hdrs_elem _ _ _ (a + 24) 136 false Hh) as [-> _];
      [set_solver|].
    destruct (fl_hdrs_elem _ _ _ (a + 160) 136 false Hh) as [-> _];
      [set_solver|].
    done.
Qed.

Lemma adjacent_frees_coalesce_witness :
  ∃ (m : mem) (ps : list (Z * Z)),
    fl_reach ∅ 65536 4096 [Alloc 100; Alloc 100] m ps ∧
    ps !! 1%nat = Some (65584, 100) ∧ ps !! 0%nat = Some (65720, 100) ∧
    FreeList.ptr_to_block 65720
    = FreeList.ptr_to_block 65584
      + load 8 (FreeList.bsize (FreeList.ptr_to_block 65584)) m ∧
    ∃ m12 m21 l1 q sq l2,
      (FreeList.allocator_free m 65536 65584
         ≫= λ m1, FreeList.allocator_free m1 65536 65720) = Some m12 ∧
      (FreeList.allocator_free m 65536 65720
         ≫= λ m1, FreeList.allocator_free m1 65536 65584) = Some m21 ∧
      FreeList.free_blocks m12 65536 = Some (l1 ++ (q, sq) :: l2) ∧
      FreeList.free_blocks m21 65536 = Some (l1 ++ (q, sq) :: l2) ∧
      q <= FreeList.ptr_to_block 65584 ∧
      FreeList.ptr_to_block 65720
      + load 8 (FreeList.bsize (FreeList.ptr_to_block 65720)) m <= q + sq ∧
      Forall (λ x : Z * Z, x.1 + x.2 <= q) l1 ∧
      Forall (λ x : Z * Z, q + sq <= x.1) l2.
Proof.
  assert (Hr : ∃ (m : mem) (ps : list (Z * Z)),
             fl_reach ∅ 65536 4096 [Alloc 100; Alloc 100] m ps ∧
             ps !! 1%nat = Some (65584, 100) ∧ ps !! 0%nat = Some (65720, 100) ∧
             FreeList.ptr_to_block 65720
             = FreeList.ptr_to_block 65584
               + load 8 (FreeList.bsize (FreeList.ptr_to_block 65584)) m).
  { assert (Hps : snd <$> run_calls FreeList.allocator_alloc FreeList.allocator_free
                            65536 ((FreeList.allocator_create ∅ 65536 4096).2, [])
                            [Alloc 100; Alloc 100]
                  = Some [(65720, 100); (65584, 100)]) by (vm_compute; reflexivity).
    assert (Hld : (λ st : mem * list (Z * Z),
                     load 8 (FreeList.bsize (FreeList.ptr_to_block 65584)) st.1)
                  <$> run_calls FreeList.allocator_alloc FreeList.allocator_free
                        65536 ((FreeList.allocator_create ∅ 65536 4096).2, [])
                        [Alloc 100; Alloc 100]
                  = Some 136) by (vm_compute; reflexivity).
    revert Hps Hld.
    destruct (run_calls FreeList.allocator_alloc FreeList.allocator_free
                65536 ((FreeList.allocator_create ∅ 65536 4096).2, [])
                [Alloc 100; Alloc 100]) as [[m ps]|] eqn:E; [|discriminate].
    intros [= ->] [= Hld]. exists m, [(65720, 100); (65584, 100)].
    split; [|split; [|split]].
    - unfold fl_reach. split; [lia|]. split; [vm_compute; discriminate|].
      split; [lia|]. split; [|exact E].
      repeat constructor; vm_compute; discriminate.
    - reflexivity.
    - reflexivity.
    - rewrite Hld. reflexivity. }
  destruct Hr as (m & ps & Hr & H1 & H0 & Hadj).
  exists m, ps. split; [exact Hr|]. split; [exact H1|]. split; [exact H0|].
  split; [exact Hadj|].
  exact (proj1 adjacent_frees_coalesce ∅ m 65536 4096 _ ps 1%nat 0%nat _ _ _ _
           Hr H1 H0 Hadj).
Defined.

(** C7: in every state a client of the free-list allocator can reach,
    [alloc] of [n > 0] bytes, with no wrap in the size arithmetic, needs
    [need = align_up(n, 16) + 24] bytes.  With [fr] the free list, in list
    order: when every block of [fr] is smaller than [need], [alloc] returns
    [NULL]; otherwise [fr] is [l1 ++ (b, s) :: l2] with [(b, s)] the first
    block of at least [need] bytes, the blocks of [l1] at lower and those of
    [l2] at higher addresses, and [alloc] returns [b + 24], the address after
    the header, with the block marked not free.  When [s >= need + 24 + 16]
    the block keeps [need] bytes and its tail [(b + need, s - need)] takes
    its place on the free list; otherwise the block keeps its [s] bytes and
    leaves the list. *)
Theorem alloc_first_fit_and_split
    (m0 m : mem) (a size n : Z) (cs : list call) (ps : list (Z * Z)) :
  fl_reach m0 a size cs m ps → 0 < n → FL.size_ok n →
  let need :=
    align_up n FreeList.alignof_max_align_t + FreeList.sizeof_block_header in
  ∃ fr,
    FreeList.free_blocks m a = Some fr ∧
    ((Forall (λ x : Z * Z, x.2 < need) fr ∧
      FreeList.allocator_alloc m a n = Some (0, m)) ∨
     (∃ l1 b s l2 m',
        fr = l1 ++ (b, s) :: l2 ∧
        Forall (λ x : Z * Z, x.2 < need) l1 ∧ need <= s ∧
        Forall (λ x : Z * Z, x.1 < b) l1 ∧ Forall (λ x : Z * Z, b < x.1) l2 ∧
        FreeList.allocator_alloc m a n
        = Some (b + FreeList.sizeof_block_header, m') ∧
        load 4 (FreeList.bfree b) m' = 0 ∧
        if need + FreeList.sizeof_block_header + 16 <=? s
        then load 8 (FreeList.bsize b) m' = need ∧
             FreeList.free_blocks m' a = Some (l1 ++ (b + need, s - need) :: l2)
        else load 8 (FreeList.bsize b) m' = s ∧
             FreeList.free_blocks m' a = Some (l1 ++ l2))).
Proof.
  intros Hr Hn Hok need.
  apply fl_reach_cinv in Hr as (bs & L & Hinv & _ & _).
  destruct (FL.need_of_bounds n Hn Hok) as (Hneed & _).
  assert (Hnd : FL.need_of n = need) by done.
  exists (FL.frees bs). split; [apply (FL.free_blocks_spec _ _ _ _ Hinv)|].
  destruct (FL.alloc_spec _ _ _ _ n Hinv Hn Hok)
    as [[Hsm Ha0]|(pre & b & s & post & m' & -> & Hsm & Hs & Hal & Hinv')].
  - left. rewrite Hnd in Hsm. split; [by apply fl_small_frees | done].
  - right. rewrite Hnd in Hsm, Hs, Hinv'.
    destruct (fl_frees_around _ _ _ _ _ _ (FL.inv_tiled _ _ _ _ Hinv))
      as (Hfr & Hq & Hl1 & Hl2).
    pose proof (FL.inv_tiled _ _ _ _ Hinv) as Ht.
    apply FL.tiled_app in Ht as [Htp Htr]. cbn [FL.tiled] in Htr.
    destruct Htr as (_ & Hs24 & Htpost).
    exists (FL.frees pre), b, s, (FL.frees post), m'.
    split; [done|]. split; [by apply fl_small_frees|]. split; [done|].
    split.
    { apply (fl_frees_Forall (λ b' s', b' < b)).
      eapply Forall_impl; [apply (FL.tiled_Forall _ _ _ Htp)|].
      simpl. intros x. lia. }
    split.
    { eapply Forall_impl; [apply Hl2|]. simpl. intros x. lia. }
    split; [done|].
    pose proof (FL.inv_hdrs _ _ _ _ Hinv') as Hh.
    rewrite (FL.free_blocks_spec _ _ _ _ Hinv'), !fl_frees_app.
    unfold FL.taken in *. unfold FreeList.sizeof_block_header.
    destruct (Z.leb_spec (need + 40) s) as [Hsp|Hsp];
      destruct (Z.leb_spec (need + 24 + 16) s) as [Hsp'|Hsp']; try lia.
    + destruct (fl_hdrs_elem _ _ _ b need false Hh) as [E1 E2]; [set_solver|].
      done.
    + destruct (fl_hdrs_elem _ _ _ b s false Hh) as [E1 E2]; [set_solver|].
      done.
Qed.

Lemma alloc_first_fit_and_split_witness :
  ∃ (m : mem) (ps : list (Z * Z)),
    fl_reach ∅ 65536 4096 [Alloc 100; Alloc 40; Free 1] m ps ∧
    let need :=
      align_up 64 FreeList.alignof_max_align_t + FreeList.sizeof_block_header in
    ∃ fr,
      FreeList.free_blocks m 65536 = Some fr ∧
      ((Forall (λ x : Z * Z, x.2 < need) fr ∧
        FreeList.allocator_alloc m 65536 64 = Some (0, m)) ∨
       (∃ l1 b s l2 m',
          fr = l1 ++ (b, s) :: l2 ∧
          Forall (λ x : Z * Z, x.2 < need) l1 ∧ need <= s ∧
          Forall (λ x : Z * Z, x.1 < b) l1 ∧ Forall (λ x : Z * Z, b < x.1) l2 ∧
          FreeList.allocator_alloc m 65536 64
          = Some (b + FreeList.sizeof_block_header, m') ∧
          load 4 (FreeList.bfree b) m' = 0 ∧
          if need + FreeList.sizeof_block_header + 16 <=? s
          then load 8 (FreeList.bsize b) m' = need ∧
               FreeList.free_blocks m' 65536
               = Some (l1 ++ (b + need, s - need) :: l2)
          else load 8 (FreeList.bsize b) m' = s ∧
               FreeList.free_blocks m' 65536 = Some (l1 ++ l2))).
Proof.
  assert (Hs : (λ _ : mem * list (Z * Z), tt)
               <$> run_calls FreeList.allocator_alloc FreeList.allocator_free
                     65536 ((FreeList.allocator_create ∅ 65536 4096).2, [])
                     [Alloc 100; Alloc 40; Free 1]
               = Some tt) by (vm_compute; reflexivity).
  revert Hs.
  destruct (run_calls FreeList.allocator_alloc FreeList.allocator_free
              65536 ((FreeList.allocator_create ∅ 65536 4096).2, [])
              [Alloc 100; Alloc 40; Free 1]) as [[m ps]|] eqn:E; [|discriminate].
  intros _.
  assert (Hr : fl_reach ∅ 65536 4096 [Alloc 100; Alloc 40; Free 1] m ps).
  { unfold fl_reach. split; [lia|]. split; [vm_compute; discriminate|].
    split; [lia|]. split; [|exact E].
    repeat constructor; vm_compute; discriminate. }
  exists m, ps. split; [exact Hr|].
  apply (alloc_first_fit_and_split ∅ m 65536 4096 64 _ ps Hr); [lia|].
  split; [lia | vm_compute; reflexivity].
Defined.

Lemma alloc_returns_region_or_null_witness :
  (∃ (m : mem) (ps : list (Z * Z)),
     fl_reach ∅ 65536 4096 [Alloc 100; Alloc 40; Free 1] m ps ∧
     ∃ p m' fr,
       FreeList.allocator_alloc m 65536 200 = Some (p, m') ∧
       FreeList.free_blocks m 65536 = Some fr ∧
       (p = 0 ↔ 200 = 0 ∨ Forall (λ x : Z * Z, x.2 < FL.need_of 200) fr) ∧
       (p ≠ 0 →
        let usable := load 8 (FreeList.bsize (FreeList.ptr_to_block p)) m'
                      - FreeList.sizeof_block_header in
        200 <= usable ∧ 65536 <= p ∧ p + usable <= 65536 + 4096)) ∧
  (∃ (m : mem) (ps : list (Z * Z)),
     bd_reach ∅ 65536 4096 [Alloc 100; Alloc 40; Free 1] m ps ∧
     ∃ p m' k,
       Buddy.allocator_alloc m 65536 200 = Some (p, m') ∧
       Buddy.order_for 200 (Buddy.load_int (Buddy.min_order_of 65536) m) = Some k ∧
       (p = 0 ↔ 200 = 0 ∨ Buddy.load_int (Buddy.max_order_of 65536) m < k ∨
                ∀ j, k <= j <= Buddy.load_int (Buddy.max_order_of 65536) m →
                     Buddy.free_list m 65536 j = Some []) ∧
       (p ≠ 0 →
        let usable := 2 ^ load 2 (p - Buddy.sizeof_uint16_t) m'
                      - Buddy.sizeof_uint16_t in
        load 2 (p - Buddy.sizeof_uint16_t) m' = k ∧
        200 <= usable ∧ 65536 <= p ∧ p + usable <= 65536 + 4096)).
Proof.
  split.
  - assert (Hs : (λ _ : mem * list (Z * Z), tt)
                 <$> run_calls FreeList.allocator_alloc FreeList.allocator_free
                       65536 ((FreeList.allocator_create ∅ 65536 4096).2, [])
                       [Alloc 100; Alloc 40; Free 1]
                 = Some tt) by (vm_compute; reflexivity).
    revert Hs.
    destruct (run_calls FreeList.allocator_alloc FreeList.allocator_free
                65536 ((FreeList.allocator_create ∅ 65536 4096).2, [])
                [Alloc 100; Alloc 40; Free 1]) as [[m ps]|] eqn:E; [|discriminate].
    intros _.
    assert (Hr : fl_reach ∅ 65536 4096 [Alloc 100; Alloc 40; Free 1] m ps).
    { unfold fl_reach. split; [lia|]. split; [vm_compute; discriminate|].
      split; [lia|]. split; [|exact E].
      repeat constructor; vm_compute; discriminate. }
    exists m, ps. split; [exact Hr|].
    apply (proj1 (alloc_returns_region_or_null ∅ m 65536 4096 200 _ ps) Hr).
    split; [lia | vm_compute; reflexivity].
  - set (c := Buddy.allocator_create ∅ 65536 4096).
    set (m1 := default ∅ (snd <$> c)).
    assert (Hc : c = Some (65536, m1)).
    { assert (Hf : fst <$> c = Some 65536) by (vm_compute; reflexivity).
      unfold m1. destruct c as [[h mm]|]; [|discriminate].
      injection Hf as ->. reflexivity. }
    assert (Hs : (λ _ : mem * list (Z * Z), tt)
                 <$> run_calls Buddy.allocator_alloc Buddy.allocator_free
                       65536 (m1, []) [Alloc 100; Alloc 40; Free 1]
                 = Some tt) by (vm_compute; reflexivity).
    revert Hs.
    destruct (run_calls Buddy.allocator_alloc Buddy.allocator_free
                65536 (m1, []) [Alloc 100; Alloc 40; Free 1])
      as [[m ps]|] eqn:E; [|discriminate].
    intros _.
    assert (Hr : bd_reach ∅ 65536 4096 [Alloc 100; Alloc 40; Free 1] m ps).
    { unfold bd_reach. split; [lia|]. split; [vm_compute; discriminate|].
      split; [lia|]. split; [|exists m1; split; [exact Hc | exact E]].
      repeat constructor; vm_compute; discriminate. }
    exists m, ps. split; [exact Hr|].
    apply (proj2 (alloc_returns_region_or_null ∅ m 65536 4096 200 _ ps) Hr).
    split; [lia | vm_compute; discriminate].
Defined.

(** ** The free list stays coalesced and aligned

    No two neighbours of the tiling are both free, and every block starts
    at a multiple of 8 from the descriptor. *)
Definition starts_live (bs : list FL.blk) : Prop :=
  match bs with (_, _, true) :: _ => False | _ => True end.

Fixpoint nadj (bs : list FL.blk) : Prop :=
  match bs with
  | [] => True
  | x :: r => (x.2 = true → starts_live r) ∧ nadj r
  end.

Definition fl_good (a : Z) (bs : list FL.blk) : Prop :=
  nadj bs ∧ Forall (λ x : FL.blk, (x.1.1 - a) mod 8 = 0) bs.

Lemma ends_live_nil : FL.ends_live [].
Proof. done. Qed.

Lemma ends_live_one (x : FL.blk) : FL.ends_live [x] ↔ x.2 = false.
Proof. destruct x as [[b s] [|]]; unfold FL.ends_live; simpl; split; done. Qed.

Lemma nadj_app l1 l2 :
  nadj (l1 ++ l2) ↔ nadj l1 ∧ nadj l2 ∧ (FL.ends_live l1 ∨ starts_live l2).
Proof.
  induction l1 as [|x l1 IH].
  - simpl. pose proof ends_live_nil. tauto.
  - destruct l1 as [|y l1].
    + cbn [app nadj]. rewrite ends_live_one.
      destruct x as [[b s] [|]]; simpl.
      * split; [intros [H1 H2]; auto|]. intros (_ & H2 & [H3|H3]); auto. done.
      * split; [intros [_ H2]; auto|]. intros (_ & H2 & _). done.
    + change ((x :: y :: l1) ++ l2) with (x :: (y :: l1) ++ l2).
      cbn [nadj] in *. rewrite FL.ends_live_cons.
      change (starts_live ((y :: l1) ++ l2)) with (starts_live (y :: l1)).
      tauto.
Qed.

Lemma nadj_next_rest post :
  nadj post → nadj (FL.next_rest post) ∧ starts_live (FL.next_rest post).
Proof.
  destruct post as [|[[b s] [|]] post]; simpl; [done| |done].
  intros [H1 H2]. split; [done | by apply H1].
Qed.

Lemma next_starts_live s post :
  starts_live post → FL.next_size s post = s ∧ FL.next_rest post = post.
Proof. by destruct post as [|[[b' s'] [|]] post]. Qed.

Lemma fl_good_taken a pre b s post need :
  need mod 8 = 0 →
  fl_good a (pre ++ (b, s, true) :: post) →
  fl_good a (pre ++ FL.taken b s need ++ post).
Proof.
  intros Hn [Hna Hal]. rewrite nadj_app in Hna. cbn [nadj] in Hna.
  destruct Hna as (Hpre & (Hsl & Hpost) & [He|[]]).
  rewrite Forall_app, Forall_cons in Hal. destruct Hal as (Hal1 & Hb & Hal2).
  simpl in Hb. unfold FL.taken. split.
  - rewrite nadj_app. split; [done|].
    destruct (need + 40 <=? s); cbn [app nadj]; (split; [|by left]).
    + split; [done|]. split; [|done]. intros _. by apply Hsl.
    + done.
  - rewrite !Forall_app. split; [done|]. split; [|done].
    destruct (need + 40 <=? s); repeat constructor; simpl; try done.
    replace (b + need - a) with ((b - a) + need) by lia.
    rewrite Z.add_mod, Hb, Hn by lia. done.
Qed.

Lemma fl_good_freed a pre b s post :
  fl_good a (pre ++ (b, s, false) :: post) → fl_good a (FL.freed pre b s post).
Proof.
  intros [Hna Hal]. rewrite nadj_app in Hna. cbn [nadj] in Hna.
  destruct Hna as (Hpre & (_ & Hpost) & _).
  rewrite Forall_app, Forall_cons in Hal. destruct Hal as (Hal1 & Hb & Hal2).
  simpl in Hb.
  destruct (nadj_next_rest _ Hpost) as [Hr Hrs].
  assert (Hal3 : Forall (λ x : FL.blk, (x.1.1 - a) mod 8 = 0) (FL.next_rest post)).
  { destruct post as [|[[b' s'] [|]] post]; simpl; try done.
    by apply Forall_cons in Hal2 as [_ ?]. }
  unfold FL.freed. destruct (decide (FL.ends_live pre)) as [He|He].
  - rewrite FL.merge_prev_live by done. split.
    + rewrite nadj_app. split; [|split; [done | by right]].
      rewrite nadj_app. split; [done|]. split; [|by left]. done.
    + rewrite !Forall_app. split; [|done]. split; [done|]. by repeat constructor.
  - destruct (FL.ends_free_snoc _ He) as (pre' & p & sp & ->).
    rewrite FL.merge_prev_free.
    rewrite nadj_app in Hpre. destruct Hpre as (Hpre' & _ & [He'|[]]).
    rewrite Forall_app, Forall_cons in Hal1. destruct Hal1 as (Hal1 & Hp & _).
    split.
    + rewrite nadj_app. split; [|split; [done | by right]].
      rewrite nadj_app. split; [done|]. split; [|by left]. done.
    + rewrite !Forall_app. split; [|done]. split; [done|]. by repeat constructor.
Qed.

(** The client invariant, with the two facts added. *)
Definition fl_cinv2 (a size : Z) (m : mem) (ps : list (Z * Z)) : Prop :=
  ∃ bs L, FL.inv m a size bs ∧ L ≡ₚ FL.lives bs ∧ Forall2 fl_owns ps L ∧
          fl_good a bs.

Lemma fl_cinv2_step a size m ps c :
  fl_cinv2 a size m ps → fl_call_ok c →
  ∃ m' ps', step FreeList.allocator_alloc FreeList.allocator_free a (m, ps) c
            = Some (m', ps') ∧ fl_cinv2 a size m' ps'.
Proof.
  intros (bs & L & Hinv & HL & Hps & Hg) Hc. destruct c as [n|i].
  - destruct (decide (n = 0)) as [->|Hn0].
    { exists m, ps. split; [done|]. by exists bs, L. }
    destruct Hc as [Hn Hok]. assert (Hn1 : 0 < n) by lia.
    destruct (FL.need_of_bounds n Hn1 (conj Hn Hok)) as (_ & Hnb & _ & _ & Hn8).
    destruct (FL.alloc_spec _ _ _ _ n Hinv Hn1 (conj Hn Hok))
      as [[_ Ha0]|(pre & b & s & post & m' & -> & Hsm & Hs & Hal & Hinv')].
    { exists m, ps. split; [by rewrite (step_alloc_eq _ _ _ _ _ _ _ _ Ha0)|].
      by exists bs, L. }
    pose proof (FL.inv_pos _ _ _ _ Hinv) as Ha.
    pose proof (FL.inv_split _ _ _ _ _ _ Hinv) as (Hb & _).
    simpl in Hb.
    assert (0 <= FL.total pre).
    { pose proof (FL.inv_tiled _ _ _ _ Hinv) as Ht.
      apply FL.tiled_app in Ht as [Htp _].
      pose proof (FL.tiled_le _ _ _ Htp). lia. }
    exists m', ((b + 24, n) :: ps). split.
    { rewrite (step_alloc_eq _ _ _ _ _ _ _ _ Hal).
      by rewrite (proj2 (Z.eqb_neq (b + 24) 0)) by lia. }
    exists (pre ++ FL.taken b s (FL.need_of n) ++ post),
           ((b, if FL.need_of n + 40 <=? s then FL.need_of n else s) :: L).
    split; [done|]. split; [|split].
    + rewrite !fl_lives_app, fl_lives_taken. simpl.
      rewrite <- Permutation_middle. constructor.
      rewrite HL, fl_lives_app. done.
    + constructor; [|done]. unfold fl_owns. simpl.
      destruct (FL.need_of n + 40 <=? s); lia.
    + by apply fl_good_taken.
  - destruct (ps !! i) as [[p n]|] eqn:Hi.
    + destruct (Forall2_lookup_l _ _ _ _ _ Hps Hi) as ([b s] & HLi & Hown).
      destruct Hown as (Hp & Hn & Hns). simpl in Hp, Hn, Hns. subst p.
      assert (Hin : (b, s, false) ∈ bs).
      { apply fl_elem_of_lives. rewrite <- HL. by eapply list_elem_of_lookup_2. }
      destruct (list_elem_of_split _ _ Hin) as (pre & post & ->).
      destruct (FL.free_spec _ _ _ _ _ _ _ Hinv) as (m' & Hfree & Hinv').
      exists m', (delete i ps). split.
      { by apply (step_free_eq _ _ _ _ _ _ _ n _ _ Hi Hfree). }
      exists (FL.freed pre b s post), (delete i L). split; [done|].
      split; [|split].
      * rewrite fl_lives_freed. rewrite fl_lives_app in HL.
        change (FL.lives ((b, s, false) :: post)) with ((b, s) :: FL.lives post) in HL.
        rewrite <- (take_drop_middle L i (b, s)) in HL by done.
        apply Permutation_app_inv in HL.
        rewrite delete_take_drop. done.
      * by apply Forall2_delete.
      * by apply fl_good_freed.
    + exists m, ps. split; [|by exists bs, L].
      unfold step. by rewrite Hi.
Qed.

Lemma fl_cinv2_run a size m ps cs :
  fl_cinv2 a size m ps → Forall fl_call_ok cs →
  ∃ m' ps', run_calls FreeList.allocator_alloc FreeList.allocator_free a (m, ps) cs
            = Some (m', ps') ∧ fl_cinv2 a size m' ps'.
Proof.
  intros Hinv Hcs. revert m ps Hinv.
  induction Hcs as [|c cs Hc _ IH]; intros m ps Hinv.
  - by exists m, ps.
  - destruct (fl_cinv2_step _ _ _ _ c Hinv Hc) as (m1 & ps1 & Hs & Hinv1).
    rewrite run_calls_cons, Hs, bind_Some_eq. by apply IH.
Qed.

Lemma fl_reach_cinv2 m0 a size cs m ps :
  fl_reach m0 a size cs m ps → fl_cinv2 a size m ps.
Proof.
  intros (Ha & Hend & Hsz & Hcs & Hrun).
  destruct (FL.create_inv m0 a size Ha Hend Hsz) as (m1 & Hc & Hinv).
  rewrite Hc in Hrun. cbn [snd] in Hrun.
  destruct (fl_cinv2_run a size m1 [] cs) as (m' & ps' & Hrun' & Hci); [|done|].
  - exists [(a + 24, size - 24, true)], []. split; [done|]. split; [done|].
    split; [constructor|]. split; [done|]. repeat constructor. simpl.
    replace (a + 24 - a) with 24 by lia. done.
  - rewrite Hrun in Hrun'. by simplify_eq.
Qed.

Lemma sum_sizes_perm l l' : l ≡ₚ l' → FL.sum_sizes l = FL.sum_sizes l'.
Proof.
  unfold FL.sum_sizes.
  induction 1 as [|x l l' _ IH|x y l|l l' l'' _ IH1 _ IH2]; simpl; lia.
Qed.

(** The sizes in the headers of the blocks the client holds. *)
Definition fl_held_sizes (m : mem) (ps : list (Z * Z)) : list Z :=
  (λ pn : Z * Z, load 8 (FreeList.bsize (FreeList.ptr_to_block pn.1)) m) <$> ps.

Lemma fl_held_sizes_sum m bs tl ps L :
  FL.hdrs m bs tl → Forall2 fl_owns ps L → (∀ x, x ∈ L → x ∈ FL.lives bs) →
  foldr Z.add 0 (fl_held_sizes m ps) = FL.sum_sizes L.
Proof.
  intros Hh Hps. induction Hps as [|[p n] [b s] ps L (Hp & _) _ IH]; intros HL.
  - done.
  - simpl in Hp. simpl. rewrite IH by (intros x Hx; apply HL; by right).
    f_equal. replace (FreeList.ptr_to_block p) with b
      by (unfold FreeList.ptr_to_block, FreeList.sizeof_block_header; lia).
    apply (fl_hdrs_elem _ _ _ _ _ false Hh).
    apply fl_elem_of_lives, HL. by left.
Qed.

(** X1: conservation in the free-list allocator.  In every state a client
    can reach, the sizes of the blocks on the free list, the sizes in the
    headers of the blocks the client holds and the 24 bytes of the
    descriptor add up to the arena size. *)
Theorem fl_conservation
    (m0 m : mem) (a size : Z) (cs : list call) (ps : list (Z * Z)) :
  fl_reach m0 a size cs m ps →
  ∃ fr, FreeList.free_blocks m a = Some fr ∧
        FL.sum_sizes fr + foldr Z.add 0 (fl_held_sizes m ps)
        + FreeList.sizeof_Allocator = size.
Proof.
  intros Hr. apply fl_reach_cinv in Hr as (bs & L & Hinv & HL & Hps).
  exists (FL.frees bs). split; [apply (FL.free_blocks_spec _ _ _ _ Hinv)|].
  rewrite (fl_held_sizes_sum m bs 0 ps L (FL.inv_hdrs _ _ _ _ Hinv) Hps).
  - rewrite (sum_sizes_perm _ _ HL). apply (FL.inv_conservation _ _ _ _ Hinv).
  - intros x Hx. by rewrite <- HL.
Qed.

(** Reaching a state, by evaluation. *)
Lemma fl_reach_example :
  ∃ (m : mem) (ps : list (Z * Z)),
    fl_reach ∅ 65536 4096 [Alloc 100; Alloc 40; Free 1] m ps.
Proof.
  assert (Hs : (λ _ : mem * list (Z * Z), tt)
               <$> run_calls FreeList.allocator_alloc FreeList.allocator_free
                     65536 ((FreeList.allocator_create ∅ 65536 4096).2, [])
                     [Alloc 100; Alloc 40; Free 1]
               = Some tt) by (vm_compute; reflexivity).
  revert Hs.
  destruct (run_calls FreeList.allocator_alloc FreeList.allocator_free
              65536 ((FreeList.allocator_create ∅ 65536 4096).2, [])
              [Alloc 100; Alloc 40; Free 1]) as [[m ps]|] eqn:E; [|discriminate].
  intros _. exists m, ps.
  unfold fl_reach. split; [lia|]. split; [vm_compute; discriminate|].
  split; [lia|]. split; [|exact E].
  repeat constructor; vm_compute; discriminate.
Defined.

Lemma fl_conservation_witness :
  ∃ (m : mem) (ps : list (Z * Z)),
    fl_reach ∅ 65536 4096 [Alloc 100; Alloc 40; Free 1] m ps ∧
    ∃ fr, FreeList.free_blocks m 65536 = Some fr ∧
          FL.sum_sizes fr + foldr Z.add 0 (fl_held_sizes m ps)
          + FreeList.sizeof_Allocator = 4096.
Proof.
  destruct fl_reach_example as (m & ps & Hr).
  exists m, ps. split; [exact Hr|].
  exact (fl_conservation ∅ m 65536 4096 _ ps Hr).
Defined.

(** Free blocks of a coalesced tiling: each ends before the next starts. *)
Lemma fl_frees_gaps lo hi bs :
  FL.tiled lo hi bs → nadj bs →
  (∀ i x y, FL.frees bs !! i = Some x → FL.frees bs !! S i = Some y →
            x.1 + x.2 < y.1) ∧
  Forall (λ x : Z * Z, lo <= x.1) (FL.frees bs) ∧
  (starts_live bs → Forall (λ x : Z * Z, lo < x.1) (FL.frees bs)).
Proof.
  revert lo. induction bs as [|[[b s] f] bs IH]; intros lo Ht Hn.
  - split; [done|]. split; [constructor|]. intros _. constructor.
  - simpl in Ht. destruct Ht as (-> & Hs & Ht). destruct Hn as [Hsl Hn].
    destruct (IH _ Ht Hn) as (IH1 & IH2 & IH3). destruct f.
    + change (FL.frees ((lo, s, true) :: bs)) with ((lo, s) :: FL.frees bs).
      specialize (IH3 (Hsl eq_refl)). split; [|split].
      * intros [|i] x y Hx Hy; simpl in Hx, Hy.
        -- simplify_eq. rewrite Forall_forall in IH3. simpl.
           apply (IH3 y). by eapply list_elem_of_lookup_2.
        -- by eapply IH1.
      * constructor; [simpl; lia|].
        eapply Forall_impl; [apply IH2|]. simpl. intros x. lia.
      * done.
    + change (FL.frees ((lo, s, false) :: bs)) with (FL.frees bs).
      split; [done|]. split.
      * eapply Forall_impl; [apply IH2|]. simpl. intros x. lia.
      * intros _. eapply Forall_impl; [apply IH2|]. simpl. intros x. lia.
Qed.

(** X2: the free list stays in address order and coalesced.  In every
    state a client can reach, each block on the free list ends below the
    start of the next one on the list: the list is strictly ascending by
    address and no two of its blocks are adjacent. *)
Theorem fl_free_list_ascending_with_gaps
    (m0 m : mem) (a size : Z) (cs : list call) (ps : list (Z * Z)) :
  fl_reach m0 a size cs m ps →
  ∃ fr, FreeList.free_blocks m a = Some fr ∧
        ∀ i x y, fr !! i = Some x → fr !! S i = Some y → x.1 + x.2 < y.1.
Proof.
  intros Hr. apply fl_reach_cinv2 in Hr as (bs & L & Hinv & _ & _ & Hn & _).
  exists (FL.frees bs). split; [apply (FL.free_blocks_spec _ _ _ _ Hinv)|].
  apply (fl_frees_gaps _ _ _ (FL.inv_tiled _ _ _ _ Hinv) Hn).
Qed.

Lemma fl_free_list_ascending_with_gaps_witness :
  ∃ (m : mem) (ps : list (Z * Z)),
    fl_reach ∅ 65536 4096 [Alloc 100; Alloc 40; Free 1] m ps ∧
    ∃ fr, FreeList.free_blocks m 65536 = Some fr ∧
          ∀ i x y, fr !! i = Some x → fr !! S i = Some y → x.1 + x.2 < y.1.
Proof.
  destruct fl_reach_example as (m & ps & Hr).
  exists m, ps. split; [exact Hr|].
  exact (fl_free_list_ascending_with_gaps ∅ m 65536 4096 _ ps Hr).
Defined.

Lemma fl_lives_nil_all_free bs :
  FL.lives bs = [] → Forall (λ x : FL.blk, x.2 = true) bs.
Proof.
  induction bs as [|[[b s] [|]] bs IH]; [constructor| |done].
  intros H. constructor; [done | by apply IH].
Qed.

(** X3: when everything is freed the arena is one block again.  In every
    state a client can reach in which it holds no pointer, whatever the
    calls and their order were, the free list is the one block that
    [create] made: at [a + 24], of [size - 24] bytes. *)
Theorem fl_all_freed_one_block
    (m0 m : mem) (a size : Z) (cs : list call) :
  fl_reach m0 a size cs m [] →
  FreeList.free_blocks m a = Some [(a + 24, size - 24)].
Proof.
  intros Hr. pose proof Hr as (_ & _ & Hsz & _).
  apply fl_reach_cinv2 in Hr as (bs & L & Hinv & HL & Hps & Hn & _).
  rewrite (FL.free_blocks_spec _ _ _ _ Hinv). f_equal.
  apply Forall2_nil_inv_l in Hps as ->.
  apply Permutation_nil_l in HL. symmetry in HL.
  apply fl_lives_nil_all_free in HL.
  pose proof (FL.inv_tiled _ _ _ _ Hinv) as Ht.
  destruct bs as [|[[b s] f] bs]; [simpl in Ht; lia|].
  apply Forall_cons in HL as [Hf HL]. simpl in Hf. subst f.
  destruct bs as [|[[b' s'] f'] bs].
  - simpl in Ht. destruct Ht as (-> & _ & Ht). simpl.
    repeat f_equal. lia.
  - apply Forall_cons in HL as [Hf' _]. simpl in Hf'. subst f'.
    destruct Hn as [Hsl _]. by specialize (Hsl eq_refl).
Qed.

Lemma fl_all_freed_one_block_witness :
  ∃ m : mem,
    fl_reach ∅ 65536 4096 [Alloc 100; Alloc 40; Free 1; Alloc 8; Free 0; Free 0] m [] ∧
    FreeList.free_blocks m 65536 = Some [(65536 + 24, 4096 - 24)].
Proof.
  assert (Hs : snd <$> run_calls FreeList.allocator_alloc FreeList.allocator_free
                     65536 ((FreeList.allocator_create ∅ 65536 4096).2, [])
                     [Alloc 100; Alloc 40; Free 1; Alloc 8; Free 0; Free 0]
               = Some []) by (vm_compute; reflexivity).
  revert Hs.
  destruct (run_calls FreeList.allocator_alloc FreeList.allocator_free
              65536 ((FreeList.allocator_create ∅ 65536 4096).2, [])
              [Alloc 100; Alloc 40; Free 1; Alloc 8; Free 0; Free 0])
    as [[m ps]|] eqn:E; [|discriminate].
  intros [= ->]. exists m.
  assert (Hr : fl_reach ∅ 65536 4096
                 [Alloc 100; Alloc 40; Free 1; Alloc 8; Free 0; Free 0] m []).
  { unfold fl_reach. split; [lia|]. split; [vm_compute; discriminate|].
    split; [lia|]. split; [|exact E].
    repeat constructor; vm_compute; discriminate. }
  split; [exact Hr|].
  exact (fl_all_freed_one_block ∅ m 65536 4096 _ Hr).
Defined.

(** X4: [alloc] then [free] is a round trip on the free list.  In every
    state a client can reach, when [alloc] of [n > 0] bytes (no wrap in the
    size arithmetic) returns a pointer, [free] of that pointer returns and
    leaves the free list, blocks and sizes, as it was before the [alloc]:
    a block that was split is merged with its tail again. *)
Theorem fl_alloc_free_round_trip
    (m0 m m' : mem) (a size n p : Z) (cs : list call) (ps : list (Z * Z)) :
  fl_reach m0 a size cs m ps → 0 < n → FL.size_ok n →
  FreeList.allocator_alloc m a n = Some (p, m') → p ≠ 0 →
  ∃ m'', FreeList.allocator_free m' a p = Some m'' ∧
         FreeList.free_blocks m'' a = FreeList.free_blocks m a.
Proof.
  intros Hr Hn Hok Hal Hp.
  apply fl_reach_cinv2 in Hr as (bs & L & Hinv & _ & _ & Hna & _).
  destruct (FL.alloc_spec _ _ _ _ n Hinv Hn Hok)
    as [[_ Ha0]|(pre & b & s & post & m1 & -> & Hsm & Hs & Hal' & Hinv')].
  { rewrite Ha0 in Hal. by simplify_eq. }
  rewrite Hal' in Hal. simplify_eq.
  rewrite nadj_app in Hna. cbn [nadj] in Hna.
  destruct Hna as (_ & (Hsl & _) & [He|[]]). specialize (Hsl eq_refl).
  destruct (next_starts_live s post Hsl) as [Hns Hnr].
  rewrite (FL.free_blocks_spec _ _ _ _ Hinv).
  unfold FL.taken in Hinv'. destruct (FL.need_of n + 40 <=? s).
  - cbn [app] in Hinv'.
    destruct (FL.free_spec _ _ _ _ _ _ _ Hinv') as (m2 & Hf & Hinv2).
    exists m2. split; [done|].
    rewrite (FL.free_blocks_spec _ _ _ _ Hinv2). f_equal.
    unfold FL.freed. cbn [FL.next_size FL.next_rest].
    rewrite FL.merge_prev_live by done.
    replace (FL.need_of n + (s - FL.need_of n)) with s by lia.
    by rewrite <- app_assoc.
  - cbn [app] in Hinv'.
    destruct (FL.free_spec _ _ _ _ _ _ _ Hinv') as (m2 & Hf & Hinv2).
    exists m2. split; [done|].
    rewrite (FL.free_blocks_spec _ _ _ _ Hinv2). f_equal.
    unfold FL.freed. rewrite Hns, Hnr, FL.merge_prev_live by done.
    by rewrite <- app_assoc.
Qed.

Lemma fl_alloc_free_round_trip_witness :
  ∃ (m m' : mem) (ps : list (Z * Z)),
    fl_reach ∅ 65536 4096 [Alloc 100; Alloc 40; Free 1] m ps ∧
    FreeList.allocator_alloc m 65536 64 = Some (65584, m') ∧
    ∃ m'', FreeList.allocator_free m' 65536 65584 = Some m'' ∧
           FreeList.free_blocks m'' 65536 = FreeList.free_blocks m 65536.
Proof.
  assert (Hs : (run_calls FreeList.allocator_alloc FreeList.allocator_free
                  65536 ((FreeList.allocator_create ∅ 65536 4096).2, [])
                  [Alloc 100; Alloc 40; Free 1]
                ≫= λ st, fst <$> FreeList.allocator_alloc st.1 65536 64)
               = Some 65584) by (vm_compute; reflexivity).
  revert Hs.
  destruct (run_calls FreeList.allocator_alloc FreeList.allocator_free
              65536 ((FreeList.allocator_create ∅ 65536 4096).2, [])
              [Alloc 100; Alloc 40; Free 1]) as [[m ps]|] eqn:E; [|discriminate].
  rewrite bind_Some_eq. cbn [fst].
  destruct (FreeList.allocator_alloc m 65536 64) as [[p m']|] eqn:Ea;
    [|discriminate].
  intros [= ->].
  assert (Hr : fl_reach ∅ 65536 4096 [Alloc 100; Alloc 40; Free 1] m ps).
  { unfold fl_reach. split; [lia|]. split; [vm_compute; discriminate|].
    split; [lia|]. split; [|exact E].
    repeat constructor; vm_compute; discriminate. }
  exists m, m', ps. split; [exact Hr|]. split; [exact Ea|].
  apply (fl_alloc_free_round_trip ∅ m m' 65536 4096 64 65584 _ ps Hr);
    [lia | split; [lia | vm_compute; reflexivity] | exact Ea | lia].
Defined.

(** X5: alignment of the pointers of the free-list allocator.  In every
    state a client can reach, every pointer it holds is at a multiple of 8
    from [memory]; the request sizes are rounded up to 16, but the 24-byte
    headers put the pointers at 8 modulo 16 as well: the second of two
    [alloc(100)] over memory at 65536 is 65720. *)
Theorem fl_pointers_aligned_8 :
  (∀ (m0 m : mem) (a size : Z) (cs : list call) (ps : list (Z * Z)),
     fl_reach m0 a size cs m ps →
     Forall (λ pn : Z * Z, (pn.1 - a) mod 8 = 0) ps) ∧
  snd <$> fl_after ∅ 65536 4096 [Alloc 100; Alloc 100]
  = Some [(65720, 100); (65584, 100)] ∧
  (65720 - 65536) mod 16 = 8.
Proof.
  split; [|split; vm_compute; reflexivity].
  intros m0 m a size cs ps Hr.
  apply fl_reach_cinv2 in Hr as (bs & L & Hinv & HL & Hps & _ & Hal).
  apply Forall_forall. intros [p n] Hin.
  apply list_elem_of_lookup in Hin as [i Hi].
  destruct (Forall2_lookup_l _ _ _ _ _ Hps Hi) as ([b s] & HLi & (Hp & _)).
  simpl in Hp. simpl.
  assert (Hin : (b, s, false) ∈ bs).
  { apply fl_elem_of_lives. rewrite <- HL. by eapply list_elem_of_lookup_2. }
  rewrite Forall_forall in Hal. specialize (Hal _ Hin). simpl in Hal.
  replace (p - a) with ((b - a) + 24) by lia.
  rewrite Z.add_mod, Hal by lia. done.
Qed.

Lemma fl_pointers_aligned_8_witness :
  ∃ (m : mem) (ps : list (Z * Z)),
    fl_reach ∅ 65536 4096 [Alloc 100; Alloc 40; Free 1] m ps ∧
    Forall (λ pn : Z * Z, (pn.1 - 65536) mod 8 = 0) ps.
Proof.
  destruct fl_reach_example as (m & ps & Hr).
  exists m, ps. split; [exact Hr|].
  exact (proj1 fl_pointers_aligned_8 ∅ m 65536 4096 _ ps Hr).
Defined.

(** X6: the [free] flag tells free blocks from live ones.  In every state
    a client can reach, every block on the free list has its flag set and
    its size in its header, and every block the client holds has its flag
    clear and a size that holds the header and the bytes asked for. *)
Theorem fl_free_flags
    (m0 m : mem) (a size : Z) (cs : list call) (ps : list (Z * Z)) :
  fl_reach m0 a size cs m ps →
  ∃ fr, FreeList.free_blocks m a = Some fr ∧
        Forall (λ x : Z * Z, load 4 (FreeList.bfree x.1) m = 1 ∧
                             load 8 (FreeList.bsize x.1) m = x.2) fr ∧
        Forall (λ pn : Z * Z,
                  let b := FreeList.ptr_to_block pn.1 in
                  load 4 (FreeList.bfree b) m = 0 ∧
                  pn.2 + FreeList.sizeof_block_header
                  <= load 8 (FreeList.bsize b) m) ps.
Proof.
  intros Hr. apply fl_reach_cinv in Hr as (bs & L & Hinv & HL & Hps).
  pose proof (FL.inv_hdrs _ _ _ _ Hinv) as Hh.
  exists (FL.frees bs). split; [apply (FL.free_blocks_spec _ _ _ _ Hinv)|].
  split.
  - apply Forall_forall. intros [b s] Hin. apply fl_elem_of_frees in Hin.
    destruct (fl_hdrs_elem _ _ _ _ _ _ Hh Hin) as [H1 H2]. done.
  - apply Forall_forall. intros [p n] Hin.
    apply list_elem_of_lookup in Hin as [i Hi].
    destruct (Forall2_lookup_l _ _ _ _ _ Hps Hi) as ([b s] & HLi & (Hp & Hn & Hns)).
    simpl in Hp, Hn, Hns. cbn zeta. cbn [fst snd].
    replace (FreeList.ptr_to_block p) with b
      by (unfold FreeList.ptr_to_block, FreeList.sizeof_block_header; lia).
    assert (Hin : (b, s, false) ∈ bs).
    { apply fl_elem_of_lives. rewrite <- HL. by eapply list_elem_of_lookup_2. }
    destruct (fl_hdrs_elem _ _ _ _ _ _ Hh Hin) as [H1 H2].
    unfold FreeList.sizeof_block_header. rewrite H1, H2. lia.
Qed.

Lemma fl_free_flags_witness :
  ∃ (m : mem) (ps : list (Z * Z)),
    fl_reach ∅ 65536 4096 [Alloc 100; Alloc 40; Free 1] m ps ∧
    ∃ fr, FreeList.free_blocks m 65536 = Some fr ∧
          Forall (λ x : Z * Z, load 4 (FreeList.bfree x.1) m = 1 ∧
                               load 8 (FreeList.bsize x.1) m = x.2) fr ∧
          Forall (λ pn : Z * Z,
                    let b := FreeList.ptr_to_block pn.1 in
                    load 4 (FreeList.bfree b) m = 0 ∧
                    pn.2 + FreeList.sizeof_block_header
                    <= load 8 (FreeList.bsize b) m) ps.
Proof.
  destruct fl_reach_example as (m & ps & Hr).
  exists m, ps. split; [exact Hr|].
  exact (fl_free_flags ∅ m 65536 4096 _ ps Hr).
Defined.

(** ** [allocator_create] of the free-list allocator *)

Lemma while_exit {St R : Type} (body : St → St + R) s r :
  body s = inr r → while body s = Some r.
Proof.
  intros H. apply (while_fuel_while body 1); [|done].
  by rewrite while_fuel_S, H.
Qed.

Lemma while_step {St R : Type} (body : St → St + R) k s s' r :
  body s = inl s' → while_fuel body k s' = Some r →
  while_fuel body (S k) s = Some r.
Proof. intros H1 H2. by rewrite while_fuel_S, H1. Qed.

(** The memory that [create] leaves, field by field. *)
Lemma fl_create_fields m0 a size :
  0 < a → a + 48 <= 2 ^ 64 → 0 <= size < 2 ^ 64 →
  ∃ m, FreeList.allocator_create m0 a size = (a, m) ∧
       load 8 (FreeList.base_of a) m = a ∧
       load 8 (FreeList.size_of a) m = size ∧
       load 8 (FreeList.free_list_of a) m = a + 24 ∧
       load 8 (FreeList.bsize (a + 24)) m = wrap (size - 24) ∧
       load 8 (FreeList.bnext (a + 24)) m = 0 ∧
       load 4 (FreeList.bfree (a + 24)) m = 1.
Proof.
  intros Ha Hend Hsz. unfold FreeList.allocator_create.
  change (align_up FreeList.sizeof_Allocator FreeList.alignof_block_header) with 24.
  unfold FreeList.bsize, FreeList.bnext, FreeList.bfree, FreeList.base_of,
    FreeList.size_of, FreeList.free_list_of.
  replace (load 8 a (store 8 (a + 8) size (store 8 a a m0))) with a
    by (FL.ldst; done).
  pose proof (wrap_range (size - 24)) as Hw.
  eexists. split; [reflexivity|].
  split; [FL.ldst; done|]. split; [FL.ldst; done|]. split; [FL.ldst; done|].
  split; [FL.ldst; done|]. split; [FL.ldst; done|]. FL.ldst. done.
Qed.

(** X7: [create] of the free-list allocator checks nothing.  For every
    [size], it returns [memory] itself, with the descriptor written and one
    free block at [memory + 24] whose size field is [size - 24] modulo
    [2^64]: for [size >= 24] the bytes after the descriptor, for
    [size < 24] the wrapped value [2^64 + size - 24]. *)
Theorem fl_create_never_fails (m0 : mem) (a size : Z) :
  0 < a → a + 48 <= 2 ^ 64 → 0 <= size < 2 ^ 64 →
  ∃ m, FreeList.allocator_create m0 a size = (a, m) ∧
       load 8 (FreeList.base_of a) m = a ∧
       load 8 (FreeList.size_of a) m = size ∧
       FreeList.free_blocks m a
       = Some [(a + 24, if 24 <=? size then size - 24 else 2 ^ 64 + size - 24)].
Proof.
  intros Ha Hend Hsz.
  destruct (fl_create_fields m0 a size Ha Hend Hsz)
    as (m & Hc & Hb & Hs & Hh & Hbs & Hbn & Hbf).
  exists m. split; [done|]. split; [done|]. split; [done|].
  assert (Hw : wrap (size - 24)
               = if 24 <=? size then size - 24 else 2 ^ 64 + size - 24).
  { destruct (Z.leb_spec 24 size).
    - apply wrap_small. lia.
    - unfold wrap. symmetry. apply (Z.mod_unique _ _ (-1)); lia. }
  unfold FreeList.free_blocks. rewrite Hh.
  apply (while_fuel_while _ 2); [|done].
  apply (while_step _ _ _ ([(a + 24, wrap (size - 24))], 0)).
  - unfold FreeList.walk_body. rewrite (proj2 (Z.eqb_neq (a + 24) 0)) by lia.
    by rewrite Hbs, Hbn.
  - rewrite while_fuel_S. unfold FreeList.walk_body. simpl. by rewrite Hw.
Qed.

Lemma fl_create_never_fails_witness :
  ∃ m, FreeList.allocator_create ∅ 65536 16 = (65536, m) ∧
       load 8 (FreeList.base_of 65536) m = 65536 ∧
       load 8 (FreeList.size_of 65536) m = 16 ∧
       FreeList.free_blocks m 65536
       = Some [(65536 + 24, if 24 <=? 16 then 16 - 24 else 2 ^ 64 + 16 - 24)].
Proof.
  apply (fl_create_never_fails ∅ 65536 16);
    [lia | vm_compute; discriminate | split; [lia | vm_compute; reflexivity]].
Defined.

(** The bytes that [create] writes are the 48 bytes from [memory] on. *)
Lemma fl_create_frame m0 a size :
  0 < a → a + 48 <= 2 ^ 64 →
  BD.same_outside a (a + 48) m0 (FreeList.allocator_create m0 a size).2.
Proof.
  intros Ha Hend. unfold FreeList.allocator_create.
  change (align_up FreeList.sizeof_Allocator FreeList.alignof_block_header) with 24.
  unfold FreeList.bsize, FreeList.bnext, FreeList.bfree, FreeList.base_of,
    FreeList.size_of, FreeList.free_list_of.
  replace (load 8 a (store 8 (a + 8) size (store 8 a a m0))) with a
    by (FL.ldst; done).
  cbn [snd].
  repeat (apply BD.same_outside_store; [|lia|simpl; lia]).
  apply BD.same_outside_refl.
Qed.

(** X8: after [create] over fewer than 24 bytes, [alloc] hands out memory
    beyond the arena.  For a request of [n > 0] bytes such that the
    [n + 88] bytes from [memory] on lie below [2^64] (and can be written: the
    memory of this development has no address that cannot): the one free
    block has the wrapped size, the request fits it, and [alloc] returns
    [memory + 48], past the end [memory + size] of the arena.  [create] and
    [alloc] together write inside these [n + 88] bytes only: no address
    wraps, and what they write past [memory + size] (the block header at
    [memory + 24], the header of the tail that [split_block] cuts off) lies
    within them. *)
Theorem fl_create_small_then_alloc_outside (m0 : mem) (a size n : Z) :
  0 < a → 0 <= size < 24 → 0 < n → a + n + 88 <= 2 ^ 64 →
  ∃ m1 m2, FreeList.allocator_create m0 a size = (a, m1) ∧
           FreeList.allocator_alloc m1 a n = Some (a + 48, m2) ∧
           a + size < a + 48 ∧
           BD.same_outside a (a + n + 88) m0 m2.
Proof.
  intros Ha Hsz Hn Hend.
  assert (H64 : (2:Z) ^ 64 = 18446744073709551616) by done.
  destruct (fl_create_fields m0 a size Ha ltac:(lia) ltac:(lia))
    as (m & Hc & Hb & Hs & Hh & Hbs & Hbn & Hbf).
  pose proof (fl_create_frame m0 a size Ha ltac:(lia)) as Hfr.
  rewrite Hc in Hfr. cbn [snd] in Hfr.
  assert (Hw : wrap (size - 24) = 2 ^ 64 + size - 24).
  { unfold wrap. symmetry. apply (Z.mod_unique _ _ (-1)); lia. }
  destruct (FL.need_of_bounds n Hn) as (_ & Hnb & _); [split; lia|].
  destruct (FreeList.alloc_take m (FreeList.free_list_of a) (a + 24) (FL.need_of n))
    as [p m2] eqn:Et.
  assert (Hp : p = a + 48 ∧ BD.same_outside a (a + n + 88) m0 m2).
  { unfold FreeList.alloc_take in Et. injection Et as <- <-.
    split; [unfold FreeList.sizeof_block_header; lia|].
    assert (Hwide : BD.same_outside a (a + n + 88) m0 m).
    { intros w x Hx. apply Hfr. lia. }
    unfold FreeList.bsize, FreeList.bnext, FreeList.bfree, FreeList.free_list_of.
    repeat (apply BD.same_outside_store; [|lia|simpl; lia]).
    unfold FreeList.split_block.
    destruct (_ <=? _); [|done].
    unfold FreeList.bsize, FreeList.bnext, FreeList.bfree.
    repeat (apply BD.same_outside_store; [|lia|simpl; lia]).
    done. }
  destruct Hp as [-> Hfr2]. exists m, m2. split; [done|].
  split; [|split; [lia|done]].
  unfold FreeList.allocator_alloc. rewrite (proj2 (Z.eqb_neq n 0)) by lia.
  fold (FL.need_of n). rewrite Hh.
  apply while_exit. unfold FreeList.alloc_body.
  rewrite (proj2 (Z.eqb_neq (a + 24) 0)) by lia.
  rewrite Hbf, Hbs, Hw. change (1 =? 0) with false.
  rewrite (proj2 (Z.leb_le (FL.need_of n) _)) by lia.
  cbn [negb andb]. by rewrite Et.
Qed.

Lemma fl_create_small_then_alloc_outside_witness :
  ∃ m1 m2, FreeList.allocator_create ∅ 65536 16 = (65536, m1) ∧
           FreeList.allocator_alloc m1 65536 100 = Some (65536 + 48, m2) ∧
           65536 + 16 < 65536 + 48 ∧
           BD.same_outside 65536 (65536 + 100 + 88) ∅ m2.
Proof.
  apply (fl_create_small_then_alloc_outside ∅ 65536 16 100);
    [lia | lia | lia | vm_compute; discriminate].
Defined.

(** ** More on the states of the buddy allocator *)

(** The client invariant with the arena start kept: it is a multiple of
    16. *)
Definition bd_cinv16 (A size : Z) (m : mem) (ps : list (Z * Z)) : Prop :=
  ∃ lo hi mx bl, BD.inv m A lo hi mx bl ∧ A + 544 <= lo ∧ hi <= A + size ∧
                 Forall2 bd_owns ps (BD.lives bl) ∧ lo mod 16 = 0.

Lemma bd_cinv16_step A size m ps c :
  bd_cinv16 A size m ps → bd_call_ok c →
  ∃ m' ps', step Buddy.allocator_alloc Buddy.allocator_free A (m, ps) c
            = Some (m', ps') ∧ bd_cinv16 A size m' ps'.
Proof.
  intros (lo & hi & mx & bl & Hinv & Hlo & Hhi & Hps & H16) Hc.
  destruct c as [n|i].
  - destruct (decide (n = 0)) as [->|Hn0].
    { exists m, ps. split; [done|]. by exists lo, hi, mx, bl. }
    destruct Hc as [Hn Hok]. assert (Hn1 : 0 < n) by lia.
    destruct (BD.bd_alloc_spec _ _ _ _ _ _ n Hinv Hn1 (conj Hn Hok))
      as (k & _ & Hk & Hnk & _ & [[_ Ha0]|(_ & _ & b & m' & bl' & Hal & Hinv' & Hl)]).
    { exists m, ps. split; [by rewrite (step_alloc_eq _ _ _ _ _ _ _ _ Ha0)|].
      by exists lo, hi, mx, bl. }
    assert (Hb : A + 544 <= b).
    { pose proof (BD.inv_blocks _ _ _ _ _ _ Hinv') as Hok'.
      apply Forall_cons in Hok' as [(_ & ? & _) _]. simpl in *. lia. }
    pose proof (BD.inv_pos _ _ _ _ _ _ Hinv) as HA.
    exists m', ((b + 2, n) :: ps). split.
    { rewrite (step_alloc_eq _ _ _ _ _ _ _ _ Hal).
      by rewrite (proj2 (Z.eqb_neq (b + 2) 0)) by lia. }
    exists lo, hi, mx, ((b, k, false) :: bl'). split; [done|]. split; [done|].
    split; [done|]. split; [|done]. rewrite BD.lives_cons_live, Hl.
    constructor; [|done]. unfold bd_owns. simpl. lia.
  - destruct (ps !! i) as [[p n]|] eqn:Hi.
    + destruct (Forall2_lookup_l _ _ _ _ _ Hps Hi) as ([b k] & HLi & Hown).
      destruct Hown as (Hp & Hn & Hns). simpl in Hp, Hn, Hns. subst p.
      destruct (bd_lives_lookup_split _ _ _ _ HLi) as (bl1 & bl2 & -> & Hlen).
      destruct (BD.bd_free_spec _ _ _ _ _ _ _ _ _ Hinv)
        as (m' & bl' & Hfree & Hinv' & Hl).
      exists m', (delete i ps). split.
      { by apply (step_free_eq _ _ _ _ _ _ _ n _ _ Hi Hfree). }
      exists lo, hi, mx, bl'. split; [done|]. split; [done|]. split; [done|].
      split; [|done].
      rewrite Hl. rewrite BD.lives_app in Hps |- *.
      rewrite BD.lives_cons_live in Hps.
      replace (BD.lives bl1 ++ BD.lives bl2)
        with (delete i (BD.lives bl1 ++ (b, k) :: BD.lives bl2)).
      * by apply Forall2_delete.
      * rewrite <- Hlen. rewrite delete_middle. done.
    + exists m, ps. split; [|by exists lo, hi, mx, bl].
      unfold step. by rewrite Hi.
Qed.

Lemma bd_cinv16_run A size m ps cs :
  bd_cinv16 A size m ps → Forall bd_call_ok cs →
  ∃ m' ps', run_calls Buddy.allocator_alloc Buddy.allocator_free A (m, ps) cs
            = Some (m', ps') ∧ bd_cinv16 A size m' ps'.
Proof.
  intros Hinv Hcs. revert m ps Hinv.
  induction Hcs as [|c cs Hc _ IH]; intros m ps Hinv.
  - by exists m, ps.
  - destruct (bd_cinv16_step _ _ _ _ c Hinv Hc) as (m1 & ps1 & Hs & Hinv1).
    rewrite run_calls_cons, Hs, bind_Some_eq. by apply IH.
Qed.

Lemma bd_reach_cinv16 m0 A size cs m ps :
  bd_reach m0 A size cs m ps → bd_cinv16 A size m ps.
Proof.
  intros (HA & Hend & Hsz & Hcs & m1 & Hc & Hrun).
  assert (H64 : (2:Z) ^ 64 = 18446744073709551616) by done.
  assert (Hbig : 608 <= size).
  { destruct (decide (608 <= size)) as [?|Hn]; [done|].
    destruct (BD.create_fail m0 A size) as (mf & Hf); [lia | |].
    - rewrite wrap_small; lia.
    - rewrite Hf in Hc. simplify_eq. lia. }
  destruct (BD.create_spec m0 A size HA Hend Hbig)
    as (m1' & mx & Hc' & Hmx & Hp & _ & Hinv).
  rewrite Hc' in Hc. simplify_eq.
  destruct (bd_cinv16_run A size m1 [] cs) as (m' & ps' & Hrun' & Hci); [|done|].
  - exists (BD.aligned_of A mx), (BD.aligned_of A mx + BD.usable_of A size mx),
      mx, (BD.seed (BD.aligned_of A mx) mx (BD.usable_of A size mx / 2 ^ mx)).
    split; [exact Hinv|].
    pose proof (BD.pow2_pos mx ltac:(lia)) as Hpm.
    pose proof (Z.mod_pos_bound (A + 544 + (2 ^ mx - 1)) (2 ^ mx) Hpm) as Hmod.
    assert (Hal : A + 544 <= BD.aligned_of A mx < A + 544 + 2 ^ mx)
      by (unfold BD.aligned_of; lia).
    pose proof (Z.mod_pos_bound
                  (size - 544 - (BD.aligned_of A mx - (A + 544))) (2 ^ mx) Hpm) as Hmod2.
    rewrite BD.seed_lives.
    split; [lia|]. split; [unfold BD.usable_of; lia|]. split; [constructor|].
    assert (Hd : (BD.aligned_of A mx) mod 2 ^ mx = 0)
      by (apply round_down_mod; lia).
    apply Z.mod_divide in Hd as [q Hq]; [|lia].
    rewrite Hq. replace mx with ((mx - 4) + 4) at 1 by lia.
    rewrite Z.pow_add_r by lia. change (2 ^ 4) with 16.
    rewrite Z.mul_assoc. apply Z.mod_mul. lia.
  - rewrite Hrun in Hrun'. by simplify_eq.
Qed.

(** Reaching a state of the buddy allocator, by evaluation. *)
Lemma bd_reach_example :
  ∃ (m : mem) (ps : list (Z * Z)),
    bd_reach ∅ 65536 4096 [Alloc 100; Alloc 40; Free 1] m ps.
Proof.
  set (c := Buddy.allocator_create ∅ 65536 4096).
  set (m1 := default ∅ (snd <$> c)).
  assert (Hc : c = Some (65536, m1)).
  { assert (Hf : fst <$> c = Some 65536) by (vm_compute; reflexivity).
    unfold m1. destruct c as [[h mm]|]; [|discriminate].
    injection Hf as ->. reflexivity. }
  assert (Hs : (λ _ : mem * list (Z * Z), tt)
               <$> run_calls Buddy.allocator_alloc Buddy.allocator_free
                     65536 (m1, []) [Alloc 100; Alloc 40; Free 1]
               = Some tt) by (vm_compute; reflexivity).
  revert Hs.
  destruct (run_calls Buddy.allocator_alloc Buddy.allocator_free
              65536 (m1, []) [Alloc 100; Alloc 40; Free 1])
    as [[m ps]|] eqn:E; [|discriminate].
  intros _. exists m, ps.
  unfold bd_reach. split; [lia|]. split; [vm_compute; discriminate|].
  split; [lia|]. split; [|exists m1; split; [exact Hc | exact E]].
  repeat constructor; vm_compute; discriminate.
Defined.

(** X9: alignment of the pointers of the buddy allocator.  In every state
    a client can reach, every pointer it holds is at 2 modulo 16, as an
    address: 2 bytes, the order tag, past a block start that is a multiple of
    16.  No pointer is aligned to 4 bytes or more. *)
Theorem bd_pointers_2_mod_16
    (m0 m : mem) (A size : Z) (cs : list call) (ps : list (Z * Z)) :
  bd_reach m0 A size cs m ps →
  Forall (λ pn : Z * Z, pn.1 mod 16 = 2 ∧ pn.1 mod 4 = 2) ps.
Proof.
  intros Hr. apply bd_reach_cinv16 in Hr
    as (lo & hi & mx & bl & Hinv & Hlo & Hhi & Hps & H16).
  apply Forall_forall. intros [p n] Hin.
  apply list_elem_of_lookup in Hin as [i Hi].
  destruct (Forall2_lookup_l _ _ _ _ _ Hps Hi) as ([b k] & HLi & (Hp & _)).
  simpl in Hp. simpl.
  assert (Hin : (b, k, false) ∈ bl).
  { apply bd_elem_of_lives. by eapply list_elem_of_lookup_2. }
  pose proof (BD.inv_blocks _ _ _ _ _ _ Hinv) as Hok.
  rewrite Forall_forall in Hok. destruct (Hok _ Hin) as (_ & _ & _ & Hb).
  simpl in Hb.
  assert (Hp16 : p mod 16 = 2).
  { replace p with ((b - lo) + (lo + 2)) by lia.
    rewrite Z.add_mod, Hb by lia. rewrite Z.add_0_l, Z.mod_mod by lia.
    rewrite Z.add_mod, H16 by lia. done. }
  split; [done|].
  pose proof (Z.div_mod p 16 ltac:(lia)) as Hd. rewrite Hp16 in Hd.
  rewrite Hd. replace (16 * (p / 16) + 2) with (2 + (4 * (p / 16)) * 4) by lia.
  by rewrite Z.mod_add.
Qed.

Lemma bd_pointers_2_mod_16_witness :
  ∃ (m : mem) (ps : list (Z * Z)),
    bd_reach ∅ 65536 4096 [Alloc 100; Alloc 40; Free 1] m ps ∧
    Forall (λ pn : Z * Z, pn.1 mod 16 = 2 ∧ pn.1 mod 4 = 2) ps.
Proof.
  destruct bd_reach_example as (m & ps & Hr).
  exists m, ps. split; [exact Hr|].
  exact (bd_pointers_2_mod_16 ∅ m 65536 4096 _ ps Hr).
Defined.

(** X10: the order tags of the buddy allocator are valid.  In every state
    a client can reach, the tag before every pointer it holds is an order
    between [min_order] and [max_order] whose block holds the tag and the
    bytes asked for and lies inside the arena, after the descriptor. *)
Theorem bd_tags_valid
    (m0 m : mem) (A size : Z) (cs : list call) (ps : list (Z * Z)) :
  bd_reach m0 A size cs m ps →
  Forall (λ pn : Z * Z,
            let b := pn.1 - Buddy.sizeof_uint16_t in
            let k := load 2 b m in
            Buddy.load_int (Buddy.min_order_of A) m <= k
            <= Buddy.load_int (Buddy.max_order_of A) m ∧
            pn.2 + Buddy.sizeof_uint16_t <= 2 ^ k ∧
            A + 544 <= b ∧ b + 2 ^ k <= A + size) ps.
Proof.
  intros Hr. apply bd_reach_cinv in Hr
    as (lo & hi & mx & bl & Hinv & Hlo & Hhi & Hps).
  apply Forall_forall. intros [p n] Hin.
  apply list_elem_of_lookup in Hin as [i Hi].
  destruct (Forall2_lookup_l _ _ _ _ _ Hps Hi) as ([b k] & HLi & (Hp & Hn & Hns)).
  simpl in Hp, Hn, Hns. cbn zeta. cbn [fst snd]. unfold Buddy.sizeof_uint16_t.
  replace (p - 2) with b by lia.
  assert (Hin : (b, k, false) ∈ bl).
  { apply bd_elem_of_lives. by eapply list_elem_of_lookup_2. }
  pose proof (BD.inv_blocks _ _ _ _ _ _ Hinv) as Hok.
  rewrite Forall_forall in Hok. destruct (Hok _ Hin) as (Hk & Hb1 & Hb2 & _).
  simpl in Hk, Hb1, Hb2.
  pose proof (BD.inv_tags _ _ _ _ _ _ Hinv) as Ht.
  rewrite Forall_forall in Ht. specialize (Ht _ Hin eq_refl). simpl in Ht.
  rewrite Ht, (BD.inv_min _ _ _ _ _ _ Hinv), (BD.inv_max _ _ _ _ _ _ Hinv).
  lia.
Qed.

Lemma bd_tags_valid_witness :
  ∃ (m : mem) (ps : list (Z * Z)),
    bd_reach ∅ 65536 4096 [Alloc 100; Alloc 40; Free 1] m ps ∧
    Forall (λ pn : Z * Z,
              let b := pn.1 - Buddy.sizeof_uint16_t in
              let k := load 2 b m in
              Buddy.load_int (Buddy.min_order_of 65536) m <= k
              <= Buddy.load_int (Buddy.max_order_of 65536) m ∧
              pn.2 + Buddy.sizeof_uint16_t <= 2 ^ k ∧
              65536 + 544 <= b ∧ b + 2 ^ k <= 65536 + 4096) ps.
Proof.
  destruct bd_reach_example as (m & ps & Hr).
  exists m, ps. split; [exact Hr|].
  exact (bd_tags_valid ∅ m 65536 4096 _ ps Hr).
Defined.

(** X11: the free lists of the buddy allocator hold disjoint blocks.  In
    every state a client can reach, the walk of every free list returns; a
    block on the list of order [k] has [min_order <= k <= max_order] and its
    [2^k] bytes lie inside the arena, after the descriptor; no block is on a
    list twice, and two blocks on the lists, of the same or of different
    orders, do not overlap. *)
Theorem bd_free_blocks_disjoint
    (m0 m : mem) (A size : Z) (cs : list call) (ps : list (Z * Z)) :
  bd_reach m0 A size cs m ps →
  ∃ fls : Z → list Z,
    (∀ k, 0 <= k < 64 → Buddy.free_list m A k = Some (fls k)) ∧
    (∀ k b, b ∈ fls k →
       Buddy.load_int (Buddy.min_order_of A) m <= k
       <= Buddy.load_int (Buddy.max_order_of A) m ∧
       A + 544 <= b ∧ b + 2 ^ k <= A + size) ∧
    (∀ k, NoDup (fls k)) ∧
    (∀ k1 k2 b1 b2, b1 ∈ fls k1 → b2 ∈ fls k2 → (k1, b1) ≠ (k2, b2) →
       b1 + 2 ^ k1 <= b2 ∨ b2 + 2 ^ k2 <= b1).
Proof.
  intros Hr. apply bd_reach_cinv in Hr
    as (lo & hi & mx & bl & Hinv & Hlo & Hhi & Hps).
  pose proof (BD.inv_blocks _ _ _ _ _ _ Hinv) as Hok.
  pose proof (BD.inv_pw _ _ _ _ _ _ Hinv) as Hpw.
  exists (BD.fl_of bl). split; [|split; [|split]].
  - intros k Hk. by apply (BD.free_list_spec _ _ _ _ _ _ k Hinv).
  - intros k b Hb. apply BD.elem_of_fl_of in Hb.
    rewrite Forall_forall in Hok. destruct (Hok _ Hb) as (Hk & Hb1 & Hb2 & _).
    simpl in Hk, Hb1, Hb2.
    rewrite (BD.inv_min _ _ _ _ _ _ Hinv), (BD.inv_max _ _ _ _ _ _ Hinv). lia.
  - intros k. apply BD.sepl_NoDup. by apply (BD.okb_sepl lo hi mx).
  - intros k1 k2 b1 b2 H1 H2 Hne.
    apply BD.elem_of_fl_of in H1, H2.
    destruct (BD.pw_elem _ _ _ Hpw H1 H2) as [E|Hap]; [by simplify_eq|].
    unfold BD.apart in Hap. simpl in Hap. lia.
Qed.

Lemma bd_free_blocks_disjoint_witness :
  ∃ (m : mem) (ps : list (Z * Z)),
    bd_reach ∅ 65536 4096 [Alloc 100; Alloc 40; Free 1] m ps ∧
    ∃ fls : Z → list Z,
      (∀ k, 0 <= k < 64 → Buddy.free_list m 65536 k = Some (fls k)) ∧
      (∀ k b, b ∈ fls k →
         Buddy.load_int (Buddy.min_order_of 65536) m <= k
         <= Buddy.load_int (Buddy.max_order_of 65536) m ∧
         65536 + 544 <= b ∧ b + 2 ^ k <= 65536 + 4096) ∧
      (∀ k, NoDup (fls k)) ∧
      (∀ k1 k2 b1 b2, b1 ∈ fls k1 → b2 ∈ fls k2 → (k1, b1) ≠ (k2, b2) →
         b1 + 2 ^ k1 <= b2 ∨ b2 + 2 ^ k2 <= b1).
Proof.
  destruct bd_reach_example as (m & ps & Hr).
  exists m, ps. split; [exact Hr|].
  exact (bd_free_blocks_disjoint ∅ m 65536 4096 _ ps Hr).
Defined.

(** ** The helpers of the buddy allocator *)

(** X12: [order_for] returns the least order, from [min_order] on, whose
    block holds the request and the 2-byte tag.  For [size + 2 <= 2^63] and
    [min_order] between 0 and 63 the loop ends, at an order of at most
    63. *)
Theorem order_for_least (size min_order : Z) :
  0 <= size → size + 2 <= 2 ^ 63 → 0 <= min_order <= 63 →
  ∃ k, Buddy.order_for size min_order = Some k ∧
       min_order <= k <= 63 ∧ size + Buddy.sizeof_uint16_t <= 2 ^ k ∧
       ∀ j, min_order <= j < k → 2 ^ j < size + Buddy.sizeof_uint16_t.
Proof.
  intros Hn Hok Hmo. unfold Buddy.order_for, Buddy.sizeof_uint16_t.
  assert (H63 : (2:Z) ^ 63 < 2 ^ 64) by done.
  rewrite (wrap_small (size + 2)) by lia.
  apply (while_rule _ (λ k, min_order <= k <= 63 ∧
                            ∀ j, min_order <= j < k → 2 ^ j < size + 2)
           (λ k, Z.to_nat (63 - k))).
  - intros k [Hk Hlow]. unfold Buddy.order_for_body.
    rewrite pow2_small by lia.
    destruct (Z.ltb_spec (2 ^ k) (size + 2)) as [Hlt|Hge].
    + assert (k < 63).
      { destruct (decide (k = 63)) as [->|]; lia. }
      split; [|lia]. split; [lia|]. intros j Hj.
      destruct (decide (j = k)) as [->|]; [done | apply Hlow; lia].
    + split; [done|]. split; [lia | done].
  - split; [lia|]. intros j Hj. lia.
  - simpl. lia.
Qed.

Lemma order_for_least_witness :
  ∃ k, Buddy.order_for 100 4 = Some k ∧
       4 <= k <= 63 ∧ 100 + Buddy.sizeof_uint16_t <= 2 ^ k ∧
       ∀ j, 4 <= j < k → 2 ^ j < 100 + Buddy.sizeof_uint16_t.
Proof.
  apply (order_for_least 100 4); [lia | vm_compute; discriminate | lia].
Defined.

(** X13: [ilog2_ceil] is the ceiling of the binary logarithm.  For
    [x <= 2^63] the loop ends with the least [k] such that [x <= 2^k]; it is
    0 for [x] 0 and 1. *)
Theorem ilog2_ceil_least (x : Z) :
  0 <= x <= 2 ^ 63 →
  ∃ k, Buddy.ilog2_ceil x = Some k ∧ 0 <= k <= 63 ∧ x <= 2 ^ k ∧
       ∀ j, 0 <= j < k → 2 ^ j < x.
Proof.
  intros Hx. unfold Buddy.ilog2_ceil.
  assert (H63 : (2:Z) ^ 63 < 2 ^ 64) by done.
  apply (while_rule _ (λ st : Z * Z, 0 <= st.1 <= 63 ∧ st.2 = 2 ^ st.1 ∧
                                     ∀ j, 0 <= j < st.1 → 2 ^ j < x)
           (λ st, Z.to_nat (63 - st.1))).
  - intros [k v] (Hk & Hv & Hlow). simpl in Hk, Hv, Hlow. subst v.
    unfold Buddy.ilog2_ceil_body.
    destruct (Z.ltb_spec (2 ^ k) x) as [Hlt|Hge].
    + assert (k < 63).
      { destruct (decide (k = 63)) as [->|]; lia. }
      cbn [fst snd]. split; [|lia]. split; [lia|]. split.
      * rewrite Z.shiftl_mul_pow2 by lia. rewrite Z.pow_add_r by lia.
        assert (2 ^ k * 2 ^ 1 < 2 ^ 64).
        { rewrite <- Z.pow_add_r by lia. apply Z.pow_lt_mono_r; lia. }
        apply wrap_small. pose proof (BD.pow2_pos k ltac:(lia)). lia.
      * intros j Hj. destruct (decide (j = k)) as [->|]; [done | apply Hlow; lia].
    + split; [done|]. split; [lia | done].
  - simpl. split; [lia|]. split; [done|]. intros j Hj. lia.
  - simpl. lia.
Qed.

Lemma ilog2_ceil_least_witness :
  ∃ k, Buddy.ilog2_ceil 10 = Some k ∧ 0 <= k <= 63 ∧ 10 <= 2 ^ k ∧
       ∀ j, 0 <= j < k → 2 ^ j < 10.
Proof.
  apply (ilog2_ceil_least 10). split; [lia | vm_compute; discriminate].
Defined.

(** X14: [list_push] and [list_pop] are a round trip.  With the list [l]
    behind the link at [head], and [n] a node apart from [head] and from the
    nodes of [l]: after [list_push] the list is [n :: l]; [list_pop] then
    returns [n] and leaves the list [l] behind [head], with the first link as
    it was.  On an empty list [list_pop] returns [NULL] and writes
    nothing. *)
Theorem list_push_pop_round_trip (m : mem) (head n : Z) (l : list Z) :
  BD.chain m (load 8 head m) l → BD.away head 8 l → BD.away n 8 l →
  0 < n < 2 ^ 64 → head + 8 <= n ∨ n + 8 <= head →
  let m1 := Buddy.list_push m head n in
  BD.chain m1 (load 8 head m1) (n :: l) ∧
  ∃ m2, Buddy.list_pop m1 head = (n, m2) ∧
        BD.chain m2 (load 8 head m2) l ∧
        load 8 head m2 = load 8 head m ∧
        (load 8 head m = 0 → Buddy.list_pop m head = (0, m)).
Proof.
  intros Hc Hah Han Hn Hd m1.
  pose proof (load8_range head m) as Hr.
  assert (H1 : load 8 head m1 = n).
  { unfold m1, Buddy.list_push. by rewrite load8_store8_eq by lia. }
  assert (H2 : load 8 n m1 = load 8 head m).
  { unfold m1, Buddy.list_push. rewrite load_store_ne by lia.
    by rewrite load8_store8_eq by lia. }
  assert (Hc1 : BD.chain m1 (load 8 head m) l).
  { unfold m1, Buddy.list_push.
    apply (BD.chain_store _ _ _ 8%nat); [done|].
    by apply (BD.chain_store _ _ _ 8%nat). }
  split.
  { rewrite H1. simpl. split; [done|]. by rewrite H2. }
  exists (store 8 head (load 8 head m) m1). split; [|split; [|split]].
  - unfold Buddy.list_pop. rewrite H1, H2.
    by rewrite (proj2 (Z.eqb_neq n 0)) by lia.
  - rewrite load8_store8_eq by done.
    by apply (BD.chain_store _ _ _ 8%nat).
  - by rewrite load8_store8_eq by done.
  - intros Hz. unfold Buddy.list_pop. by rewrite Hz.
Qed.

Lemma list_push_pop_round_trip_witness :
  let m := store 8 4096 8192 (store 8 8192 0 ∅) in
  let m1 := Buddy.list_push m 4096 12288 in
  BD.chain m1 (load 8 4096 m1) [12288; 8192] ∧
  ∃ m2, Buddy.list_pop m1 4096 = (12288, m2) ∧
        BD.chain m2 (load 8 4096 m2) [8192] ∧
        load 8 4096 m2 = load 8 4096 m ∧
        (load 8 4096 m = 0 → Buddy.list_pop m 4096 = (0, m)).
Proof.
  intros m.
  apply (list_push_pop_round_trip m 4096 12288 [8192]).
  - vm_compute. split; [reflexivity | split; reflexivity].
  - constructor; [lia | constructor].
  - constructor; [lia | constructor].
  - split; [lia | vm_compute; reflexivity].
  - lia.
Defined.

Lemma remove_search_none m n l pp0 p :
  BD.chain m p l → n ∉ l → Forall (λ b, b ≠ 0) l →
  while_fuel (Buddy.list_remove_body m n) (S (length l)) (pp0, p) = Some (0, m).
Proof.
  revert pp0 p. induction l as [|b l IH]; intros pp0 p; cbn [BD.chain length].
  - intros -> _ _. rewrite while_fuel_S. done.
  - intros [-> Hc] Hni Hnz. apply Forall_cons in Hnz as [Hb Hnz].
    apply not_elem_of_cons in Hni as [Hne Hni].
    rewrite while_fuel_S. unfold Buddy.list_remove_body at 1.
    rewrite (proj2 (Z.eqb_neq b 0)) by done.
    rewrite (proj2 (Z.eqb_neq b n)) by done.
    by apply IH.
Qed.

(** X15: [list_remove] unlinks the node it is given, and only that.  With
    the list [l] of distinct nodes behind the link at [head]: when [n] is
    not on the list, [list_remove] returns 0 and writes nothing; when it is,
    [list_remove] returns 1 and leaves the list without (the first) [n], the
    other nodes in their order. *)
Theorem list_remove_unlinks (m : mem) (head n : Z) (l : list Z) :
  BD.chain m (load 8 head m) l → Forall (λ b, 0 < b < 2 ^ 64) l →
  BD.sepl l → BD.away head 8 l →
  (n ∉ l → Buddy.list_remove m head n = Some (0, m)) ∧
  (∀ l1 l2, l = l1 ++ n :: l2 → n ∉ l1 →
     ∃ m', Buddy.list_remove m head n = Some (1, m') ∧
           BD.chain m' (load 8 head m') (l1 ++ l2)).
Proof.
  intros Hc Hr Hs Ha.
  assert (Hnz : Forall (λ b, b ≠ 0) l).
  { eapply Forall_impl; [apply Hr|]. simpl. intros b. lia. }
  assert (Hlen : Z.of_nat (S (length l)) <= 2 ^ 64).
  { pose proof (BD.range_length l 1 (2 ^ 64) ltac:(done) (BD.sepl_NoDup _ Hs)) as Hl.
    rewrite Nat2Z.inj_succ. unfold Z.succ.
    assert (Z.of_nat (length l) <= 2 ^ 64 - 1); [|lia].
    apply Hl. eapply Forall_impl; [apply Hr|]. simpl. intros b. lia. }
  split.
  - intros Hni. unfold Buddy.list_remove.
    apply (while_fuel_while _ (S (length l))); [|done].
    by apply remove_search_none.
  - intros l1 l2 -> Hni.
    exists (store 8 (BD.lastloc head l1) (load 8 n m) m). split.
    + unfold Buddy.list_remove.
      apply (while_fuel_while _ (S (length l1))).
      * by apply (BD.remove_search m n l1 l2).
      * rewrite length_app in Hlen. simpl in Hlen. lia.
    + apply (BD.remove_chain m n l1 l2 head); try done.
      eapply Forall_impl; [apply Hr|]. simpl. intros b. lia.
Qed.

Lemma list_remove_unlinks_witness :
  let m := store 8 4096 8192 (store 8 8192 12288 (store 8 12288 0 ∅)) in
  Buddy.list_remove m 4096 16384 = Some (0, m) ∧
  ∃ m', Buddy.list_remove m 4096 12288 = Some (1, m') ∧
        BD.chain m' (load 8 4096 m') [8192].
Proof.
  intros m.
  assert (Hc : BD.chain m (load 8 4096 m) [8192; 12288]).
  { vm_compute. split; [reflexivity | split; [reflexivity | split; reflexivity]]. }
  assert (Hr : Forall (λ b, 0 < b < 2 ^ 64) [8192; 12288])
    by (repeat constructor; vm_compute; reflexivity).
  assert (Hs : BD.sepl [8192; 12288]).
  { split; [constructor; [lia | constructor]|]. split; [constructor | done]. }
  assert (Ha : BD.away 4096 8 [8192; 12288]).
  { constructor; [lia|]. constructor; [lia | constructor]. }
  split.
  - apply (proj1 (list_remove_unlinks m 4096 16384 [8192; 12288] Hc Hr Hs Ha)).
    intros H. apply elem_of_cons in H as [H|H]; [lia|].
    apply elem_of_cons in H as [H|H]; [lia|]. by apply elem_of_nil in H.
  - apply (proj2 (list_remove_unlinks m 4096 12288 [8192; 12288] Hc Hr Hs Ha)
             [8192] []); [reflexivity|].
    intros H. apply elem_of_cons in H as [H|H]; [lia|]. by apply elem_of_nil in H.
Defined.

(** ** What [alloc] and [free] of the buddy allocator do to the free lists *)

(** The buddies that the split of the block [b] from order [cur] down to
    order [k] leaves free, the smallest first. *)
Definition splits (b k cur : Z) : list BD.blk :=
  (λ j, (b + 2 ^ j, j, true)) <$> seqZ k (cur - k).

Lemma splits_nil b k : splits b k k = [].
Proof. unfold splits. by rewrite Z.sub_diag. Qed.

Lemma splits_cons b c cur :
  c <= cur → splits b (c - 1) cur = (b + 2 ^ (c - 1), c - 1, true) :: splits b c cur.
Proof.
  intros H. unfold splits. rewrite (seqZ_cons (c - 1)) by lia. simpl.
  repeat f_equal; lia.
Qed.

Lemma fl_of_splits b k cur j :
  BD.fl_of (splits b k cur) j = if decide (k <= j < cur) then [b + 2 ^ j] else [].
Proof.
  unfold splits.
  destruct (decide (k <= cur)) as [Hle|Hgt].
  2:{ rewrite seqZ_nil by lia. simpl. by rewrite decide_False by lia. }
  remember (Z.to_nat (cur - k)) as d eqn:Hd.
  replace (cur - k) with (Z.of_nat d) by lia.
  assert (Hc : cur = k + Z.of_nat d) by lia. clear Hd Hle. subst cur.
  revert k. induction d as [|d IH]; intros k.
  - simpl. by rewrite decide_False by lia.
  - rewrite Nat2Z.inj_succ. unfold Z.succ. rewrite seqZ_cons by lia.
    rewrite fmap_cons. replace (Z.pred (Z.of_nat d + 1)) with (Z.of_nat d) by lia.
    destruct (decide (j = k)) as [->|Hne].
    + rewrite BD.fl_of_cons_free, IH. rewrite decide_False by lia.
      by rewrite decide_True by lia.
    + rewrite BD.fl_of_cons_other by (by right). rewrite IH.
      destruct (decide (Z.succ k <= j < Z.succ k + Z.of_nat d));
        [by rewrite decide_True by lia | by rewrite decide_False by lia].
Qed.

(** The split loop, with the blocks it leaves. *)
Lemma split_blocks m A lo hi mx bl b cur k :
  BD.inv m A lo hi mx bl → BD.okb lo hi mx b cur → Forall (BD.apart b cur) bl →
  4 <= k <= cur →
  ∃ m', while (Buddy.split_body A b k) (cur, m) = Some m' ∧
        BD.inv m' A lo hi mx (splits b k cur ++ bl) ∧ BD.okb lo hi mx b k ∧
        Forall (BD.apart b k) (splits b k cur ++ bl).
Proof.
  intros Hinv Hb Ha Hk.
  pose proof (BD.inv_mx _ _ _ _ _ _ Hinv) as Hmx.
  assert (Hcur : cur <= mx) by (destruct Hb; lia).
  destruct (while_rule (Buddy.split_body A b k)
           (λ st, BD.inv st.2 A lo hi mx (splits b st.1 cur ++ bl) ∧
                  BD.okb lo hi mx b st.1 ∧
                  Forall (BD.apart b st.1) (splits b st.1 cur ++ bl) ∧
                  k <= st.1 <= cur)
           (λ st, Z.to_nat (st.1 - k))
           (λ m', BD.inv m' A lo hi mx (splits b k cur ++ bl) ∧
                  BD.okb lo hi mx b k ∧
                  Forall (BD.apart b k) (splits b k cur ++ bl)))
    with (s := (cur, m)) as (m' & Hw & H1 & H2 & H3).
  - intros [c m0] (Hi & Hbc & Hac & Hc). simpl in *.
    destruct (Z.ltb_spec k c) as [Hlt|Hge].
    + rewrite pow2_small by lia.
      destruct Hbc as (Hck & Hblo & Hbhi & Hbal).
      pose proof (BD.pow2_succ (c - 1) ltac:(lia)) as Hp.
      replace (c - 1 + 1) with c in Hp by lia.
      pose proof (BD.pow2_pos (c - 1) ltac:(lia)) as Hpp.
      assert (Hnew : BD.okb lo hi mx (b + 2 ^ (c - 1)) (c - 1)).
      { split; [lia|]. split; [lia|]. split; [lia|].
        replace (b + 2 ^ (c - 1) - lo) with ((b - lo) + 2 ^ (c - 1)) by lia.
        rewrite Z.add_mod, Hbal, BD.pow2_mod16 by lia. done. }
      assert (Hnewa : Forall (BD.apart (b + 2 ^ (c - 1)) (c - 1))
                        (splits b c cur ++ bl)).
      { eapply Forall_impl; [apply Hac|]. unfold BD.apart. intros x. lia. }
      cbn [fst snd]. split; [|lia].
      rewrite (splits_cons b c cur) by lia. cbn [app].
      split; [by apply BD.push_inv|].
      split. { split; [lia|]. split; [lia|]. split; [lia | done]. }
      split. { constructor; [unfold BD.apart; simpl; lia|].
               eapply Forall_impl; [apply Hac|]. unfold BD.apart. intros x. lia. }
      lia.
    + assert (c = k) as -> by lia. done.
  - simpl. rewrite splits_nil. simpl. split_and!; (done || lia).
  - simpl. lia.
  - exists m'. done.
Qed.

(** The node that [list_pop] takes is the first of its list. *)
Lemma pop_head m A lo hi mx bl k b rest :
  BD.inv m A lo hi mx bl → 0 <= k < 64 → BD.fl_of bl k = b :: rest →
  ∃ bl1 bl2 m',
    bl = bl1 ++ (b, k, true) :: bl2 ∧
    Buddy.list_pop m (Buddy.free_lists_of A k) = (b, m') ∧
    BD.inv m' A lo hi mx (bl1 ++ bl2) ∧
    BD.okb lo hi mx b k ∧ Forall (BD.apart b k) (bl1 ++ bl2) ∧
    BD.fl_of (bl1 ++ bl2) k = rest.
Proof.
  intros Hinv Hk Hfl.
  assert (Hnz : load 8 (Buddy.free_lists_of A k) m ≠ 0).
  { intros Hz. apply (BD.inv_head_nil _ _ _ _ _ _ k Hinv) in Hz; [|done].
    by rewrite Hz in Hfl. }
  destruct (BD.pop_inv _ _ _ _ _ _ k Hinv Hk Hnz)
    as (b' & bl1 & bl2 & m' & -> & Hpop & Hinv' & Hb & Ha).
  pose proof (BD.inv_chains _ _ _ _ _ _ Hinv k Hk) as Hc.
  rewrite Hfl in Hc. simpl in Hc. destruct Hc as [Hhd _].
  assert (b' = b) as ->.
  { unfold Buddy.list_pop in Hpop.
    destruct (negb (load 8 (Buddy.free_lists_of A k) m =? 0));
      injection Hpop as <- _; done. }
  exists bl1, bl2, m'. split; [done|]. split; [done|]. split; [done|].
  split; [done|]. split; [done|].
  pose proof (BD.okb_sepl _ _ _ _ k (BD.inv_blocks _ _ _ _ _ _ Hinv)
                (BD.inv_pw _ _ _ _ _ _ Hinv)) as Hs.
  apply BD.sepl_NoDup in Hs. rewrite BD.fl_of_middle_free in Hfl, Hs.
  rewrite BD.fl_of_app. destruct (BD.fl_of bl1 k) as [|y t].
  - simpl in Hfl. by simplify_eq.
  - simpl in Hfl. injection Hfl as -> _. exfalso.
    apply NoDup_cons in Hs as [Hni _]. apply Hni.
    apply elem_of_app. right. apply list_elem_of_here.
Qed.

(** X16: how [alloc] of the buddy allocator splits.  In every state a
    client can reach, let [k] be the order of the request and [cur] the
    first order from [k] up to [max_order] whose free list is not empty,
    with [b] the first block on it.  Then [alloc] returns [b + 2] with the
    tag [k] written at [b]; the free list of [cur] loses [b], every order
    [j] from [k] below [cur] gets the one block [b + 2^j], the upper half of
    the split at that order, and the other free lists are as before. *)
Theorem bd_alloc_splits_down
    (m0 m : mem) (A size n k cur b : Z) (rest : list Z)
    (cs : list call) (ps : list (Z * Z)) :
  bd_reach m0 A size cs m ps → 0 < n → BD.size_ok n →
  Buddy.order_for n (Buddy.load_int (Buddy.min_order_of A) m) = Some k →
  k <= cur <= Buddy.load_int (Buddy.max_order_of A) m →
  (∀ j, k <= j < cur → Buddy.free_list m A j = Some []) →
  Buddy.free_list m A cur = Some (b :: rest) →
  ∃ m', Buddy.allocator_alloc m A n = Some (b + Buddy.sizeof_uint16_t, m') ∧
        load 2 b m' = k ∧
        ∀ j, 0 <= j < 64 →
          Buddy.free_list m' A j
          = if decide (k <= j < cur) then Some [b + 2 ^ j]
            else if decide (j = cur) then Some rest
            else Buddy.free_list m A j.
Proof.
  intros Hr Hn Hok Hof Hcur Hempty Hlist.
  apply bd_reach_cinv in Hr as (lo & hi & mx & bl & Hinv & Hlo & Hhi & Hps).
  pose proof (BD.inv_mx _ _ _ _ _ _ Hinv) as Hmx.
  rewrite (BD.inv_max _ _ _ _ _ _ Hinv) in Hcur.
  rewrite (BD.inv_min _ _ _ _ _ _ Hinv) in Hof.
  destruct (BD.order_for_spec n Hn Hok) as (k' & Hof' & Hk & Hnk & _).
  rewrite Hof in Hof'. injection Hof' as <-.
  rewrite (BD.free_list_spec _ _ _ _ _ _ cur Hinv) in Hlist by lia.
  injection Hlist as Hlist.
  assert (Hempty' : ∀ j, k <= j < cur → BD.fl_of bl j = []).
  { intros j Hj. specialize (Hempty j Hj).
    rewrite (BD.free_list_spec _ _ _ _ _ _ j Hinv) in Hempty by lia.
    by injection Hempty. }
  destruct (BD.find_spec _ _ _ _ _ _ k Hinv ltac:(lia))
    as (cur' & Hfind & Hcur' & Hnil & Hne).
  assert (cur' = cur) as ->.
  { destruct (Z.lt_trichotomy cur' cur) as [Hlt|[->|Hgt]]; [|done|].
    - exfalso. apply Hne; [lia|]. apply Hempty'. lia.
    - exfalso. rewrite (Hnil cur) in Hlist by lia. done. }
  destruct (pop_head _ _ _ _ _ _ cur b rest Hinv ltac:(lia) Hlist)
    as (bl1 & bl2 & m1 & -> & Hpop & Hinv1 & Hb & Ha & Hrest).
  destruct (split_blocks _ _ _ _ _ _ b cur k Hinv1 Hb Ha ltac:(lia))
    as (m2 & Hsplit & Hinv2 & Hbk & Hak).
  pose proof (BD.tag_inv _ _ _ _ _ _ _ _ Hinv2 Hbk Hak) as Hinv3.
  exists (store 2 b k m2). split; [|split].
  - unfold Buddy.allocator_alloc. rewrite (proj2 (Z.eqb_neq n 0)) by lia.
    rewrite (BD.inv_min _ _ _ _ _ _ Hinv), Hof, bind_Some_eq.
    rewrite (BD.inv_max _ _ _ _ _ _ Hinv).
    rewrite (proj2 (Z.ltb_ge mx k)) by lia.
    rewrite Hfind, bind_Some_eq.
    rewrite (proj2 (Z.ltb_ge mx cur)) by lia.
    rewrite Hpop. rewrite Hsplit, bind_Some_eq. done.
  - pose proof (BD.inv_tags _ _ _ _ _ _ Hinv3) as Ht.
    apply Forall_cons in Ht as [Ht _]. by apply Ht.
  - intros j Hj. rewrite (BD.free_list_spec _ _ _ _ _ _ j Hinv3) by done.
    rewrite BD.fl_of_cons_other by (by left).
    rewrite BD.fl_of_app, fl_of_splits.
    destruct (decide (k <= j < cur)) as [Hin|Hout].
    + rewrite <- (BD.fl_of_middle_other bl1 b cur true bl2 j) by (right; lia).
      by rewrite Hempty'.
    + destruct (decide (j = cur)) as [->|Hne'].
      * by rewrite Hrest.
      * rewrite (BD.free_list_spec _ _ _ _ _ _ j Hinv) by done.
        by rewrite (BD.fl_of_middle_other bl1 b cur true bl2 j) by (by right).
Qed.

Lemma fmap_Some_inv {X Y : Type} (f : X → Y) (x : X) (y : Y) :
  f <$> Some x = Some y → f x = y.
Proof. by intros [=]. Qed.

Lemma bd_alloc_splits_down_witness :
  ∃ (m : mem) (ps : list (Z * Z)),
    bd_reach ∅ 65536 4096 [Alloc 100; Alloc 40; Free 1] m ps ∧
    ∃ m', Buddy.allocator_alloc m 65536 20
          = Some (67776 + Buddy.sizeof_uint16_t, m') ∧
          load 2 67776 m' = 5 ∧
          ∀ j, 0 <= j < 64 →
            Buddy.free_list m' 65536 j
            = if decide (5 <= j < 6) then Some [67776 + 2 ^ j]
              else if decide (j = 6) then Some []
              else Buddy.free_list m 65536 j.
Proof.
  set (c := Buddy.allocator_create ∅ 65536 4096).
  set (m1 := default ∅ (snd <$> c)).
  assert (Hc : c = Some (65536, m1)).
  { assert (Hf : fst <$> c = Some 65536) by (vm_compute; reflexivity).
    unfold m1. destruct c as [[h mm]|]; [|discriminate].
    injection Hf as ->. reflexivity. }
  assert (Hs : (λ st : mem * list (Z * Z),
                  Buddy.order_for 20
                    (Buddy.load_int (Buddy.min_order_of 65536) st.1))
               <$> run_calls Buddy.allocator_alloc Buddy.allocator_free
                     65536 (m1, []) [Alloc 100; Alloc 40; Free 1]
               = Some (Some 5)) by (vm_compute; reflexivity).
  assert (Hmax : (λ st : mem * list (Z * Z),
                    Buddy.load_int (Buddy.max_order_of 65536) st.1)
                 <$> run_calls Buddy.allocator_alloc Buddy.allocator_free
                       65536 (m1, []) [Alloc 100; Alloc 40; Free 1]
                 = Some 11) by (vm_compute; reflexivity).
  assert (H5 : (λ st : mem * list (Z * Z), Buddy.free_list st.1 65536 5)
               <$> run_calls Buddy.allocator_alloc Buddy.allocator_free
                     65536 (m1, []) [Alloc 100; Alloc 40; Free 1]
               = Some (Some [])) by (vm_compute; reflexivity).
  assert (H6 : (λ st : mem * list (Z * Z), Buddy.free_list st.1 65536 6)
               <$> run_calls Buddy.allocator_alloc Buddy.allocator_free
                     65536 (m1, []) [Alloc 100; Alloc 40; Free 1]
               = Some (Some [67776])) by (vm_compute; reflexivity).
  revert Hs Hmax H5 H6.
  destruct (run_calls Buddy.allocator_alloc Buddy.allocator_free
              65536 (m1, []) [Alloc 100; Alloc 40; Free 1])
    as [[m ps]|] eqn:E; [|discriminate].
  intros Hof%fmap_Some_inv Hmax%fmap_Some_inv H5%fmap_Some_inv H6%fmap_Some_inv.
  cbn [fst] in Hof, Hmax, H5, H6.
  assert (Hr : bd_reach ∅ 65536 4096 [Alloc 100; Alloc 40; Free 1] m ps).
  { unfold bd_reach. split; [lia|]. split; [vm_compute; discriminate|].
    split; [lia|]. split; [|exists m1; split; [exact Hc | exact E]].
    repeat constructor; vm_compute; discriminate. }
  exists m, ps. split; [exact Hr|].
  apply (bd_alloc_splits_down ∅ m 65536 4096 20 5 6 67776 [] _ ps Hr).
  - lia.
  - split; [lia | vm_compute; discriminate].
  - exact Hof.
  - rewrite Hmax. lia.
  - intros j Hj. assert (j = 5) as -> by lia. exact H5.
  - exact H6.
Defined.

(** X17: [free] of the buddy allocator when the block at the buddy address
    is not free.  In every state a client can reach, for a pointer [p] it
    holds, with [b = p - 2] its block and [k] the tag at [b]: when the
    address [A + ((b - A) xor 2^k)] is not on the free list of order [k],
    [free] pushes [b] on that list, first, and leaves every other free list
    as it was. *)
Theorem bd_free_without_free_buddy
    (m0 m : mem) (A size p n : Z) (cs : list call) (ps : list (Z * Z))
    (i : nat) (l : list Z) :
  bd_reach m0 A size cs m ps → ps !! i = Some (p, n) →
  let b := p - Buddy.sizeof_uint16_t in
  let k := load 2 b m in
  Buddy.free_list m A k = Some l → A + Z.lxor (b - A) (2 ^ k) ∉ l →
  ∃ m', Buddy.allocator_free m A p = Some m' ∧
        Buddy.free_list m' A k = Some (b :: l) ∧
        ∀ j, 0 <= j < 64 → j ≠ k → Buddy.free_list m' A j = Buddy.free_list m A j.
Proof.
  intros Hr Hi b k Hl Hni.
  apply bd_reach_cinv in Hr as (lo & hi & mx & bl & Hinv & Hlo & Hhi & Hps).
  destruct (Forall2_lookup_l _ _ _ _ _ Hps Hi) as ([b0 k0] & HLi & (Hp & _)).
  simpl in Hp.
  assert (Hb : b = b0) by (unfold b, Buddy.sizeof_uint16_t; lia).
  assert (Hin : (b0, k0, false) ∈ bl).
  { apply bd_elem_of_lives. by eapply list_elem_of_lookup_2. }
  destruct (list_elem_of_split _ _ Hin) as (bl1 & bl2 & ->).
  destruct (BD.inv_drop_live _ _ _ _ _ _ _ _ _ Hinv) as (Hinv1 & Hokb & Hap & Htag).
  assert (Hk : k = k0) by (unfold k; by rewrite Hb).
  clearbody b k. subst b k.
  pose proof (BD.inv_mx _ _ _ _ _ _ Hinv) as Hmx.
  pose proof (BD.inv_pos _ _ _ _ _ _ Hinv) as HA.
  pose proof (BD.inv_lo _ _ _ _ _ _ Hinv) as HloA.
  pose proof (BD.inv_hi _ _ _ _ _ _ Hinv) as Hhi64.
  pose proof Hokb as (Hk0 & Hb1 & Hb2 & _).
  pose proof (BD.pow2_pos k0 ltac:(lia)) as Hpk.
  rewrite (BD.free_list_spec _ _ _ _ _ _ k0 Hinv) in Hl by lia.
  injection Hl as <-.
  set (m' := Buddy.list_push m (Buddy.free_lists_of A k0) b0).
  assert (Hfb : Buddy.free_body A (b0, k0, m) = inr (Some m')).
  { unfold Buddy.free_body. rewrite (BD.inv_base _ _ _ _ _ _ Hinv).
    rewrite (wrap_small (b0 - A)) by lia. rewrite pow2_small by lia.
    rewrite (BD.scan_inv _ _ _ _ _ _ k0 _ Hinv) by lia.
    by rewrite decide_False by done. }
  assert (Hinv' : BD.inv m' A lo hi mx ((b0, k0, true) :: bl1 ++ bl2)).
  { by apply BD.push_inv. }
  exists m'. split; [|split].
  - unfold Buddy.allocator_free.
    rewrite (proj2 (Z.eqb_neq p 0)) by lia.
    unfold Buddy.sizeof_uint16_t. replace (p - 2) with b0 by lia.
    rewrite Htag. by rewrite (while_exit _ _ _ Hfb).
  - rewrite (BD.free_list_spec _ _ _ _ _ _ k0 Hinv') by lia.
    rewrite BD.fl_of_cons_free.
    by rewrite (BD.fl_of_middle_other bl1 b0 k0 false bl2 k0) by (by left).
  - intros j Hj Hne.
    rewrite (BD.free_list_spec _ _ _ _ _ _ j Hinv') by lia.
    rewrite (BD.free_list_spec _ _ _ _ _ _ j Hinv) by lia.
    rewrite BD.fl_of_cons_other by (by right).
    by rewrite (BD.fl_of_middle_other bl1 b0 k0 false bl2 j) by (by left).
Qed.

Lemma bd_free_without_free_buddy_witness :
  ∃ (m : mem) (ps : list (Z * Z)),
    bd_reach ∅ 65536 4096 [Alloc 100; Alloc 40; Alloc 40] m ps ∧
    ps !! 1%nat = Some (67714, 40) ∧
    load 2 (67714 - Buddy.sizeof_uint16_t) m = 6 ∧
    Buddy.free_list m 65536 6 = Some [] ∧
    ∃ m', Buddy.allocator_free m 65536 67714 = Some m' ∧
          Buddy.free_list m' 65536 6 = Some [67714 - Buddy.sizeof_uint16_t] ∧
          ∀ j, 0 <= j < 64 → j ≠ 6 →
               Buddy.free_list m' 65536 j = Buddy.free_list m 65536 j.
Proof.
  set (c := Buddy.allocator_create ∅ 65536 4096).
  set (m1 := default ∅ (snd <$> c)).
  assert (Hc : c = Some (65536, m1)).
  { assert (Hf : fst <$> c = Some 65536) by (vm_compute; reflexivity).
    unfold m1. destruct c as [[h mm]|]; [|discriminate].
    injection Hf as ->. reflexivity. }
  assert (Hps : snd <$> run_calls Buddy.allocator_alloc Buddy.allocator_free
                      65536 (m1, []) [Alloc 100; Alloc 40; Alloc 40]
                = Some [(67778, 40); (67714, 40); (67586, 100)])
    by (vm_compute; reflexivity).
  assert (Ht : (λ st : mem * list (Z * Z),
                  load 2 (67714 - Buddy.sizeof_uint16_t) st.1)
               <$> run_calls Buddy.allocator_alloc Buddy.allocator_free
                     65536 (m1, []) [Alloc 100; Alloc 40; Alloc 40]
               = Some 6) by (vm_compute; reflexivity).
  assert (H6 : (λ st : mem * list (Z * Z), Buddy.free_list st.1 65536 6)
               <$> run_calls Buddy.allocator_alloc Buddy.allocator_free
                     65536 (m1, []) [Alloc 100; Alloc 40; Alloc 40]
               = Some (Some [])) by (vm_compute; reflexivity).
  revert Hps Ht H6.
  destruct (run_calls Buddy.allocator_alloc Buddy.allocator_free
              65536 (m1, []) [Alloc 100; Alloc 40; Alloc 40])
    as [[m ps]|] eqn:E; [|discriminate].
  intros Hps%fmap_Some_inv Ht%fmap_Some_inv H6%fmap_Some_inv.
  cbn [fst snd] in Hps, Ht, H6. subst ps.
  assert (Hr : bd_reach ∅ 65536 4096 [Alloc 100; Alloc 40; Alloc 40] m
                 [(67778, 40); (67714, 40); (67586, 100)]).
  { unfold bd_reach. split; [lia|]. split; [vm_compute; discriminate|].
    split; [lia|]. split; [|exists m1; split; [exact Hc | exact E]].
    repeat constructor; vm_compute; discriminate. }
  exists m, [(67778, 40); (67714, 40); (67586, 100)].
  split; [exact Hr|]. split; [reflexivity|]. split; [exact Ht|].
  split; [exact H6|].
  pose proof (bd_free_without_free_buddy ∅ m 65536 4096 67714 40 _ _ 1%nat []
                Hr eq_refl) as H.
  cbv zeta in H. rewrite Ht in H. apply H; [exact H6|].
  apply not_elem_of_nil.
Defined.

(** ** Rounding up, and sizes that wrap *)

(** X18: [align_up] to a power of two.  For [a = 2^j] and a 64-bit [x]:
    when [x + a] does not pass [2^64] the result is the least multiple of
    [a] from [x] on; for the larger [x] the sum wraps and the result
    is 0. *)
Theorem align_up_pow2 (x j : Z) :
  0 <= j < 64 → 0 <= x < 2 ^ 64 →
  (x + 2 ^ j <= 2 ^ 64 →
   align_up x (2 ^ j) mod 2 ^ j = 0 ∧ x <= align_up x (2 ^ j) < x + 2 ^ j) ∧
  (2 ^ 64 < x + 2 ^ j → align_up x (2 ^ j) = 0).
Proof.
  intros Hj Hx.
  pose proof (BD.pow2_pos j ltac:(lia)) as Hp.
  assert (Hp64 : 2 ^ j < 2 ^ 64) by (apply Z.pow_lt_mono_r; lia).
  unfold align_up. rewrite (wrap_small (2 ^ j - 1)) by lia.
  replace (2 ^ j - 1) with (Z.ones j) by (rewrite Z.ones_equiv; lia).
  assert (Ho : Z.ones j = 2 ^ j - 1) by (rewrite Z.ones_equiv; lia).
  split.
  - intros Hsmall. rewrite (wrap_small (x + Z.ones j)) by lia.
    rewrite land_not64_ones by lia.
    pose proof (Z.mod_pos_bound (x + Z.ones j) (2 ^ j) Hp).
    split; [apply round_down_mod; lia | lia].
  - intros Hbig.
    assert (Hw : wrap (x + Z.ones j) = x + Z.ones j - 2 ^ 64).
    { unfold wrap. symmetry. apply (Z.mod_unique _ _ 1); lia. }
    rewrite Hw. rewrite land_not64_ones by lia.
    rewrite Z.mod_small by lia. lia.
Qed.

Lemma align_up_pow2_witness :
  (100 + 2 ^ 4 <= 2 ^ 64 →
   align_up 100 (2 ^ 4) mod 2 ^ 4 = 0 ∧
   100 <= align_up 100 (2 ^ 4) < 100 + 2 ^ 4) ∧
  (2 ^ 64 < 100 + 2 ^ 4 → align_up 100 (2 ^ 4) = 0).
Proof.
  apply (align_up_pow2 100 4); [lia | split; [lia | vm_compute; reflexivity]].
Defined.

Lemma fl_small_24_no_free lo hi (bs : list FL.blk) :
  FL.tiled lo hi bs → FL.small 24 bs → FL.frees bs = [].
Proof.
  revert lo. induction bs as [|[[b s] f] bs IH]; intros lo Ht Hs; [done|].
  simpl in Ht. destruct Ht as (-> & H24 & Ht).
  apply Forall_cons in Hs as [Hx Hs]. simpl in Hx. destruct f.
  - specialize (Hx eq_refl). lia.
  - change (FL.frees ((lo, s, false) :: bs)) with (FL.frees bs). by eapply IH.
Qed.

(** X19: a request within 16 bytes of [2^64] wraps.  In every state a
    client of the free-list allocator can reach with a block on the free
    list, [alloc] of such a size rounds it up to 0, needs the 24 bytes of a
    header only, and returns the first block of the free list, whose usable
    bytes are fewer than the bytes asked for. *)
Theorem fl_alloc_size_wraps
    (m0 m : mem) (a size n b s : Z) (rest : list (Z * Z))
    (cs : list call) (ps : list (Z * Z)) :
  fl_reach m0 a size cs m ps → 2 ^ 64 - 16 < n < 2 ^ 64 →
  FreeList.free_blocks m a = Some ((b, s) :: rest) →
  align_up n FreeList.alignof_max_align_t = 0 ∧
  ∃ m', FreeList.allocator_alloc m a n
        = Some (b + FreeList.sizeof_block_header, m') ∧
        load 8 (FreeList.bsize b) m' - FreeList.sizeof_block_header < n.
Proof.
  intros Hr Hn Hfr.
  assert (H64 : (2:Z) ^ 64 = 18446744073709551616) by done.
  assert (Hal : align_up n FreeList.alignof_max_align_t = 0).
  { change FreeList.alignof_max_align_t with (2 ^ 4).
    apply (align_up_pow2 n 4); [lia | lia |]. change (2 ^ 4) with 16. lia. }
  split; [done|].
  apply fl_reach_cinv in Hr as (bs & L & Hinv & _ & _).
  rewrite (FL.free_blocks_spec _ _ _ _ Hinv) in Hfr. injection Hfr as Hfr.
  pose proof (FL.inv_tiled _ _ _ _ Hinv) as Ht.
  destruct (FL.first_fit 24 bs)
    as [Hsm|(pre & b' & s' & post & -> & Hsm & Hs')].
  { by rewrite (fl_small_24_no_free _ _ _ Ht Hsm) in Hfr. }
  pose proof (FL.inv_split _ _ _ _ _ _ Hinv)
    as (Hb & _ & Ha & _ & _ & Htp & _ & Hhp & Hhb & _ & Hhead).
  simpl in Hb, Hhb, Hhp, Hhead.
  rewrite fl_frees_app, (fl_small_24_no_free _ _ _ Htp Hsm) in Hfr.
  change (FL.frees ((b', s', true) :: post)) with ((b', s') :: FL.frees post) in Hfr.
  injection Hfr as -> -> _.
  destruct Hhb as (Hsz & Hfl & _).
  pose proof (FL.total_nonneg _ _ _ Htp) as Htn.
  destruct (FreeList.alloc_take m (FL.linkloc (FreeList.free_list_of a) pre) b 24)
    as [p m'] eqn:Et.
  assert (Hp : p = b + FreeList.sizeof_block_header).
  { unfold FreeList.alloc_take in Et. by injection Et as <- _. }
  subst p. exists m'. split.
  - unfold FreeList.allocator_alloc. rewrite (proj2 (Z.eqb_neq n 0)) by lia.
    rewrite Hal. change (wrap (0 + FreeList.sizeof_block_header)) with 24.
    rewrite Hhead.
    apply (while_fuel_while _ (S (length pre))).
    + assert (Hf4 : load 4 (FreeList.bfree b) m ≠ 0) by (by rewrite Hfl).
      assert (Hs24 : 24 <= load 8 (FreeList.bsize b) m) by (by rewrite Hsz).
      by rewrite (FL.alloc_search m 24 (a + 24) (a + 24 + FL.total pre) pre b
                    (FreeList.free_list_of a)
                    Htp ltac:(lia) Hsm Hhp ltac:(lia) Hf4 Hs24), Et.
    + pose proof (FL.inv_length _ _ _ _ Hinv) as Hlen.
      rewrite length_app in Hlen. simpl in Hlen. lia.
  - pose proof (load8_range (FreeList.bsize b) m').
    unfold FreeList.sizeof_block_header. lia.
Qed.

Lemma fl_alloc_size_wraps_witness :
  ∃ (m : mem) (ps : list (Z * Z)),
    fl_reach ∅ 65536 4096 [Alloc 100; Alloc 40; Free 1] m ps ∧
    FreeList.free_blocks m 65536 = Some [(65560, 136); (65768, 3864)] ∧
    align_up (2 ^ 64 - 1) FreeList.alignof_max_align_t = 0 ∧
    ∃ m', FreeList.allocator_alloc m 65536 (2 ^ 64 - 1)
          = Some (65560 + FreeList.sizeof_block_header, m') ∧
          load 8 (FreeList.bsize 65560) m' - FreeList.sizeof_block_header
          < 2 ^ 64 - 1.
Proof.
  assert (Hs : (λ st : mem * list (Z * Z), FreeList.free_blocks st.1 65536)
               <$> run_calls FreeList.allocator_alloc FreeList.allocator_free
                     65536 ((FreeList.allocator_create ∅ 65536 4096).2, [])
                     [Alloc 100; Alloc 40; Free 1]
               = Some (Some [(65560, 136); (65768, 3864)]))
    by (vm_compute; reflexivity).
  revert Hs.
  destruct (run_calls FreeList.allocator_alloc FreeList.allocator_free
              65536 ((FreeList.allocator_create ∅ 65536 4096).2, [])
              [Alloc 100; Alloc 40; Free 1]) as [[m ps]|] eqn:E; [|discriminate].
  intros Hfr%fmap_Some_inv. cbn [fst] in Hfr.
  assert (Hr : fl_reach ∅ 65536 4096 [Alloc 100; Alloc 40; Free 1] m ps).
  { unfold fl_reach. split; [lia|]. split; [vm_compute; discriminate|].
    split; [lia|]. split; [|exact E].
    repeat constructor; vm_compute; discriminate. }
  exists m, ps. split; [exact Hr|]. split; [exact Hfr|].
  apply (fl_alloc_size_wraps ∅ m 65536 4096 (2 ^ 64 - 1) 65560 136
           [(65768, 3864)] _ ps Hr); [|exact Hfr].
  split; vm_compute; reflexivity.
Defined.

(** ** The benchmark of the driver ([lab4/src/driver.c])

    [main] allocates [N] blocks of the sizes drawn, stopping at the first
    [alloc] that fails, and then frees the [N] cells of [ptrs]:

    [for (size_t i=0;i<N;i++){ ptrs[i]= api.alloc(A, sizes[i]);
                               if(!ptrs[i]){ ...; break; } }]
    [for (size_t i=0;i<N;i++){ api.free(A, ptrs[i]); }]

    The arrays [sizes] and [ptrs] come from [malloc]; they are lists here,
    and a cell of [ptrs] that was never written has no value: the free loop
    has no result when it reads one. *)
Module Driver.

Section Bench.
Context (alloc : mem → Z → Z → option (Z * mem)).
Context (free : mem → Z → Z → option mem).

(** The first loop: the cells of [ptrs] written, in order, and the memory
    after. *)
Fixpoint alloc_loop (A : Z) (sizes : list Z) (m : mem) : option (list Z * mem) :=
  match sizes with
  | [] => Some ([], m)
  | s :: sizes' =>
      '(p, m') ← alloc m A s;
      if p =? 0 then Some ([p], m')
      else '(ptrs, m'') ← alloc_loop A sizes' m'; Some (p :: ptrs, m'')
  end.

(** The second loop, over the cells of [ptrs]. *)
Fixpoint free_loop (A : Z) (ptrs : list (option Z)) (m : mem) : option mem :=
  match ptrs with
  | [] => Some m
  | None :: _ => None
  | Some p :: ptrs' => m' ← free m A p; free_loop A ptrs' m'
  end.

Definition bench (A : Z) (sizes : list Z) (m : mem) : option mem :=
  '(ptrs, m') ← alloc_loop A sizes m;
  free_loop A ((Some <$> ptrs)
               ++ replicate (length sizes - length ptrs) None) m'.
End Bench.

End Driver.

Lemma fl_cinv2_nothing_held a size m :
  fl_cinv2 a size m [] → 48 <= size →
  FreeList.free_blocks m a = Some [(a + 24, size - 24)].
Proof.
  intros (bs & L & Hinv & HL & Hps & Hn & _) Hsz.
  rewrite (FL.free_blocks_spec _ _ _ _ Hinv). f_equal.
  apply Forall2_nil_inv_l in Hps as ->.
  apply Permutation_nil_l in HL. symmetry in HL.
  apply fl_lives_nil_all_free in HL.
  pose proof (FL.inv_tiled _ _ _ _ Hinv) as Ht.
  destruct bs as [|[[b s] f] bs]; [simpl in Ht; lia|].
  apply Forall_cons in HL as [Hf HL]. simpl in Hf. subst f.
  destruct bs as [|[[b' s'] f'] bs].
  - simpl in Ht. destruct Ht as (-> & _ & Ht). simpl.
    repeat f_equal. lia.
  - apply Forall_cons in HL as [Hf' _]. simpl in Hf'. subst f'.
    destruct Hn as [Hsl _]. by specialize (Hsl eq_refl).
Qed.

(** The first loop keeps the client invariant; when no [alloc] failed the
    client holds the pointers of [ptrs], one for each size. *)
Lemma fl_alloc_loop a size sizes m ps :
  fl_cinv2 a size m ps → Forall FL.size_ok sizes →
  ∃ ptrs m',
    Driver.alloc_loop FreeList.allocator_alloc a sizes m = Some (ptrs, m') ∧
    (Forall (λ p, p ≠ 0) ptrs →
     length ptrs = length sizes ∧
     ∃ ps', fl_cinv2 a size m' ps' ∧ ps'.*1 ≡ₚ ptrs ++ ps.*1).
Proof.
  intros Hc Hs. revert m ps Hc.
  induction Hs as [|s sizes Hs _ IH]; intros m ps Hc.
  - exists [], m. split; [done|]. intros _. split; [done|]. by exists ps.
  - destruct (fl_cinv2_step a size m ps (Alloc s) Hc Hs) as (m1 & ps1 & Hst & Hc1).
    unfold step in Hst.
    destruct (FreeList.allocator_alloc m a s) as [[p m1']|] eqn:Hal; [|done].
    rewrite bind_Some_eq in Hst. injection Hst as -> <-.
    cbn [Driver.alloc_loop]. rewrite Hal, bind_Some_eq.
    destruct (Z.eqb_spec p 0) as [->|Hp].
    { exists [0], m1. split; [done|]. intros H.
      by apply Forall_cons in H as [? _]. }
    destruct (IH m1 _ Hc1) as (ptrs & m' & Hl & Hall).
    exists (p :: ptrs), m'. rewrite Hl, bind_Some_eq. split; [done|].
    intros H. apply Forall_cons in H as [_ H].
    destruct (Hall H) as (Hlen & ps' & Hc' & Hperm).
    split; [simpl; by rewrite Hlen|]. exists ps'. split; [done|].
    rewrite Hperm. simpl. by rewrite <- Permutation_middle.
Qed.

(** The second loop, over pointers that the client holds. *)
Lemma fl_free_loop a size ptrs m ps :
  fl_cinv2 a size m ps → ps.*1 ≡ₚ ptrs →
  ∃ m', Driver.free_loop FreeList.allocator_free a (Some <$> ptrs) m = Some m' ∧
        fl_cinv2 a size m' [].
Proof.
  revert m ps. induction ptrs as [|p ptrs IH]; intros m ps Hc Hperm.
  - apply Permutation_nil_r in Hperm. apply fmap_nil_inv in Hperm as ->.
    by exists m.
  - assert (Hin : p ∈ ps.*1) by (rewrite Hperm; apply list_elem_of_here).
    apply list_elem_of_lookup in Hin as [i Hi].
    rewrite list_lookup_fmap in Hi.
    destruct (ps !! i) as [[p' n]|] eqn:Hpi; [|done].
    simpl in Hi. injection Hi as ->.
    destruct (fl_cinv2_step a size m ps (Free i) Hc I) as (m1 & ps1 & Hst & Hc1).
    unfold step in Hst. rewrite Hpi in Hst.
    destruct (FreeList.allocator_free m a p) as [m1'|] eqn:Hfr; [|done].
    rewrite bind_Some_eq in Hst. injection Hst as -> <-.
    destruct (IH m1 (delete i ps) Hc1) as (m' & Hl & Hc').
    { rewrite <- (take_drop_middle ps i (p, n)) in Hperm by done.
      rewrite fmap_app, fmap_cons in Hperm. simpl in Hperm.
      rewrite <- Permutation_middle in Hperm.
      apply Permutation_cons_inv in Hperm.
      by rewrite delete_take_drop, fmap_app. }
    exists m'. split; [|done].
    rewrite fmap_cons. cbn [Driver.free_loop]. by rewrite Hfr, bind_Some_eq.
Qed.

(** X20: the benchmark of the driver over the free-list allocator.  After
    [create] over at least 48 bytes, with sizes whose arithmetic does not
    wrap, the allocation loop returns; when none of its [alloc] calls
    failed, the free loop returns as well and leaves the free list as
    [create] made it, the one block of [size - 24] bytes at [memory + 24]. *)
Theorem fl_bench_restores_arena (m0 : mem) (a size : Z) (sizes : list Z) :
  0 < a → a + size <= 2 ^ 64 → 48 <= size → Forall FL.size_ok sizes →
  let m1 := (FreeList.allocator_create m0 a size).2 in
  ∃ ptrs m2,
    Driver.alloc_loop FreeList.allocator_alloc a sizes m1 = Some (ptrs, m2) ∧
    (Forall (λ p, p ≠ 0) ptrs →
     ∃ m3, Driver.bench FreeList.allocator_alloc FreeList.allocator_free a sizes m1
           = Some m3 ∧
           FreeList.free_blocks m3 a = Some [(a + 24, size - 24)]).
Proof.
  intros Ha Hend Hsz Hs m1.
  assert (Hc : fl_cinv2 a size m1 []).
  { apply (fl_reach_cinv2 m0 a size []).
    split; [done|]. split; [done|]. split; [done|]. split; [constructor|]. done. }
  destruct (fl_alloc_loop a size sizes m1 [] Hc Hs) as (ptrs & m2 & Hl & Hall).
  exists ptrs, m2. split; [done|]. intros Hnz.
  destruct (Hall Hnz) as (Hlen & ps' & Hc' & Hperm).
  rewrite app_nil_r in Hperm.
  destruct (fl_free_loop a size ptrs m2 ps' Hc' Hperm) as (m3 & Hf & Hc3).
  exists m3. split; [|by apply fl_cinv2_nothing_held].
  unfold Driver.bench. rewrite Hl, bind_Some_eq.
  rewrite Hlen, Nat.sub_diag. simpl. by rewrite app_nil_r.
Qed.

Lemma fl_bench_restores_arena_witness :
  let m1 := (FreeList.allocator_create ∅ 65536 4096).2 in
  ∃ m2,
    Driver.alloc_loop FreeList.allocator_alloc 65536 [100; 8; 400] m1
    = Some ([65584; 65720; 65760], m2) ∧
    ∃ m3, Driver.bench FreeList.allocator_alloc FreeList.allocator_free
            65536 [100; 8; 400] m1 = Some m3 ∧
          FreeList.free_blocks m3 65536 = Some [(65536 + 24, 4096 - 24)].
Proof.
  intros m1.
  assert (Hp : fst <$> Driver.alloc_loop FreeList.allocator_alloc 65536
                         [100; 8; 400] m1
               = Some [65584; 65720; 65760]) by (vm_compute; reflexivity).
  destruct (fl_bench_restores_arena ∅ 65536 4096 [100; 8; 400])
    as (ptrs & m2 & Hl & Hall);
    [lia | vm_compute; discriminate | lia | |].
  { repeat constructor; vm_compute; discriminate. }
  fold m1 in Hl, Hall. rewrite Hl in Hp. injection Hp as ->.
  exists m2. split; [exact Hl|]. apply Hall.
  repeat constructor; lia.
Defined.

Lemma NoDup_app_cons_inj (l1 l2 l1' l2' : list Z) x :
  NoDup (l1 ++ x :: l2) → l1 ++ x :: l2 = l1' ++ x :: l2' → l1 = l1' ∧ l2 = l2'.
Proof.
  revert l1'. induction l1 as [|y l1 IH]; intros l1' Hnd E.
  - destruct l1' as [|y' l1']; simpl in E; [by simplify_eq|].
    injection E as <- E. apply NoDup_cons in Hnd as [Hni _].
    exfalso. apply Hni. rewrite E. apply elem_of_app. right. apply list_elem_of_here.
  - destruct l1' as [|y' l1']; simpl in E.
    + injection E as -> E. apply NoDup_cons in Hnd as [Hni _].
      exfalso. apply Hni. apply elem_of_app. right. apply list_elem_of_here.
    + injection E as <- E. apply NoDup_cons in Hnd as [_ Hnd].
      destruct (IH l1' Hnd E) as [-> ->]. done.
Qed.

(** X21: [free] of the buddy allocator at [max_order].  In every state a
    client can reach, for a pointer [p] it holds whose block [b = p - 2] has
    the order [max_order]: when the block at the buddy address
    [A + ((b - A) xor 2^max_order)] is on the free list of that order,
    [free] takes it off the list and pushes the lower of the two addresses
    back, at [max_order].  The list has as many blocks as before the call,
    although a block was freed, and the other lists are as they were. *)
Theorem bd_free_at_max_order
    (m0 m : mem) (A size p n : Z) (cs : list call) (ps : list (Z * Z))
    (i : nat) (l1 l2 : list Z) :
  bd_reach m0 A size cs m ps → ps !! i = Some (p, n) →
  let b := p - Buddy.sizeof_uint16_t in
  let k := load 2 b m in
  let buddy := A + Z.lxor (b - A) (2 ^ k) in
  k = Buddy.load_int (Buddy.max_order_of A) m →
  Buddy.free_list m A k = Some (l1 ++ buddy :: l2) →
  ∃ m', Buddy.allocator_free m A p = Some m' ∧
        Buddy.free_list m' A k = Some (Z.min b buddy :: l1 ++ l2) ∧
        ∀ j, 0 <= j < 64 → j ≠ k → Buddy.free_list m' A j = Buddy.free_list m A j.
Proof.
  intros Hr Hi b k buddy Hkmax Hl.
  apply bd_reach_cinv in Hr as (lo & hi & mx & bl & Hinv & Hlo & Hhi & Hps).
  destruct (Forall2_lookup_l _ _ _ _ _ Hps Hi) as ([b0 k0] & HLi & (Hp & _)).
  simpl in Hp.
  assert (Hb : b = b0) by (unfold b, Buddy.sizeof_uint16_t; lia).
  assert (Hin : (b0, k0, false) ∈ bl).
  { apply bd_elem_of_lives. by eapply list_elem_of_lookup_2. }
  pose proof (BD.inv_tags _ _ _ _ _ _ Hinv) as Ht.
  rewrite Forall_forall in Ht. pose proof (Ht _ Hin eq_refl) as Htag.
  simpl in Htag.
  assert (Hk : k = k0) by (unfold k; by rewrite Hb).
  rewrite (BD.inv_max _ _ _ _ _ _ Hinv) in Hkmax.
  unfold buddy in *. clear buddy. clearbody b k. subst b k.
  revert Htag. subst k0. intros Htag.
  set (buddy := A + Z.lxor (b0 - A) (2 ^ mx)) in *.
  pose proof (BD.inv_mx _ _ _ _ _ _ Hinv) as Hmx.
  pose proof (BD.inv_pos _ _ _ _ _ _ Hinv) as HA.
  pose proof (BD.inv_lo _ _ _ _ _ _ Hinv) as HloA.
  pose proof (BD.inv_hi _ _ _ _ _ _ Hinv) as Hhi64.
  pose proof (BD.inv_blocks _ _ _ _ _ _ Hinv) as Hok.
  rewrite Forall_forall in Hok. pose proof (Hok _ Hin) as (_ & Hb1 & Hb2 & _).
  simpl in Hb1, Hb2.
  pose proof (BD.pow2_pos mx ltac:(lia)) as Hpk.
  rewrite (BD.free_list_spec _ _ _ _ _ _ mx Hinv) in Hl by lia.
  injection Hl as Hl.
  assert (Hbin : buddy ∈ BD.fl_of bl mx).
  { rewrite Hl. apply elem_of_app. right. apply list_elem_of_here. }
  destruct (BD.remove_inv _ _ _ _ _ _ mx buddy Hinv ltac:(lia) Hbin)
    as (bl1 & bl2 & m1 & Hbl & Hrem & Hinv1 & Hokb & Hapb).
  assert (Hnd : NoDup (BD.fl_of bl mx)).
  { apply BD.sepl_NoDup. apply (BD.okb_sepl lo hi mx).
    - apply (BD.inv_blocks _ _ _ _ _ _ Hinv).
    - apply (BD.inv_pw _ _ _ _ _ _ Hinv). }
  assert (Hl12 : BD.fl_of (bl1 ++ bl2) mx = l1 ++ l2).
  { rewrite Hbl, BD.fl_of_middle_free in Hl, Hnd.
    destruct (NoDup_app_cons_inj _ _ _ _ _ Hnd Hl) as [E1 E2].
    by rewrite BD.fl_of_app, E1, E2. }
  assert (Hin1 : (b0, mx, false) ∈ bl1 ++ bl2).
  { rewrite Hbl in Hin. apply elem_of_app in Hin as [Hin|Hin].
    - apply elem_of_app. by left.
    - apply elem_of_cons in Hin as [Hin|Hin]; [discriminate Hin|].
      apply elem_of_app. by right. }
  destruct (list_elem_of_split _ _ Hin1) as (c1 & c2 & Hc).
  rewrite Hc in Hinv1, Hapb, Hl12.
  destruct (BD.inv_drop_live _ _ _ _ _ _ _ _ _ Hinv1) as (Hinv2 & Hokb0 & Hap0 & _).
  assert (Hapb' : Forall (BD.apart buddy mx) (c1 ++ c2)).
  { rewrite Forall_app, Forall_cons in Hapb. rewrite Forall_app. tauto. }
  set (blk' := if buddy <? b0 then buddy else b0).
  assert (Hmin : Z.min b0 buddy = blk').
  { unfold blk'. destruct (Z.ltb_spec buddy b0); lia. }
  set (m' := Buddy.list_push m1 (Buddy.free_lists_of A mx) blk').
  assert (Hinv' : BD.inv m' A lo hi mx ((blk', mx, true) :: c1 ++ c2)).
  { unfold m', blk'. destruct (buddy <? b0); by apply BD.push_inv. }
  assert (Hfb : Buddy.free_body A (b0, mx, m) = inr (Some m')).
  { unfold Buddy.free_body. rewrite (BD.inv_base _ _ _ _ _ _ Hinv).
    rewrite (wrap_small (b0 - A)) by lia. rewrite pow2_small by lia.
    rewrite (BD.scan_inv _ _ _ _ _ _ mx _ Hinv) by lia.
    rewrite decide_True by done. change (1 =? 0) with false. cbv iota.
    fold buddy. rewrite Hrem.
    assert (Hk16 : (mx + 1) mod 2 ^ 16 = mx + 1).
    { apply Z.mod_small. change (2 ^ 16) with 65536. lia. }
    rewrite Hk16, (BD.inv_max _ _ _ _ _ _ Hinv1).
    rewrite (proj2 (Z.ltb_lt mx (mx + 1))) by lia.
    replace (mx + 1 - 1) with mx by lia. done. }
  exists m'. split; [|split].
  - unfold Buddy.allocator_free.
    rewrite (proj2 (Z.eqb_neq p 0)) by lia.
    unfold Buddy.sizeof_uint16_t. replace (p - 2) with b0 by lia.
    rewrite Htag. by rewrite (while_exit _ _ _ Hfb).
  - rewrite (BD.free_list_spec _ _ _ _ _ _ mx Hinv') by lia.
    rewrite BD.fl_of_cons_free, Hmin.
    rewrite (BD.fl_of_middle_other c1 b0 mx false c2 mx) in Hl12 by (by left).
    by rewrite Hl12.
  - intros j Hj Hne.
    rewrite (BD.free_list_spec _ _ _ _ _ _ j Hinv') by lia.
    rewrite (BD.free_list_spec _ _ _ _ _ _ j Hinv) by lia.
    rewrite BD.fl_of_cons_other by (by right).
    rewrite <- (BD.fl_of_middle_other c1 b0 mx false c2 j) by (by left).
    rewrite <- Hc, Hbl.
    by rewrite (BD.fl_of_middle_other bl1 buddy mx true bl2 j) by (by right).
Qed.

Lemma bd_free_at_max_order_witness :
  ∃ (m : mem) (ps : list (Z * Z)),
    bd_reach ∅ 1048576 4194304 [Alloc 1000000] m ps ∧
    ps !! 0%nat = Some (4194306, 1000000) ∧
    load 2 (4194306 - Buddy.sizeof_uint16_t) m = 20 ∧
    Buddy.load_int (Buddy.max_order_of 1048576) m = 20 ∧
    Buddy.free_list m 1048576 20 = Some [3145728; 2097152] ∧
    ∃ m', Buddy.allocator_free m 1048576 4194306 = Some m' ∧
          Buddy.free_list m' 1048576 20 = Some [3145728; 2097152] ∧
          ∀ j, 0 <= j < 64 → j ≠ 20 →
               Buddy.free_list m' 1048576 j = Buddy.free_list m 1048576 j.
Proof.
  set (c := Buddy.allocator_create ∅ 1048576 4194304).
  set (m1 := default ∅ (snd <$> c)).
  assert (Hc : c = Some (1048576, m1)).
  { assert (Hf : fst <$> c = Some 1048576) by (vm_compute; reflexivity).
    unfold m1. destruct c as [[h mm]|]; [|discriminate].
    injection Hf as ->. reflexivity. }
  assert (Hps : snd <$> run_calls Buddy.allocator_alloc Buddy.allocator_free
                      1048576 (m1, []) [Alloc 1000000]
                = Some [(4194306, 1000000)]) by (vm_compute; reflexivity).
  assert (Ht : (λ st : mem * list (Z * Z),
                  load 2 (4194306 - Buddy.sizeof_uint16_t) st.1)
               <$> run_calls Buddy.allocator_alloc Buddy.allocator_free
                     1048576 (m1, []) [Alloc 1000000]
               = Some 20) by (vm_compute; reflexivity).
  assert (Hmx : (λ st : mem * list (Z * Z),
                   Buddy.load_int (Buddy.max_order_of 1048576) st.1)
                <$> run_calls Buddy.allocator_alloc Buddy.allocator_free
                      1048576 (m1, []) [Alloc 1000000]
                = Some 20) by (vm_compute; reflexivity).
  assert (H20 : (λ st : mem * list (Z * Z), Buddy.free_list st.1 1048576 20)
                <$> run_calls Buddy.allocator_alloc Buddy.allocator_free
                      1048576 (m1, []) [Alloc 1000000]
                = Some (Some [3145728; 2097152])) by (vm_compute; reflexivity).
  revert Hps Ht Hmx H20.
  destruct (run_calls Buddy.allocator_alloc Buddy.allocator_free
              1048576 (m1, []) [Alloc 1000000])
    as [[m ps]|] eqn:E; [|discriminate].
  intros Hps%fmap_Some_inv Ht%fmap_Some_inv Hmx%fmap_Some_inv H20%fmap_Some_inv.
  cbn [fst snd] in Hps, Ht, Hmx, H20. subst ps.
  assert (Hr : bd_reach ∅ 1048576 4194304 [Alloc 1000000] m [(4194306, 1000000)]).
  { unfold bd_reach. split; [lia|]. split; [vm_compute; discriminate|].
    split; [lia|]. split; [|exists m1; split; [exact Hc | exact E]].
    repeat constructor; vm_compute; discriminate. }
  exists m, [(4194306, 1000000)].
  split; [exact Hr|]. split; [reflexivity|]. split; [exact Ht|].
  split; [exact Hmx|]. split; [exact H20|].
  pose proof (bd_free_at_max_order ∅ m 1048576 4194304 4194306 1000000 _ _ 0%nat
                [] [2097152] Hr eq_refl) as H.
  cbv zeta in H. rewrite Ht, Hmx in H.
  change (4194306 - Buddy.sizeof_uint16_t) with 4194304 in H.
  change (1048576 + Z.lxor (4194304 - 1048576) (2 ^ 20)) with 3145728 in H.
  change (Z.min 4194304 3145728) with 3145728 in H.
  apply H; [reflexivity | exact H20].
Defined.
